(** * OpenRV session manager: a shallow embedding of the tree/inputs
    synchroniser and of the 2D transform manipulator.

    Sources embedded here:
    - [session_manager/session_manager.py]  (module level helpers and the
      methods of [SessionManagerMode], [NodeTreeView], [InputsView]);
    - [session_manager/session_manager_utils.py] ([block_signals], constants);
    - [session_manager/transform_manip.py]  ([TransformManip]).

    The host application's command API ([rv.commands], [rv.extra_commands])
    is not part of these sources.  It is modelled once, in [Module Facade],
    from the interface the specification lists; everything else is a
    translation of the Python text, statement by statement. *)

From stdpp Require Import gmap strings list stringmap.
From Stdlib Require Import ZArith Lia QArith Qfield Qpower Floats.

Set Warnings "-register-all,-inexact-float".

Local Open Scope Z_scope.

(* ===================================================================== *)
(** * Python values, exceptions, and the state/exception monad            *)
(* ===================================================================== *)

(** The outcome of running a Python statement: it either returns a value or
    raises.  What an exception carries is never inspected by the sources
    (every handler is [except Exception]), so [Raise] carries nothing. *)
Inductive result (A : Type) : Type :=
  | Ok (a : A)
  | Raise.
Arguments Ok {A} a.
Arguments Raise {A}.

(** A computation over a mutable world [S].  The world that comes back with
    [Raise] is the world at the moment of the raise: Python does not roll
    back side effects. *)
Definition M (S A : Type) : Type := S → result A * S.

Definition ret {S A} (a : A) : M S A := λ s, (Ok a, s).
Definition raise {S A} : M S A := λ s, (Raise, s).
Definition bind {S A B} (m : M S A) (k : A → M S B) : M S B :=
  λ s, match m s with
       | (Ok a, s') => k a s'
       | (Raise, s') => (Raise, s')
       end.
Definition get {S} : M S S := λ s, (Ok s, s).
Definition gets {S A} (f : S → A) : M S A := λ s, (Ok (f s), s).
Definition modify {S} (f : S → S) : M S unit := λ s, (Ok tt, f s).
Definition lift_result {S A} (r : result A) : M S A := λ s, (r, s).

(** [try: body  except Exception: handler] *)
Definition try_except {S A} (body handler : M S A) : M S A :=
  λ s, match body s with
       | (Ok a, s') => (Ok a, s')
       | (Raise, s') => handler s'
       end.

(** [try: body  finally: cleanup] -- the cleanup runs on both exits and the
    exception, if any, continues to propagate afterwards. *)
Definition try_finally {S A} (body : M S A) (cleanup : M S unit) : M S A :=
  λ s, match body s with
       | (Ok a, s') =>
           match cleanup s' with
           | (Ok _, s'') => (Ok a, s'')
           | (Raise, s'') => (Raise, s'')
           end
       | (Raise, s') => (Raise, (cleanup s').2)
       end.

(** Sequencing reads as in the sources: [x <- m ;; k] binds the value [m]
    returns, [m ;; k] (stdpp's notation, through the instance below) drops it. *)
Global Instance M_ret {S} : MRet (M S) := λ A a, ret a.
Global Instance M_bind {S} : MBind (M S) := λ A B k m, bind m k.

Notation "x <- m ;; k" := (bind m (λ x, k))
  (at level 100, m at next level, right associativity, only parsing).

(** [for x in xs: body x] *)
Fixpoint for_each {S A} (xs : list A) (body : A → M S unit) : M S unit :=
  match xs with
  | [] => ret tt
  | x :: xs' => body x ;; for_each xs' body
  end.

(** Python's [if c: body] with no [else]. *)
Definition when {S} (c : bool) (body : M S unit) : M S unit :=
  if c then body else ret tt.

(** ** Python list helpers *)

(** [value in array] *)
Definition py_in (value : string) (array : list string) : bool :=
  bool_decide (value ∈ array).

(** [array[i]] for an integer [i]: negative indices count from the end, and an
    index out of range raises [IndexError]. *)
Definition py_getitem {A} (array : list A) (i : Z) : result A :=
  let j := if i <? 0 then i + Z.of_nat (length array) else i in
  if j <? 0 then Raise
  else match array !! Z.to_nat j with
       | Some a => Ok a
       | None => Raise
       end.

(** [array[i] = v] *)
Definition py_setitem {A} (array : list A) (i : Z) (v : A) : result (list A) :=
  let j := if i <? 0 then i + Z.of_nat (length array) else i in
  if j <? 0 then Raise
  else if bool_decide (Z.to_nat j < length array)%nat then Ok (<[Z.to_nat j := v]> array)
  else Raise.

(* ===================================================================== *)
(** * Sub-component identity ([hashedSubComponent])                       *)
(* ===================================================================== *)

(** [v = "@." if view is not None and view == "" else view] *)
Definition sentinel_if_empty (x : option string) : option string :=
  match x with
  | Some s => if bool_decide (s = "") then Some "@." else Some s
  | None => None
  end.

(** [hashedSubComponent(media, view=None, layer=None)] *)
Definition hashedSubComponent
    (media : string) (view layer : option string) : string :=
  let v := sentinel_if_empty view in
  let l := sentinel_if_empty layer in
  match v, l with
  | None, None => media +:+ "!~!~"
  | None, Some l => media +:+ "!~" +:+ l +:+ "!~"
  | Some v, None => media +:+ "!~!~" +:+ v
  | Some v, Some l => media +:+ "!~" +:+ l +:+ "!~" +:+ v
  end.

(** Two optional names are in different "None versus empty string" states
    when one is [None] and the other is the empty string. *)
Definition none_vs_empty (a b : option string) : Prop :=
  (a = None ∧ b = Some "") ∨ (a = Some "" ∧ b = None).

(** A component either agrees on both sides or differs in exactly that way. *)
Definition agree_up_to_none_vs_empty (a b : option string) : Prop :=
  a = b ∨ none_vs_empty a b.

(* ===================================================================== *)
(** * The world: host application state and session manager state        *)
(* ===================================================================== *)

(** A graph node as the host keeps it: a type tag and an ordered input
    list.  A name is a node exactly when the map has it. *)
Record NodeRec : Type := mkNode {
  ntype : string;
  ninputs : list string;
}.

(** A property value: the host's properties are typed arrays. *)
Inductive PropVal : Type :=
  | PString (vs : list string)
  | PInt (vs : list Z).

(** The host calls whose order and arguments the claims speak about. *)
Inductive Call : Type :=
  | CTestNodeInputs (node : string) (inputs : list string)
  | CAlertPanel (title msg : string)
  | CSetNodeInputs (node : string) (inputs : list string)
  | CDeleteNode (node : string)
  | CSetUIName (node text : string).

(** [Qt.DropAction] *)
Inductive DropAction : Type :=
  | IgnoreAction | CopyAction | MoveAction | LinkAction.

Global Instance DropAction_eq_dec : EqDecision DropAction.
Proof. solve_decision. Defined.

Global Instance Call_eq_dec : EqDecision Call.
Proof. solve_decision. Defined.

(** A [QStandardItem] of the tree: its text, its column, the values stored
    under the user roles, and the item it hangs under ([item.parent()]). *)
Inductive Item : Type := mkItem {
  item_text : string;
  item_column : Z;
  USER_ROLE_PARENT_NODE : option string;
  USER_ROLE_NODE : option string;
  USER_ROLE_SUBCOMPONENT_TYPE : option Z;
  USER_ROLE_SUBCOMPONENT_VALUE : option string;
  USER_ROLE_HASH : option string;
  USER_ROLE_MEDIA : option string;
  item_parent : option Item;
}.

(** [item.setData(value, USER_ROLE_PARENT_NODE)] *)
Definition setData_PARENT_NODE (value : option string) (item : Item) : Item :=
  mkItem (item_text item) (item_column item) value (USER_ROLE_NODE item)
         (USER_ROLE_SUBCOMPONENT_TYPE item) (USER_ROLE_SUBCOMPONENT_VALUE item)
         (USER_ROLE_HASH item) (USER_ROLE_MEDIA item) (item_parent item).

(** [EditNodePair] ([transform_manip.py]): a transform node and its input. *)
Record EditNodePair : Type := mkEditNodePair {
  tformNode : string;
  inputNode : string;
}.

Record World : Type := mkWorld {
  (* the host application: graph, group membership, properties, display
     names, view node, the media it can open, and what its evaluation
     reports as the active [RVTransform2D] nodes (or that it raises) *)
  nodes : gmap string NodeRec;
  groupOf : gmap string string;
  props : gmap string PropVal;
  uiNames : gmap string string;
  currentView : option string;
  media : gset string;
  transformInfos : result (list string);
  (* the host calls made so far *)
  calls : list Call;
  (* [SessionManagerMode] *)
  _disableUpdates : bool;
  _inputOrderLock : bool;
  _progressiveLoadingInProgress : bool;
  _inputsModel : list Item;
  (* [NodeTreeView] *)
  _dropAction : DropAction;
  _draggedNodePaths : list (list string);
  _sortFolders : list string;
  (* [TransformManip] *)
  _editNodes : list EditNodePair;
}.

Definition set_nodes (f : gmap string NodeRec → gmap string NodeRec) (w : World) : World :=
  mkWorld (f (nodes w)) (groupOf w) (props w) (uiNames w)
          (currentView w) (media w) (transformInfos w) (calls w)
          (_disableUpdates w) (_inputOrderLock w) (_progressiveLoadingInProgress w) (_inputsModel w)
          (_dropAction w) (_draggedNodePaths w) (_sortFolders w) (_editNodes w).
Definition set_groupOf (f : gmap string string → gmap string string) (w : World) : World :=
  mkWorld (nodes w) (f (groupOf w)) (props w) (uiNames w)
          (currentView w) (media w) (transformInfos w) (calls w)
          (_disableUpdates w) (_inputOrderLock w) (_progressiveLoadingInProgress w) (_inputsModel w)
          (_dropAction w) (_draggedNodePaths w) (_sortFolders w) (_editNodes w).
Definition set_props (f : gmap string PropVal → gmap string PropVal) (w : World) : World :=
  mkWorld (nodes w) (groupOf w) (f (props w)) (uiNames w)
          (currentView w) (media w) (transformInfos w) (calls w)
          (_disableUpdates w) (_inputOrderLock w) (_progressiveLoadingInProgress w) (_inputsModel w)
          (_dropAction w) (_draggedNodePaths w) (_sortFolders w) (_editNodes w).
Definition set_uiNames (f : gmap string string → gmap string string) (w : World) : World :=
  mkWorld (nodes w) (groupOf w) (props w) (f (uiNames w))
          (currentView w) (media w) (transformInfos w) (calls w)
          (_disableUpdates w) (_inputOrderLock w) (_progressiveLoadingInProgress w) (_inputsModel w)
          (_dropAction w) (_draggedNodePaths w) (_sortFolders w) (_editNodes w).
Definition set_currentView (v : option string) (w : World) : World :=
  mkWorld (nodes w) (groupOf w) (props w) (uiNames w)
          v (media w) (transformInfos w) (calls w)
          (_disableUpdates w) (_inputOrderLock w) (_progressiveLoadingInProgress w) (_inputsModel w)
          (_dropAction w) (_draggedNodePaths w) (_sortFolders w) (_editNodes w).
Definition set_calls (f : list Call → list Call) (w : World) : World :=
  mkWorld (nodes w) (groupOf w) (props w) (uiNames w)
          (currentView w) (media w) (transformInfos w) (f (calls w))
          (_disableUpdates w) (_inputOrderLock w) (_progressiveLoadingInProgress w) (_inputsModel w)
          (_dropAction w) (_draggedNodePaths w) (_sortFolders w) (_editNodes w).
Definition log_call (c : Call) : World → World := set_calls (λ cs, cs ++ [c]).
Definition set_disableUpdates (v : bool) (w : World) : World :=
  mkWorld (nodes w) (groupOf w) (props w) (uiNames w)
          (currentView w) (media w) (transformInfos w) (calls w)
          v (_inputOrderLock w) (_progressiveLoadingInProgress w) (_inputsModel w)
          (_dropAction w) (_draggedNodePaths w) (_sortFolders w) (_editNodes w).
Definition set_inputOrderLock (v : bool) (w : World) : World :=
  mkWorld (nodes w) (groupOf w) (props w) (uiNames w)
          (currentView w) (media w) (transformInfos w) (calls w)
          (_disableUpdates w) v (_progressiveLoadingInProgress w) (_inputsModel w)
          (_dropAction w) (_draggedNodePaths w) (_sortFolders w) (_editNodes w).
Definition set_inputsModel (v : list Item) (w : World) : World :=
  mkWorld (nodes w) (groupOf w) (props w) (uiNames w)
          (currentView w) (media w) (transformInfos w) (calls w)
          (_disableUpdates w) (_inputOrderLock w) (_progressiveLoadingInProgress w) v
          (_dropAction w) (_draggedNodePaths w) (_sortFolders w) (_editNodes w).
Definition set_dropAction (v : DropAction) (w : World) : World :=
  mkWorld (nodes w) (groupOf w) (props w) (uiNames w)
          (currentView w) (media w) (transformInfos w) (calls w)
          (_disableUpdates w) (_inputOrderLock w) (_progressiveLoadingInProgress w) (_inputsModel w)
          v (_draggedNodePaths w) (_sortFolders w) (_editNodes w).
Definition set_draggedNodePaths (v : list (list string)) (w : World) : World :=
  mkWorld (nodes w) (groupOf w) (props w) (uiNames w)
          (currentView w) (media w) (transformInfos w) (calls w)
          (_disableUpdates w) (_inputOrderLock w) (_progressiveLoadingInProgress w) (_inputsModel w)
          (_dropAction w) v (_sortFolders w) (_editNodes w).
Definition set_sortFolders (v : list string) (w : World) : World :=
  mkWorld (nodes w) (groupOf w) (props w) (uiNames w)
          (currentView w) (media w) (transformInfos w) (calls w)
          (_disableUpdates w) (_inputOrderLock w) (_progressiveLoadingInProgress w) (_inputsModel w)
          (_dropAction w) (_draggedNodePaths w) v (_editNodes w).
Definition set_editNodes (v : list EditNodePair) (w : World) : World :=
  mkWorld (nodes w) (groupOf w) (props w) (uiNames w)
          (currentView w) (media w) (transformInfos w) (calls w)
          (_disableUpdates w) (_inputOrderLock w) (_progressiveLoadingInProgress w) (_inputsModel w)
          (_dropAction w) (_draggedNodePaths w) (_sortFolders w) v.

(** The input list of a node ([[]] for a name that is no node): what the
    theorems read off a world. *)
Definition inputs_of (w : World) (n : string) : list string :=
  match nodes w !! n with
  | Some r => ninputs r
  | None => []
  end.

Definition node_exists (w : World) (n : string) : Prop := is_Some (nodes w !! n).

(** The host's answer to "would this connection be allowed": outside these
    sources, so an interface.  It sees the graph, the node and the proposed
    inputs, and returns no message (allowed), a message (refused), or raises. *)
Class HostPolicy : Type :=
  testNodeInputs_policy :
    gmap string NodeRec → string → list string → result (option string).

(* ===================================================================== *)
(** * The graph facade ([rv.commands], [rv.extra_commands])               *)
(* ===================================================================== *)

Module Facade.

(** Modelled from the spec: [nodeExists(id) -> bool] of the Graph Facade
    (section 6); the host's [rv.commands] is not among the sources. *)
Definition nodeExists (n : string) : M World bool :=
  gets (λ w, bool_decide (is_Some (nodes w !! n))).

(** Modelled from the spec: [nodeType(id) -> tag]; asking for the type of a
    name that is no node raises. *)
Definition nodeType (n : string) : M World string :=
  w <- get ;;
  match nodes w !! n with
  | Some r => ret (ntype r)
  | None => raise
  end.

(** Modelled from the spec: the outputs half of [connections(id)], the nodes
    that list [n] among their inputs. *)
Definition outputs_in (g : gmap string NodeRec) (n : string) : list string :=
  (filter (λ kv, n ∈ ninputs kv.2) (map_to_list g)).*1.

(** Modelled from the spec: [connections(id) -> (inputs, outputs)], both
    ordered lists of identifiers; it raises for a name that is no node. *)
Definition nodeConnections (n : string) : M World (list string * list string) :=
  w <- get ;;
  match nodes w !! n with
  | Some r => ret (ninputs r, outputs_in (nodes w) n)
  | None => raise
  end.

(** Modelled from the spec: the "would this connection be allowed"
    pre-check of [setInputs(id, orderedIds) -> (ok, rejectionMessage?)]. *)
Definition testNodeInputs `{HostPolicy} (node : string) (inputs : list string)
    : M World (option string) :=
  modify (log_call (CTestNodeInputs node inputs));;
  w <- get ;;
  lift_result (testNodeInputs_policy (nodes w) node inputs).

(** Modelled from the spec: the commit half of [setInputs(id, orderedIds)]:
    the node's input list becomes exactly [inputs]. *)
Definition setNodeInputs (node : string) (inputs : list string) : M World unit :=
  modify (log_call (CSetNodeInputs node inputs));;
  w <- get ;;
  match nodes w !! node with
  | Some r => modify (set_nodes (<[node := mkNode (ntype r) inputs]>))
  | None => raise
  end.

(** Modelled from the spec: [deleteNode(id)]; the node leaves the graph and
    every input list that named it. *)
Definition deleteNode (n : string) : M World unit :=
  modify (log_call (CDeleteNode n));;
  w <- get ;;
  match nodes w !! n with
  | Some _ =>
      modify (set_nodes (λ g,
        (λ r, mkNode (ntype r) (filter (λ x, x ≠ n) (ninputs r))) <$> delete n g))
  | None => raise
  end.

(** Modelled from the spec: the blocking user-facing alert. *)
Definition alertPanel (title msg : string) : M World unit :=
  modify (log_call (CAlertPanel title msg)).

(** Modelled from the spec: [setDisplayName(id, text)]. *)
Definition setUIName (node text : string) : M World unit :=
  modify (log_call (CSetUIName node text));;
  w <- get ;;
  match nodes w !! node with
  | Some _ => modify (set_uiNames (<[node := text]>))
  | None => raise
  end.

(** Modelled from the spec: [currentViewNode() -> id?]. *)
Definition viewNode : M World (option string) := gets currentView.

(** Modelled from the spec: [setViewNode(id)]; it raises for a name that is
    no node. *)
Definition setViewNode (n : string) : M World unit :=
  w <- get ;;
  match nodes w !! n with
  | Some _ => modify (set_currentView (Some n))
  | None => raise
  end.

(** Modelled from the spec: [getProperty/setProperty(path, kind, values,
    createIfMissing)] over dotted path strings.  Reading a property that is
    missing or of another kind raises; writing with [createIfMissing] creates
    a missing property and raises on a property of another kind. *)

(** Modelled from the spec: whether a property of that path exists. *)
Definition propertyExists (name : string) : M World bool :=
  gets (λ w, bool_decide (is_Some (props w !! name))).

(** Modelled from the spec: [getProperty(path, kind)] for the string kind. *)
Definition getStringProperty (name : string) : M World (list string) :=
  w <- get ;;
  match props w !! name with
  | Some (PString vs) => ret vs
  | _ => raise
  end.

(** Modelled from the spec: [getProperty(path, kind)] for the integer kind. *)
Definition getIntProperty (name : string) : M World (list Z) :=
  w <- get ;;
  match props w !! name with
  | Some (PInt vs) => ret vs
  | _ => raise
  end.

(** Modelled from the spec: [setProperty(path, kind, values,
    createIfMissing)] for the string kind. *)
Definition setStringProperty (name : string) (vs : list string) (createIfMissing : bool)
    : M World unit :=
  w <- get ;;
  match props w !! name with
  | Some (PString _) => modify (set_props (<[name := PString vs]>))
  | Some _ => raise
  | None => if createIfMissing then modify (set_props (<[name := PString vs]>))
            else raise
  end.

(** Modelled from the spec: [setProperty(path, kind, values,
    createIfMissing)] for the integer kind. *)
Definition setIntProperty (name : string) (vs : list Z) (createIfMissing : bool)
    : M World unit :=
  w <- get ;;
  match props w !! name with
  | Some (PInt _) => modify (set_props (<[name := PInt vs]>))
  | Some _ => raise
  | None => if createIfMissing then modify (set_props (<[name := PInt vs]>))
            else raise
  end.

(** Modelled from the spec: the set of all node identifiers the host knows. *)
Definition nodes_ : M World (list string) :=
  gets (λ w, (map_to_list (nodes w)).*1).

(** Modelled from the spec: [displayName(id)]; the name itself when no
    display name was set, a raise for a name that is no node. *)
Definition uiName (node : string) : M World string :=
  w <- get ;;
  match nodes w !! node with
  | Some _ => ret (default node (uiNames w !! node))
  | None => raise
  end.

(** Modelled from the spec: the group a node is a member of ([""] for a
    top-level node); a raise for a name that is no node. *)
Definition nodeGroup (node : string) : M World string :=
  w <- get ;;
  match nodes w !! node with
  | Some _ => ret (default "" (groupOf w !! node))
  | None => raise
  end.

(** Modelled from the spec: [createNode(type, nameHint) -> id]; the host
    picks a name that is free, the hint itself when it is. *)
Definition newNode (type nameHint : string) : M World string :=
  w <- get ;;
  let n := fresh_string nameHint (nodes w) in
  modify (set_nodes (<[n := mkNode type []]>));;
  ret n.

(** Modelled from the spec: materialisation "creates a new source node via
    the Graph Facade": a source group with its source inside, the source's
    name being what the call returns.  The host raises when it cannot open
    one of the files. *)
Definition addSourceVerbose (files : list string) : M World string :=
  w <- get ;;
  if forallb (λ f, bool_decide (f ∈ media w)) files then
    let group := fresh_string "sourceGroup000000" (nodes w) in
    let source := group +:+ "_source" in
    modify (set_nodes (λ g, <[source := mkNode "RVFileSource" []]>
                              (<[group := mkNode "RVSourceGroup" []]> g)));;
    modify (set_groupOf (<[source := group]>));;
    ret source
  else raise.

(** Modelled from the spec: a transient on-screen note; it changes nothing
    the sources read back. *)
Definition displayFeedback (msg : string) : M World unit := ret tt.

(** Modelled from the spec: creating a string property; it raises when the
    path is taken. *)
Definition newProperty (name : string) : M World unit :=
  w <- get ;;
  match props w !! name with
  | Some _ => raise
  | None => modify (set_props (<[name := PString []]>))
  end.

(** Modelled from the spec: deleting a property; it raises when there is
    none. *)
Definition deleteProperty (name : string) : M World unit :=
  w <- get ;;
  match props w !! name with
  | Some _ => modify (set_props (delete name))
  | None => raise
  end.

(** Modelled from the spec: the host's evaluation of the current frame,
    reporting the nodes of type [typeName] closest to the view node; only
    ["RVTransform2D"] is ever asked for. *)
Definition metaEvaluateClosestByType (typeName : string) : M World (list string) :=
  w <- get ;;
  lift_result (transformInfos w).

End Facade.

(* ===================================================================== *)
(** * [session_manager.py]: module level helpers                          *)
(* ===================================================================== *)

Import Facade.

(** Sub-component type constants ([session_manager_utils.py]). *)
Definition NotASubComponent : Z := 0.
Definition MediaSubComponent : Z := 1.
Definition ViewSubComponent : Z := 2.
Definition LayerSubComponent : Z := 3.
Definition ChannelSubComponent : Z := 4.

Definition INT_MAX : Z := 2147483647.

(** [itemSubComponentStringData(item, role)]: [""] for no item and for no
    data, else the stored string. *)
Definition itemSubComponentStringData
    (item : option Item) (role : Item → option string) : string :=
  match item with
  | None => ""
  | Some it => match role it with
               | None => ""
               | Some d => d
               end
  end.

Definition itemNode (item : option Item) : string :=
  itemSubComponentStringData item USER_ROLE_NODE.
Definition itemSubComponentMedia (item : option Item) : string :=
  itemSubComponentStringData item USER_ROLE_MEDIA.
Definition itemSubComponentHash (item : option Item) : string :=
  itemSubComponentStringData item USER_ROLE_HASH.
Definition itemSubComponentValue (item : option Item) : string :=
  itemSubComponentStringData item USER_ROLE_SUBCOMPONENT_VALUE.
Definition itemParentNode (item : option Item) : string :=
  itemSubComponentStringData item USER_ROLE_PARENT_NODE.

Definition itemSubComponentType (item : option Item) : Z :=
  match item with
  | None => NotASubComponent
  | Some it => match USER_ROLE_SUBCOMPONENT_TYPE it with
               | None => NotASubComponent
               | Some d => d
               end
  end.

Definition itemIsSubComponent (item : option Item) : bool :=
  match item with
  | None => false
  | Some it => match USER_ROLE_SUBCOMPONENT_TYPE it with
               | None => false
               | Some d => negb (d =? 0)
               end
  end.

(** [contains(array, value)] *)
Definition contains (array : list string) (value : string) : bool :=
  py_in value array.

(** [indexOf(array, value)]: the first index of [value], [-1] if absent. *)
Definition indexOf (array : list string) (value : string) : Z :=
  match list_find (λ a, a = value) array with
  | Some (i, _) => Z.of_nat i
  | None => -1
  end.

(** [remove(array, value)]: [[a for a in array if a != value]] *)
Definition remove (array : list string) (value : string) : list string :=
  filter (λ a, a ≠ value) array.

(** [hashedSubComponentFromItem(item)] *)
Definition hashedSubComponentFromItem (item : Item) : string :=
  let value := itemSubComponentValue (Some item) in
  let subType := itemSubComponentType (Some item) in
  let parent := item_parent item in
  let pvalue := match parent with
                | Some _ => itemSubComponentValue parent
                | None => ""
                end in
  if subType =? MediaSubComponent then
    hashedSubComponent value None None
  else if subType =? LayerSubComponent then
    let grandParent := match parent with
                       | Some p => item_parent p
                       | None => None
                       end in
    let psubType := match parent with
                    | Some _ => itemSubComponentType parent
                    | None => NotASubComponent
                    end in
    if psubType =? ViewSubComponent then
      let arg0 := match grandParent with
                  | Some _ => itemSubComponentValue grandParent
                  | None => ""
                  end in
      hashedSubComponent arg0 (Some pvalue) (Some value)
    else
      hashedSubComponent pvalue None (Some value)
  else if subType =? ViewSubComponent then
    hashedSubComponent pvalue (Some value) None
  else "".

(** ** Expansion state *)

(** [isExpandedInParent(node, parent)] *)
Definition isExpandedInParent (node parent : string) : M World bool :=
  let propName := node +:+ ".sm_state.expandState" in
  e <- propertyExists propName ;;
  if e then
    try_except
      (p <- getStringProperty propName ;;
       ret (py_in parent p))
      (ret false)
  else ret false.

(** [setExpandedInParent(node, parent, expanded)] *)
Definition setExpandedInParent (node parent : string) (expanded : bool) : M World unit :=
  let propName := node +:+ ".sm_state.expandState" in
  try_except
    (e <- propertyExists propName ;;
     if e then
       p <- getStringProperty propName ;;
       let hasNode := py_in parent p in
       if hasNode && negb expanded then
         setStringProperty propName (remove p parent) true
       else if negb hasNode && expanded then
         setStringProperty propName (p ++ [parent]) true
       else ret tt
     else
       setStringProperty propName [parent] true)
    (ret tt).

(** [isSubComponentExpanded(node, item)] *)
Definition isSubComponentExpanded (node : string) (item : Item) : M World bool :=
  let propName := node +:+ ".sm_state.expandedSubState" in
  let key := hashedSubComponentFromItem item in
  e <- propertyExists propName ;;
  if e then
    try_except
      (p <- getStringProperty propName ;;
       ret (py_in key p))
      (ret false)
  else ret false.

(** [setSubComponentExpanded(node, item, expanded)] *)
Definition setSubComponentExpanded (node : string) (item : Item) (expanded : bool)
    : M World unit :=
  let propName := node +:+ ".sm_state.expandedSubState" in
  let key := hashedSubComponentFromItem item in
  try_except
    (e <- propertyExists propName ;;
     if e then
       p <- getStringProperty propName ;;
       let hasit := py_in key p in
       if hasit && negb expanded then
         setStringProperty propName (remove p key) true
       else if negb hasit && expanded then
         setStringProperty propName (p ++ [key]) true
       else ret tt
     else
       setStringProperty propName [key] true)
    (ret tt).

(** ** Sort keys *)

(** [undefinedKey = 2147483547  # int.max - 100] *)
Definition undefinedKey : Z := 2147483547.

(** [sortKeyInParent(node, parent)] *)
Definition sortKeyInParent (node parent : string) : M World Z :=
  let propNameParent := node +:+ ".sm_state.sortKeyParent" in
  let propNameKey := node +:+ ".sm_state.sortKey" in
  e1 <- propertyExists propNameParent ;;
  e2 <- (if e1 then propertyExists propNameKey else ret false) ;;
  if e2 then
    try_except
      (p <- getStringProperty propNameParent ;;
       keys <- getIntProperty propNameKey ;;
       let i := indexOf p parent in
       if (i =? -1) || negb (bool_decide (length keys = length p)) then
         ret undefinedKey
       else lift_result (py_getitem keys i))
      (ret undefinedKey)
  else ret undefinedKey.

(** [setSortKeyInParent(node, parent, value)] *)
Definition setSortKeyInParent (node parent : string) (value : Z) : M World unit :=
  let propNameParent := node +:+ ".sm_state.sortKeyParent" in
  let propNameKey := node +:+ ".sm_state.sortKey" in
  let reset : M World unit :=
    setStringProperty propNameParent [parent] true;;
    setIntProperty propNameKey [value] true in
  try_except
    (e1 <- propertyExists propNameParent ;;
     e2 <- (if e1 then propertyExists propNameKey else ret false) ;;
     if e2 then
       p <- getStringProperty propNameParent ;;
       keys <- getIntProperty propNameKey ;;
       let i := indexOf p parent in
       if bool_decide (length p = length keys) then
         if i =? -1 then
           setStringProperty propNameParent (p ++ [parent]) true;;
           setIntProperty propNameKey (keys ++ [value]) true
         else
           keys' <- lift_result (py_setitem keys i value) ;;
           setIntProperty propNameKey keys' true
       else reset
     else reset)
    (ret tt).

(** ** Input lists *)

(** [nodeInputs(node)] *)
Definition nodeInputs (node : string) : M World (list string) :=
  try_except
    (c <- nodeConnections node ;;
     ret c.1)
    (ret []).

(** [setInputs(node, inputs)]: "Set node inputs with validation." *)
Definition setInputs `{HostPolicy} (node : string) (inputs : list string) : M World bool :=
  try_except
    (msg <- testNodeInputs node inputs ;;
     match msg with
     | Some m => alertPanel "Some inputs are not allowed here" m
     | None => setNodeInputs node inputs
     end;;
     ret (bool_decide (msg = None)))
    (ret false).

(** [removeInput(node, inputNode)] *)
Definition removeInput `{HostPolicy} (node inputNode : string) : M World bool :=
  if bool_decide (node ≠ "") then
    try_except
      (c <- nodeConnections node ;;
       let ins := c.1 in
       let newInputs := filter (λ n, n ≠ inputNode) ins in
       setInputs node newInputs)
      (ret true)
  else ret true.

(** [hasInput(node, inputNode)]; [node] may be [None]. *)
Definition hasInput (node : option string) (inputNode : string) : M World bool :=
  match node with
  | None => ret true
  | Some node =>
      if bool_decide (node = "") then ret true
      else
        try_except
          (c <- nodeConnections node ;;
           ret (py_in inputNode c.1))
          (ret false)
  end.

(** [addInput(node, inputNode)] *)
Definition addInput `{HostPolicy} (node inputNode : string) : M World bool :=
  e <- nodeExists node ;;
  if e then
    try_except
      (c <- nodeConnections node ;;
       let ins := c.1 ++ [inputNode] in
       setInputs node ins)
      (ret true)
  else ret true.

(* ===================================================================== *)
(** * [NodeTreeView] and [InputsView]                                     *)
(* ===================================================================== *)

(** [NodeTreeView.sortFolderChildren(folder)]: queue the folder for the
    zero-delay re-sort. *)
Definition sortFolderChildren (folder : string) : M World unit :=
  try_except
    (t <- nodeType folder ;;
     if bool_decide (t = "RVFolderGroup") then
       w <- get ;;
       when (negb (py_in folder (_sortFolders w)))
            (modify (set_sortFolders (_sortFolders w ++ [folder])))
     else ret tt)
    (ret tt).

(** [NodeTreeView.filteredDraggedPaths(F)] *)
Definition filteredDraggedPaths (F : list string → bool) : M World (list (list string)) :=
  gets (λ w, filter (λ path, F path = true) (_draggedNodePaths w)).

(** [NodeTreeView.dropEvent]: the action is published for the duration of the
    toolkit's own drop handling ([handling]), which is when the model emits
    its item-changed notifications, and withdrawn afterwards. *)
Definition NodeTreeView_dropEvent (action : DropAction) (handling : M World unit)
    : M World unit :=
  modify (set_dropAction action);;
  handling;;
  modify (set_dropAction IgnoreAction).

(** [InputsView.dropEvent]: which action the event carries into the list
    view's own drop handling. *)
Definition InputsView_dropEvent (sourceIsTreeView : bool) (action : DropAction)
    : DropAction :=
  if sourceIsTreeView then CopyAction else action.

(* ===================================================================== *)
(** * [SessionManagerMode]                                                *)
(* ===================================================================== *)

(** [commands.nodeExists(parent)] where [parent] may be [None]: no node has
    that name. *)
Definition nodeExists_opt (n : option string) : M World bool :=
  match n with
  | Some n => nodeExists n
  | None => ret false
  end.

(** Python truthiness of an optional string: [None] and [""] are false. *)
Definition truthy (n : option string) : bool :=
  match n with
  | Some s => bool_decide (s ≠ "")
  | None => false
  end.

(** [commands.nodeExists(parent) and commands.nodeType(parent) == "RVFolderGroup"] *)
Definition existsAndIsFolder (parent : option string) : M World bool :=
  match parent with
  | Some p =>
      e <- nodeExists p ;;
      if e then
        t <- nodeType p ;;
        ret (bool_decide (t = "RVFolderGroup"))
      else ret false
  | None => ret false
  end.

(** [addInput(parent, node)] and [sortFolderChildren(parent)] as the handler
    below calls them, with a [parent] that may be [None]; both are reached
    only behind a test that [parent] names a node. *)
Definition addInput_opt `{HostPolicy} (node : option string) (inputNode : string)
    : M World bool :=
  match node with
  | Some n => addInput n inputNode
  | None => ret true
  end.

Definition sortFolderChildren_opt (folder : option string) : M World unit :=
  match folder with
  | Some f => sortFolderChildren f
  | None => ret tt
  end.

(** The loop of the move branch: one dragged path. *)
Definition detachFromFormerParent `{HostPolicy}
    (parent : option string) (path : list string) : M World unit :=
  match path with
  | n :: p :: _ =>
      ep <- nodeExists p ;;
      if ep then
        eparent <- nodeExists_opt parent ;;
        if negb eparent || bool_decide (Some p ≠ parent) then
          removeInput p n;; ret tt
        else ret tt
      else ret tt
  | _ => ret tt
  end.

(** [SessionManagerMode.viewItemChanged(item)].  The item is returned as the
    handler leaves it (its [USER_ROLE_PARENT_NODE] may have been rewritten). *)
Definition viewItemChanged `{HostPolicy} (item : Item) : M World Item :=
  let node := itemNode (Some item) in
  let subType := itemSubComponentType (Some item) in
  let parentItem := item_parent item in
  let parent := match parentItem with
                | Some _ => Some (itemNode parentItem)
                | None => None
                end in
  nodePaths <- filteredDraggedPaths
                 (λ p, match p with
                       | [] => false
                       | p0 :: _ => bool_decide (p0 = node)
                       end) ;;
  w <- get ;;
  if bool_decide (_dropAction w = CopyAction) then
    h <- hasInput parent node ;;
    if negb h then
      addInput_opt parent node;;
      let item' := setData_PARENT_NODE parent item in
      f <- (if truthy parent then existsAndIsFolder parent else ret false) ;;
      when f (sortFolderChildren_opt parent);;
      ret item'
    else ret item
  else if bool_decide (_dropAction w = MoveAction)
          && negb (bool_decide (nodePaths = [])) then
    parentExists <- (if truthy parent then nodeExists_opt parent else ret false) ;;
    when parentExists
      (h <- hasInput parent node ;;
       when (negb h) (addInput_opt parent node;; ret tt));;
    let item' :=
      setData_PARENT_NODE (if parentExists then parent else Some "") item in
    for_each nodePaths (detachFromFormerParent parent);;
    f <- existsAndIsFolder parent ;;
    when f (sortFolderChildren_opt parent);;
    ret item'
  else if bool_decide (node ≠ "") && (subType =? NotASubComponent) then
    modify (set_disableUpdates true);;
    try_except (setUIName node (item_text item)) (ret tt);;
    modify (set_disableUpdates false);;
    ret item
  else ret item.

(** [sum(1 for o in outs if commands.nodeType(o) == "RVFolderGroup")] *)
Fixpoint count_folders (outs : list string) : M World Z :=
  match outs with
  | [] => ret 0
  | o :: outs' =>
      t <- nodeType o ;;
      n <- count_folders outs' ;;
      ret ((if bool_decide (t = "RVFolderGroup") then 1 else 0) + n)
  end.

(** The body of the loop of [deleteViewableSlot]: one selected item. *)
Definition deleteViewable_item `{HostPolicy} (item : Item) : M World unit :=
  let node := itemNode (Some item) in
  let parent := itemParentNode (Some item) in
  try_except
    (c <- nodeConnections node ;;
     let outs := c.2 in
     pe <- nodeExists parent ;;
     parentType <- (if pe then nodeType parent else ret "") ;;
     nfolders <- count_folders outs ;;
     if bool_decide (parentType = "RVFolderGroup") && (1 <? nfolders) then
       removeInput parent node;; ret tt
     else
       modify (set_disableUpdates true);;
       try_except (deleteNode node) (ret tt);;
       modify (set_disableUpdates false))
    (ret tt).

(** [SessionManagerMode.deleteViewableSlot]: the selected items, one after
    the other (the deferred tree rebuild it schedules is not part of it). *)
Definition deleteViewableSlot `{HostPolicy} (items : list Item) : M World unit :=
  for_each items deleteViewable_item.

(** ** Sub-component materialisation *)

(** [subComponentPropValue(item)] *)
Fixpoint subComponentPropValue (item : Item) : list string :=
  let t := itemSubComponentType (Some item) in
  if t =? MediaSubComponent then []
  else if t =? ViewSubComponent then
    ["view"; itemSubComponentValue (Some item)]
  else if t =? LayerSubComponent then
    let parent := item_parent item in
    let view_val :=
      match parent with
      | Some _ => if itemSubComponentType parent =? ViewSubComponent
                  then itemSubComponentValue parent else ""
      | None => ""
      end in
    ["layer"; view_val; itemSubComponentValue (Some item)]
  else if t =? ChannelSubComponent then
    let pvalue := match item_parent item with
                  | Some p => subComponentPropValue p
                  | None => []
                  end in
    let value := itemSubComponentValue (Some item) in
    match pvalue with
    | [] => ["channel"; ""; ""; value]
    | [_; p1] => ["channel"; p1; ""; value]
    | [_; p1; p2] => ["channel"; p1; p2; value]
    | _ => []
    end
  else [].

(** [setNodeRequest(node, value)] *)
Definition setNodeRequest (node : string) (value : list string) : M World unit :=
  setStringProperty (node +:+ ".request.imageComponent") value true.

(** One round of the loop of [componentAndFolderNodeFromHash]. *)
Definition componentAndFolder_step (hash_val node : string)
    (acc : option string * option string) (n : string)
    : M World (option string * option string) :=
  let '(cnode, folder) := acc in
  try_except
    (ntype <- nodeType n ;;
     if bool_decide (ntype = "RVSourceGroup") && bool_decide (cnode = None) then
       let propName := n +:+ ".sm_state.componentHash" in
       e <- propertyExists propName ;;
       if e then
         p <- getStringProperty propName ;;
         pn <- getStringProperty (n +:+ ".sm_state.componentOfNode") ;;
         if bool_decide (head p = Some hash_val) && bool_decide (head pn = Some node)
         then ret (Some n, folder)
         else ret (cnode, folder)
       else ret (cnode, folder)
     else if bool_decide (ntype = "RVFolderGroup") then
       let pname := n +:+ ".sm_state.componentFolderOfNode" in
       e <- propertyExists pname ;;
       if e then
         p <- getStringProperty pname ;;
         if bool_decide (head p = Some node) then ret (cnode, Some n)
         else ret (cnode, folder)
       else ret (cnode, folder)
     else ret (cnode, folder))
    (ret (cnode, folder)).

Fixpoint componentAndFolder_loop (hash_val node : string) (ns : list string)
    (acc : option string * option string) : M World (option string * option string) :=
  match ns with
  | [] => ret acc
  | n :: ns' =>
      acc' <- componentAndFolder_step hash_val node acc n ;;
      componentAndFolder_loop hash_val node ns' acc'
  end.

(** [SessionManagerMode.componentAndFolderNodeFromHash(hash_val, node)] *)
Definition componentAndFolderNodeFromHash (hash_val node : string)
    : M World (option string * option string) :=
  ns <- nodes_ ;;
  componentAndFolder_loop hash_val node ns (None, None).

(** [SessionManagerMode.newSubComponentNode(...)] *)
Definition newSubComponentNode
    (hash_val : string) (subType : Z) (filename fullName : string)
    (compPropValue : list string) (node : string) (folder : option string)
    : M World string :=
  snode <- addSourceVerbose [filename] ;;
  nodeName <- uiName node ;;
  groupNode <- nodeGroup snode ;;
  let dname := if bool_decide (fullName = "") then "default" else fullName in
  folder <- match folder with
            | Some f => ret f
            | None =>
                f <- newNode "RVFolderGroup" (node +:+ "_components") ;;
                un <- uiName node ;;
                setUIName f ("Components of " +:+ un);;
                setStringProperty (f +:+ ".sm_state.componentFolderOfNode") [node] true;;
                setExpandedInParent f "" false;;
                ret f
            end ;;
  inputs <- nodeInputs folder ;;
  setNodeInputs folder (inputs ++ [groupNode]);;
  setStringProperty (groupNode +:+ ".sm_state.componentOfNode") [node] true;;
  setStringProperty (groupNode +:+ ".sm_state.componentHash") [hash_val] true;;
  setIntProperty (groupNode +:+ ".sm_state.componentSubType") [subType] true;;
  (if subType =? MediaSubComponent then
     setUIName groupNode (nodeName +:+ " (Media " +:+ dname +:+ ")")
   else if subType =? ViewSubComponent then
     setUIName groupNode (nodeName +:+ " (View " +:+ dname +:+ ")");;
     setNodeRequest snode compPropValue
   else if subType =? LayerSubComponent then
     setUIName groupNode (nodeName +:+ " (Layer " +:+ dname +:+ ")");;
     setNodeRequest snode compPropValue
   else if subType =? ChannelSubComponent then
     setUIName groupNode (nodeName +:+ " (Channel " +:+ dname +:+ ")");;
     setNodeRequest snode compPropValue
   else ret tt);;
  gn <- uiName groupNode ;;
  displayFeedback ("NOTE: Created " +:+ gn);;
  ret groupNode.

(** The [while] loop of [sourceFromSubComponent]: walk up from the item to
    its media item. *)
Fixpoint findMediaItem (i : Item) : option Item :=
  let subType := itemSubComponentType (Some i) in
  if subType =? NotASubComponent then None
  else if subType =? MediaSubComponent then Some i
  else match item_parent i with
       | Some p => findMediaItem p
       | None => None
       end.

(** [SessionManagerMode.sourceFromSubComponent(item, node)] *)
Definition sourceFromSubComponent (item : Item) (node : string) : M World string :=
  let hash_val := hashedSubComponentFromItem item in
  cf <- componentAndFolderNodeFromHash hash_val node ;;
  let '(cnode, folder) := cf in
  match cnode with
  | Some c => ret c
  | None =>
      let mediaItem := findMediaItem item in
      let subType := itemSubComponentType (Some item) in
      let filename := match mediaItem with
                      | Some _ => itemSubComponentValue mediaItem
                      | None => ""
                      end in
      let fullName := itemSubComponentValue (Some item) in
      newSubComponentNode hash_val subType filename fullName
                          (subComponentPropValue item) node folder
  end.

(** The loop of [selectedConvertedSubComponents] over the selected indexes
    (each given by the item it points at). *)
Fixpoint selectedConverted_loop (indices : list Item) (acc : list string)
    : M World (list string) :=
  match indices with
  | [] => ret acc
  | item :: rest =>
      if item_column item =? 0 then
        let n := itemNode (Some item) in
        e <- nodeExists n ;;
        if e then
          if itemIsSubComponent (Some item) then
            modify (set_disableUpdates true);;
            snode <- sourceFromSubComponent item n ;;
            modify (set_disableUpdates false);;
            selectedConverted_loop rest
              (if bool_decide (snode ≠ "") then acc ++ [snode] else acc)
          else selectedConverted_loop rest (acc ++ [n])
        else selectedConverted_loop rest acc
      else selectedConverted_loop rest acc
  end.

(** [SessionManagerMode.selectedConvertedSubComponents()] *)
Definition selectedConvertedSubComponents (indices : list Item) : M World (list string) :=
  selectedConverted_loop indices [].

(** The loop of [updateInputs] that fills the inputs model. *)
Fixpoint updateInputs_fill (connections : list string) : M World unit :=
  match connections with
  | [] => ret tt
  | innode :: rest =>
      name <- uiName innode ;;
      w <- get ;;
      modify (set_inputsModel
                (_inputsModel w ++
                 [mkItem name 0 None (Some innode) None None None None None]));;
      updateInputs_fill rest
  end.

(** [SessionManagerMode.updateInputs(node)] *)
Definition updateInputs (node : string) : M World unit :=
  w <- get ;;
  if _disableUpdates w || _progressiveLoadingInProgress w then ret tt
  else
    modify (set_inputOrderLock true);;
    modify (set_inputsModel []);;
    try_except
      (connections <- nodeInputs node ;;
       updateInputs_fill connections)
      (ret tt);;
    modify (set_inputOrderLock false).

(** One row of the loop of [rebuildInputsFromList]. *)
Definition rebuildInputs_row (acc : list string) (item : Item) : M World (list string) :=
  let node := itemNode (Some item) in
  try_except
    (if itemIsSubComponent (Some item) then
       let hash_val := itemSubComponentHash (Some item) in
       cf <- componentAndFolderNodeFromHash hash_val node ;;
       let '(cnode, folder) := cf in
       match cnode with
       | None =>
           let fullName := itemSubComponentValue (Some item) in
           let filename := itemSubComponentMedia (Some item) in
           let subType := itemSubComponentType (Some item) in
           let pval := subComponentPropValue item in
           snode <- newSubComponentNode hash_val subType filename fullName pval node folder ;;
           ret (acc ++ [snode])
       | Some c => ret (acc ++ [c])
       end
     else ret (acc ++ [node]))
    (ret acc).

Fixpoint rebuildInputs_loop (rows : list Item) (acc : list string)
    : M World (list string) :=
  match rows with
  | [] => ret acc
  | item :: rest =>
      acc' <- rebuildInputs_row acc item ;;
      rebuildInputs_loop rest acc'
  end.

(** [SessionManagerMode.rebuildInputsFromList()] *)
Definition rebuildInputsFromList `{HostPolicy} : M World unit :=
  w <- get ;;
  if _inputOrderLock w then ret tt
  else
    v <- viewNode ;;
    match v with
    | None => ret tt
    | Some vnode =>
        modify (set_disableUpdates true);;
        nodes <- rebuildInputs_loop (_inputsModel w) [] ;;
        setViewNode vnode;;
        modify (set_disableUpdates false);;
        ok <- setInputs vnode nodes ;;
        when (negb ok) (updateInputs vnode)
    end.

(* ===================================================================== *)
(** * [session_manager_utils.py]: [block_signals]                         *)
(* ===================================================================== *)

(** The widgets a [with block_signals(...)] block names, by identity; the
    state is which of them currently block their signals. *)
Definition Widgets : Type := gmap nat bool.

(** [w.blockSignals(b)] *)
Definition blockSignals (w : nat) (b : bool) : M Widgets unit :=
  modify (<[w := b]>).

(** [with block_signals(w1, ..., wn): body] -- [None] entries are skipped. *)
Definition block_signals {A} (widgets : list (option nat)) (body : M Widgets A)
    : M Widgets A :=
  let valid_widgets := omap id widgets in
  for_each valid_widgets (λ w, blockSignals w true);;
  try_finally body (for_each valid_widgets (λ w, blockSignals w false)).

(* ===================================================================== *)
(** * [transform_manip.py]                                                *)
(* ===================================================================== *)

(** [setStringTagProperty(propName, value)] *)
Definition setStringTagProperty (propName value : string) : M World unit :=
  try_except
    (e <- propertyExists propName ;;
     when (negb e) (newProperty propName);;
     setStringProperty propName [value] true)
    (ret tt).

(** The loop of [findEditingNodes]: [i] is the index of the head of [infos]. *)
Fixpoint findEditingNodes_loop (setStates : bool) (ins : list string)
    (i : Z) (infos : list string) : M World unit :=
  match infos with
  | [] => ret tt
  | node :: rest =>
      let pname := node +:+ ".tag.tmanip" in
      let sname := node +:+ ".tag.tmanip_state" in
      inp <- lift_result (py_getitem ins i) ;;
      w <- get ;;
      modify (set_editNodes (_editNodes w ++ [mkEditNodePair node inp]));;
      e <- (if setStates then ret false else propertyExists pname) ;;
      when (setStates || negb e)
        (setStringTagProperty pname node;;
         setStringTagProperty sname "");;
      findEditingNodes_loop setStates ins (i + 1) rest
  end.

(** [TransformManip.findEditingNodes(setStates=True)] *)
Definition findEditingNodes (setStates : bool) : M World unit :=
  v <- viewNode ;;
  match v with
  | None => modify (set_editNodes [])
  | Some vnode =>
      r <- try_except
             (infos <- metaEvaluateClosestByType "RVTransform2D" ;;
              c <- nodeConnections vnode ;;
              ret (Some (infos, c.1)))
             (ret None) ;;
      match r with
      | None => modify (set_editNodes [])
      | Some (infos, ins) =>
          modify (set_editNodes []);;
          if negb (bool_decide (length infos = length ins)) then ret tt
          else findEditingNodes_loop setStates ins 0 infos
      end
  end.

(** ** Pointer drag: the arithmetic of [TransformManip.drag] *)

(** The arithmetic the drag handler uses.  Python computes in binary64
    ([float_arith] below); the same text read over the rationals
    ([exact_arith]) is the handler in exact arithmetic. *)
Class Arith (F : Type) : Type := mkArith {
  f_add : F → F → F;
  f_sub : F → F → F;
  f_mul : F → F → F;
  f_div : F → F → F;
  f_ltb : F → F → bool;
  f_eqb : F → F → bool;
  f_zero : F;
  f_one : F;
  f_two : F;
  f_min_scale : F;          (* the literal [0.01] *)
}.

Global Instance float_arith : Arith float := {|
  f_add := PrimFloat.add;
  f_sub := PrimFloat.sub;
  f_mul := PrimFloat.mul;
  f_div := PrimFloat.div;
  f_ltb := PrimFloat.ltb;
  f_eqb := PrimFloat.eqb;
  f_zero := 0%float;
  f_one := 1%float;
  f_two := 2%float;
  f_min_scale := 0.01%float;
|}.


(** [max(a, b)]: Python keeps the first argument unless the second is
    strictly greater. *)
Definition py_max {F} `{Arith F} (a b : F) : F :=
  if f_ltb a b then b else a.

(** The scale the corner branch of [drag] writes:
    [newscale = max(scale[0] * scl, 0.01)] and
    [[newscale, scale[1] * newscale / scale[0] if scale[0] != 0 else newscale]]. *)
Definition cornerScale {F} `{Arith F} (scale : F * F) (scl : F) : F * F :=
  let newscale := py_max (f_mul scale.1 scl) f_min_scale in
  (newscale,
   if negb (f_eqb scale.1 f_zero)
   then f_div (f_mul scale.2 newscale) scale.1
   else newscale).

(** Control types. *)
Inductive Control : Type :=
  | NoControl | FreeTranslation
  | TopLeftCorner | TopRightCorner | BotLeftCorner | BotRightCorner.

Global Instance Control_eq_dec : EqDecision Control.
Proof. solve_decision. Defined.

Definition vec2 : Type := float * float.

(** What [drag] reads and writes: the manipulator's own fields and the two
    float properties of the node under edit. *)
Record DragState : Type := mkDragState {
  _currentEditNode : option EditNodePair;
  _control : Control;
  _gc : vec2;
  _corner : vec2;
  _downPoint : vec2;
  _didDrag : bool;
  transform_translate : vec2;
  transform_scale : vec2;
}.

(** [mag(v)], [normalize(v)], [dot(a, b)] *)
Definition mag (v : vec2) : float :=
  PrimFloat.sqrt (v.1 * v.1 + v.2 * v.2)%float.

Definition normalize (v : vec2) : vec2 :=
  let m := mag v in
  if PrimFloat.eqb m 0 then (0, 0)%float
  else (v.1 / m, v.2 / m)%float.

Definition dot (a b : vec2) : float := (a.1 * b.1 + a.2 * b.2)%float.

(** [scl] in [drag]: the scale factor read off the grabbed diagonal. *)
Definition drag_scl (st : DragState) (pp : vec2) : float :=
  let diagDir :=
    normalize ((_corner st).1 - (_gc st).1, (_corner st).2 - (_gc st).2)%float in
  let diagDist := dot (pp.1 - (_gc st).1, pp.2 - (_gc st).2)%float diagDir in
  let downDist :=
    dot ((_downPoint st).1 - (_gc st).1, (_downPoint st).2 - (_gc st).2)%float
        diagDir in
  let diff := (diagDist - downDist)%float in
  if negb (PrimFloat.eqb downDist 0)
  then ((diagDist - diff / 2) / downDist)%float else 1%float.

(** [TransformManip.drag(event)]: [index] is what [activeImageIndex()]
    answers, [corners] what [imageGeometryByIndex(index)] answers, and [pp]
    the pointer position of the event. *)
Definition drag (index : Z) (corners : vec2 * vec2 * vec2 * vec2) (pp : vec2)
    (st : DragState) : DragState :=
  match _currentEditNode st with
  | None => st
  | Some _ =>
      if (index =? -1)%Z then st
      else
        let trans := transform_translate st in
        let scale := transform_scale st in
        let '(a, b, c, d) := corners in
        let dp := _downPoint st in
        let ip := (pp.1 - dp.1, pp.2 - dp.2)%float in
        let ba := mag (b.1 - a.1, b.2 - a.2)%float in
        let da := mag (d.1 - a.1, d.2 - a.2)%float in
        let aspect := if negb (PrimFloat.eqb da 0) then (ba / da)%float else 1%float in
        let dx := if negb (PrimFloat.eqb ba 0)
                  then (ip.1 / ba * scale.1 * aspect)%float else 0%float in
        let dy := if negb (PrimFloat.eqb da 0)
                  then (ip.2 / da * scale.2)%float else 0%float in
        let diagDir :=
          normalize ((_corner st).1 - (_gc st).1, (_corner st).2 - (_gc st).2)%float in
        let diagDist := dot (pp.1 - (_gc st).1, pp.2 - (_gc st).2)%float diagDir in
        let downDist :=
          dot ((_downPoint st).1 - (_gc st).1, (_downPoint st).2 - (_gc st).2)%float
              diagDir in
        let diff := (diagDist - downDist)%float in
        let scl := drag_scl st pp in
        let sv := (diff * diagDir.1, diff * diagDir.2)%float in
        let sdx := if negb (PrimFloat.eqb ba 0)
                   then (sv.1 / ba * scale.1 * aspect)%float else 0%float in
        let sdy := if negb (PrimFloat.eqb da 0)
                   then (sv.2 / da * scale.2)%float else 0%float in
        let '(trans', scale') :=
          if bool_decide (_control st = FreeTranslation) then
            ((trans.1 + dx, trans.2 + dy)%float, scale)
          else
            ((trans.1 + sdx / 2, trans.2 + sdy / 2)%float, cornerScale scale scl) in
        mkDragState (_currentEditNode st) (_control st) (_gc st) (_corner st)
                    pp true trans' scale'
  end.

(* ===================================================================== *)
(** * Vocabulary of the statements                                        *)
(* ===================================================================== *)

(** The two property paths that hold a node's sort keys. *)
Definition sortKeyParent_name (node : string) : string :=
  node +:+ ".sm_state.sortKeyParent".
Definition sortKey_name (node : string) : string :=
  node +:+ ".sm_state.sortKey".

(** The property path that holds a node's expansion state. *)
Definition expandState_name (node : string) : string :=
  node +:+ ".sm_state.expandState".

(** The sort-key properties of [node], where present, have the kind the
    session manager writes them with. *)
Definition sortProps_well_typed (w : World) (node : string) : Prop :=
  (∀ v, props w !! sortKeyParent_name node = Some v → ∃ ps, v = PString ps) ∧
  (∀ v, props w !! sortKey_name node = Some v → ∃ ks, v = PInt ks).

(** The parents a sort key is stored for. *)
Definition sortParents (w : World) (node : string) : list string :=
  match props w !! sortKeyParent_name node with
  | Some (PString ps) => ps
  | _ => []
  end.

(** What the two parallel arrays answer for a parent. *)
Definition lookup_key (ps : list string) (ks : list Z) (p : string) : Z :=
  if (indexOf ps p =? -1) || negb (bool_decide (length ks = length ps))
  then undefinedKey
  else match py_getitem ks (indexOf ps p) with
       | Ok a => a
       | Raise => undefinedKey
       end.

(** Both arrays reset to a single fresh entry. *)
Definition reset_props (node parent : string) (k : Z) (m : gmap string PropVal)
    : gmap string PropVal :=
  <[sortKey_name node := PInt [k]]>
    (<[sortKeyParent_name node := PString [parent]]> m).

(* ===================================================================== *)
(** * Concrete worlds, for the examples                                   *)
(* ===================================================================== *)

(** A host with nothing in it and a session manager at rest. *)
Definition emptyWorld : World :=
  mkWorld ∅ ∅ ∅ ∅ None ∅ (Ok []) [] false false false [] IgnoreAction [] [] [].

(** A host that allows every connection. *)
Definition acceptAll : HostPolicy := λ _ _ _, Ok None.

(** A host that refuses a connection closing a two-node cycle: no proposed
    input may itself have the node among its inputs. *)
Definition rejectCycles : HostPolicy := λ g node inputs,
  if existsb (λ i, match g !! i with
                   | Some r => bool_decide (node ∈ ninputs r)
                   | None => false
                   end) inputs
  then Ok (Some "cycle in graph")
  else Ok None.

(** A world whose node [n] already carries a sort key under parent [q]. *)
Definition sortedWorld : World :=
  (setSortKeyInParent "n" "q" 7 emptyWorld).2.

(** A view node [V] with two inputs while the host's evaluation reports a
    single transform node; the manipulator still holds an older pairing. *)
Definition mismatchWorld : World :=
  mkWorld (list_to_map [("V", mkNode "RVLayoutGroup" ["A"; "B"]);
                        ("A", mkNode "RVSourceGroup" []);
                        ("B", mkNode "RVSourceGroup" [])])
          ∅ ∅ ∅ (Some "V") ∅ (Ok ["V_t_A"]) []
          false false false [] IgnoreAction [] []
          [mkEditNodePair "V_t_A" "A"; mkEditNodePair "V_t_B" "B"].

(** The worlds [setInputs] can leave behind. *)
Definition after_test (node : string) (inputs : list string) (w : World) : World :=
  log_call (CTestNodeInputs node inputs) w.

Definition after_commit (node : string) (r : NodeRec) (inputs : list string)
    (w : World) : World :=
  set_nodes (<[node := mkNode (ntype r) inputs]>)
    (log_call (CSetNodeInputs node inputs) (after_test node inputs w)).

Definition after_alert (node : string) (inputs : list string) (msg : string)
    (w : World) : World :=
  log_call (CAlertPanel "Some inputs are not allowed here" msg)
    (after_test node inputs w).

(** [parent] in [viewItemChanged]: the node of the item's tree parent, or
    [None] for a top-level item. *)
Definition parentOf (item : Item) : option string :=
  match item_parent item with
  | Some _ => Some (itemNode (item_parent item))
  | None => None
  end.

(** Folders [A] and [B] and a source [X] that is an input of [A]. *)
Definition graphAXB : gmap string NodeRec :=
  list_to_map [("A", mkNode "RVFolderGroup" ["X"]);
               ("B", mkNode "RVFolderGroup" []);
               ("X", mkNode "RVSourceGroup" [])].

(** The tree items of [B] and of [X] after [X] was dropped under [B]; the
    item of [X] still names [A] as its parent node. *)
Definition itemB : Item :=
  mkItem "B" 0 (Some "") (Some "B") None None None None None.
Definition itemX_under_B : Item :=
  mkItem "X" 0 (Some "A") (Some "X") None None None None (Some itemB).

(** The moment the item-changed notification of that drop arrives, for a
    copy and for a move of the path [X, A]. *)
Definition copyWorld : World :=
  mkWorld graphAXB ∅ ∅ ∅ None ∅ (Ok []) [] false false false []
          CopyAction [["X"; "A"]] [] [].
Definition moveWorld : World :=
  mkWorld graphAXB ∅ ∅ ∅ None ∅ (Ok []) [] false false false []
          MoveAction [["X"; "A"]] [] [].

(** The type of a node, if the name is one. *)
Definition type_of (w : World) (n : string) : option string :=
  ntype <$> nodes w !! n.

(** How many folders have [node] among their inputs. *)
Definition folder_outputs (w : World) (node : string) : nat :=
  length (filter (λ o, type_of w o = Some "RVFolderGroup")
                 (outputs_in (nodes w) node)).

(** The case in which deleting an item only unlinks its node: the node
    exists, the item's stored parent is a folder, and more than one folder
    has the node as an input. *)
Definition unlinks_only (w : World) (item : Item) : bool :=
  bool_decide (is_Some (nodes w !! itemNode (Some item)))
  && bool_decide (type_of w (itemParentNode (Some item)) = Some "RVFolderGroup")
  && bool_decide (1 < folder_outputs w (itemNode (Some item)))%nat.

(** A source [X] that two folders, [A] and [B], have as an input, and its
    tree item under [A]. *)
Definition sharedWorld : World :=
  mkWorld (list_to_map [("A", mkNode "RVFolderGroup" ["X"]);
                        ("B", mkNode "RVFolderGroup" ["X"]);
                        ("X", mkNode "RVSourceGroup" [])])
          ∅ ∅ ∅ None ∅ (Ok []) [] false false false []
          IgnoreAction [] [] [].
Definition itemX_under_A : Item :=
  mkItem "X" 0 (Some "A") (Some "X") None None None None None.

(** How often [x] occurs in a list. *)
Definition occurrences (x : string) (l : list string) : nat :=
  length (filter (λ y, y = x) l).

(** The former parents the dragged paths name: the second element of each. *)
Definition formerParents (paths : list (list string)) : list string :=
  omap (λ path, match path with
                | _ :: p :: _ => Some p
                | _ => None
                end) paths.

(** The move loop detaches [x] from [n]: [n] is a node other than the new
    parent [b] and some dragged path is [x, n, ...]. *)
Definition detaches (x b : string) (g : gmap string NodeRec)
    (paths : list (list string)) (n : string) : bool :=
  bool_decide (n ≠ b) && bool_decide (is_Some (g !! n))
  && bool_decide (n ∈ formerParents paths).

(** A proposal made to the host: the graph at that moment, the node, and
    the input list proposed for it. *)
Definition Proposal : Type := gmap string NodeRec * string * list string.

(** The host allows a proposal. *)
Definition allowed `{HostPolicy} (q : Proposal) : Prop :=
  testNodeInputs_policy q.1.1 q.1.2 q.2 = Ok None.

(** The host calls a proposal that is allowed comes to. *)
Definition proposal_calls (q : Proposal) : list Call :=
  [CTestNodeInputs q.1.2 q.2; CSetNodeInputs q.1.2 q.2].

(** The dragged paths [viewItemChanged] keeps: those that start with [x]. *)
Definition draggedPathsOf (x : string) (w : World) : list (list string) :=
  filter (λ path, match path with
                  | [] => false
                  | p0 :: _ => bool_decide (p0 = x)
                  end = true) (_draggedNodePaths w).

(** The removals the move loop proposes over the graph [g], in order, as
    long as each is allowed: for every path [[x, p, ...]] whose former
    parent [p] is a node other than the new parent [b], the graph at that
    moment, [p], and [p]'s inputs without [x]. *)
Fixpoint move_removals (x b : string) (g : gmap string NodeRec)
    (paths : list (list string)) : list Proposal :=
  match paths with
  | [] => []
  | path :: ps =>
      match path with
      | _ :: p :: _ =>
          match g !! p with
          | Some rp =>
              if bool_decide (p ≠ b) then
                let l := filter (λ y, y ≠ x) (ninputs rp) in
                (g, p, l) :: move_removals x b (<[p := mkNode (ntype rp) l]> g) ps
              else move_removals x b g ps
          | None => move_removals x b g ps
          end
      | _ => move_removals x b g ps
      end
  end.

(** Everything a move of [x] under the node [b] proposes, in order, as long
    as each proposal is allowed: [b]'s inputs with [x] appended, unless [b]
    has [x] already, and then the removals. *)
Definition move_proposals (x b : string) (w : World) : list Proposal :=
  match nodes w !! b with
  | Some rb =>
      if bool_decide (x ∈ ninputs rb)
      then move_removals x b (nodes w) (draggedPathsOf x w)
      else (nodes w, b, ninputs rb ++ [x])
           :: move_removals x b (<[b := mkNode (ntype rb) (ninputs rb ++ [x])]> (nodes w))
                (draggedPathsOf x w)
  | None => []
  end.

(** Like [graphAXB], but the source [X] has the folder [B] as an input, so
    that making [X] an input of [B] would close a cycle. *)
Definition graphCycle : gmap string NodeRec :=
  list_to_map [("A", mkNode "RVFolderGroup" ["X"]);
               ("B", mkNode "RVFolderGroup" []);
               ("X", mkNode "RVSourceGroup" ["B"])].

(** The notification of a move of the path [X, A] over that graph. *)
Definition cycleWorld : World :=
  mkWorld graphCycle ∅ ∅ ∅ None ∅ (Ok []) [] false false false []
          MoveAction [["X"; "A"]] [] [].

(** A session with one source, [src], and no media the host can open; the
    tree item of [src] and, under it, the item of a media sub-component. *)
Definition srcWorld : World :=
  mkWorld {["src" := mkNode "RVSourceGroup" []]} ∅ ∅ ∅ None ∅ (Ok []) []
          false false false [] IgnoreAction [] [] [].
Definition itemSrc : Item :=
  mkItem "src" 0 (Some "") (Some "src") None None None None None.
Definition itemMissingMedia : Item :=
  mkItem "missing.exr" 0 (Some "") (Some "src") (Some MediaSubComponent)
         (Some "missing.exr") None None (Some itemSrc).

(** A computation keeps a property of the world, on both exits. *)
Definition preserves {A} (P : World → Prop) (m : M World A) : Prop :=
  ∀ w, P w → P (m w).2.

(** The two flags that suspend the panel's reactions. *)
Definition flags (w : World) : bool * bool :=
  (_disableUpdates w, _inputOrderLock w).


(** A computation that never lets an exception out. *)
Definition returns {A} (m : M World A) : Prop :=
  ∀ w, ∃ a, (m w).1 = Ok a.

(** The row [updateInputs] makes for an input: its display name as text,
    the node under [USER_ROLE_NODE], nothing else. *)
Definition inputRow (w : World) (n : string) : Item :=
  mkItem (default n (uiNames w !! n)) 0 None (Some n) None None None None None.

(** The folder [A] of [graphAXB] is the view node and the inputs list shows
    one row, for [X]. *)
Definition viewWorld : World :=
  mkWorld graphAXB ∅ ∅ ∅ (Some "A") ∅ (Ok []) [] false false false
          [mkItem "X" 0 None (Some "X") None None None None None]
          IgnoreAction [] [] [].

(** ** A drop from the tree on the inputs list *)

(** [SessionManagerMode.inputRowsInsertedSlot]: whether the slot starts
    [_lazySetInputsTimer], the timer whose timeout runs
    [rebuildInputsFromList]. *)
Definition inputRowsInsertedSlot : M World bool :=
  w <- get ;;
  if _inputOrderLock w then ret false
  else
    v <- viewNode ;;
    ret (bool_decide (v ≠ None)).

(** A list with [x] put in before position [row], at the end when the list
    is shorter than that. *)
Definition insertRow {A} (row : nat) (x : A) (rows : list A) : list A :=
  take row rows ++ x :: drop row rows.

(** Modelled from the spec: the row a list model makes of a dropped tree
    item, which is the item's text and the values under its roles, under no
    parent item. *)
Definition droppedRow (item : Item) : Item :=
  mkItem (item_text item) (item_column item) (USER_ROLE_PARENT_NODE item)
         (USER_ROLE_NODE item) (USER_ROLE_SUBCOMPONENT_TYPE item)
         (USER_ROLE_SUBCOMPONENT_VALUE item) (USER_ROLE_HASH item)
         (USER_ROLE_MEDIA item) None.

(** Modelled from the spec: a drop of the tree item [dragged] on the inputs
    list, before row [row], the event arriving with the action [action].
    [InputsView.dropEvent] settles the action the event carries into the
    list view's own handling; unless that is to ignore the drop, the list
    model gets the new row, its [rowsInserted] signal runs
    [inputRowsInsertedSlot], and the timer that slot starts runs
    [rebuildInputsFromList], once.  The item-changed signal of the tree
    model, the only one [viewItemChanged] is connected to, is no part of
    this, and [NodeTreeView._dropAction] is written by the tree's own
    [dropEvent] alone. *)
Definition InputsView_dropFromTree `{HostPolicy} (action : DropAction)
    (dragged : Item) (row : nat) : M World unit :=
  match InputsView_dropEvent true action with
  | IgnoreAction => ret tt
  | _ =>
      modify (λ w, set_inputsModel
                     (insertRow row (droppedRow dragged) (_inputsModel w)) w);;
      start <- inputRowsInsertedSlot ;;
      when start rebuildInputsFromList
  end.

(** The folder [B] of [graphAXB], which has no input, is the view node, and
    the inputs list is empty. *)
Definition viewWorldB : World :=
  mkWorld graphAXB ∅ ∅ ∅ (Some "B") ∅ (Ok []) [] false false false []
          IgnoreAction [] [] [].

(** [itemSubComponentTypeForName(n)] *)
Definition itemSubComponentTypeForName (n : string) : Z :=
  if bool_decide (n = "view") then ViewSubComponent
  else if bool_decide (n = "layer") then LayerSubComponent
  else if bool_decide (n = "channel") then ChannelSubComponent
  else NotASubComponent.

(** [componentMatch(n, c)] *)
Definition componentMatch (n : string) (c : Z) : bool :=
  itemSubComponentTypeForName n =? c.

(** [setToolTipProp(node, toolTip)] *)
Definition setToolTipProp (node toolTip : string) : M World unit :=
  let propName := node +:+ ".sm_state.toolTip" in
  setStringProperty propName [toolTip] true.

(** [toolTipFromProp(node)]: [None] where the property is missing, cannot
    be read as strings, or is empty. *)
Definition toolTipFromProp (node : string) : M World (option string) :=
  let propName := node +:+ ".sm_state.toolTip" in
  e <- propertyExists propName ;;
  if e then
    try_except
      (p <- getStringProperty propName ;;
       t <- lift_result (py_getitem p 0) ;;
       ret (Some t))
      (ret None)
  else ret None.

(** The property path that holds a node's tool tip, and the one that holds
    the expansion state of its sub-components. *)
Definition toolTip_name (node : string) : string := node +:+ ".sm_state.toolTip".
Definition expandedSubState_name (node : string) : string :=
  node +:+ ".sm_state.expandedSubState".

(** A node whose two sort-key arrays have come apart: two parents, one key. *)
Definition desyncWorld : World :=
  mkWorld ∅ ∅ {[ "n.sm_state.sortKeyParent" := PString ["a"; "b"];
                 "n.sm_state.sortKey" := PInt [1] ]}
          ∅ None ∅ (Ok []) [] false false false [] IgnoreAction [] [] [].

(** ** The tree model *)

(** A [QStandardItem] of the tree model together with what hangs under it:
    for each of its rows the item in column 0, where the row has one
    ([item.child(i, 0)]). *)
Inductive ModelItem : Type := mkModelItem {
  mi_item : Item;
  mi_rows : list (option ModelItem);
}.

(** [mapOverItem] of [mapModel]: the rows first, each with what hangs under
    it, then the item itself. *)
Fixpoint mapOverItem (F : Item → bool) (item : ModelItem)
    (result_list : list ModelItem) : list ModelItem :=
  let result_list' :=
    (fix rows (cs : list (option ModelItem)) (acc : list ModelItem) :=
       match cs with
       | [] => acc
       | Some child :: cs' => rows cs' (mapOverItem F child acc)
       | None :: cs' => rows cs' acc
       end) (mi_rows item) result_list in
  if negb (bool_decide (itemNode (Some (mi_item item)) = "")) && F (mi_item item)
  then result_list' ++ [item]
  else result_list'.

(** The loop of [mapModel] over the top-level rows of the model. *)
Fixpoint mapModel_rows (F : Item → bool) (rows : list (option ModelItem))
    (result_list : list ModelItem) : list ModelItem :=
  match rows with
  | [] => result_list
  | Some item :: rows' => mapModel_rows F rows' (mapOverItem F item result_list)
  | None :: rows' => mapModel_rows F rows' result_list
  end.

(** [mapModel(model, F, root=None)]; the model is given by its top-level
    rows. *)
Definition mapModel (model : list (option ModelItem)) (F : Item → bool)
    (root : option ModelItem) : list ModelItem :=
  match root with
  | None => mapModel_rows F model []
  | Some r => mapOverItem F r []
  end.

(** [itemOfNode(model, node)] *)
Definition itemOfNode (model : list (option ModelItem)) (node : string)
    : option ModelItem :=
  head (mapModel model
          (λ i, bool_decide (itemNode (Some i) = node)
                && negb (itemIsSubComponent (Some i))) None).

(** [subComponentItemsOfNode(model, node)] *)
Definition subComponentItemsOfNode (model : list (option ModelItem)) (node : string)
    : list ModelItem :=
  let check i :=
    let subType := itemSubComponentType (Some i) in
    bool_decide (itemNode (Some i) = node)
    && negb (subType =? NotASubComponent)
    && negb (subType =? MediaSubComponent)
    && (item_column i =? 0) in
  mapModel model check None.

(** The loop of [assignSortOrder] over the rows of the root, [index] being
    the next sort key to hand out. *)
Fixpoint assignSortOrder_rows (rootNode : string) (rows : list (option ModelItem))
    (index : Z) : M World unit :=
  match rows with
  | [] => ret tt
  | Some item :: rows' =>
      let node := itemNode (Some (mi_item item)) in
      setSortKeyInParent node rootNode index;;
      assignSortOrder_rows rootNode rows' (index + 1)
  | None :: rows' => assignSortOrder_rows rootNode rows' index
  end.

(** [assignSortOrder(root)] *)
Definition assignSortOrder (root : option ModelItem) : M World unit :=
  match root with
  | None => ret tt
  | Some r =>
      try_except
        (let rootNode := itemNode (Some (mi_item r)) in
         assignSortOrder_rows rootNode (mi_rows r) 0)
        (ret tt)
  end.

(** [NodeTreeView._doSortFolders()], over the view model [viewModel]. *)
Definition _doSortFolders (viewModel : list (option ModelItem)) : M World unit :=
  w <- get ;;
  for_each (_sortFolders w)
    (λ folder,
       try_except
         (match itemOfNode viewModel folder with
          | Some item => assignSortOrder (Some item)
          | None => ret tt
          end)
         (ret tt));;
  modify (set_sortFolders []).

(** Every item of the model, each after everything that hangs under it. *)
Fixpoint postorder (item : ModelItem) : list ModelItem :=
  (fix rows (cs : list (option ModelItem)) :=
     match cs with
     | [] => []
     | Some child :: cs' => postorder child ++ rows cs'
     | None :: cs' => rows cs'
     end) (mi_rows item) ++ [item].

Fixpoint postorder_rows (rows : list (option ModelItem)) : list ModelItem :=
  match rows with
  | [] => []
  | Some item :: rows' => postorder item ++ postorder_rows rows'
  | None :: rows' => postorder_rows rows'
  end.

(** What [mapModel] keeps: an item with a node name, accepted by [F]. *)
Definition kept (F : Item → bool) (item : ModelItem) : bool :=
  negb (bool_decide (itemNode (Some (mi_item item)) = "")) && F (mi_item item).

(** The nodes of the items in column 0 of the rows under [root]. *)
Definition childNodes (root : ModelItem) : list string :=
  map (λ c, itemNode (Some (mi_item c))) (omap id (mi_rows root)).

(** [w'] is [w] but for sort-key properties: every other property and every
    other part of the world is the same. *)
Definition only_sort_keys (w w' : World) : Prop :=
  (∀ name, (∀ n, name ≠ sortKeyParent_name n ∧ name ≠ sortKey_name n) →
           props w' !! name = props w !! name) ∧
  set_props (λ _, ∅) w' = set_props (λ _, ∅) w.

(** A folder [A] with two rows, for [X] and for [Y]. *)
Definition folderA_rows : ModelItem :=
  mkModelItem (mkItem "A" 0 (Some "") (Some "A") None None None None None)
    [Some (mkModelItem (mkItem "X" 0 (Some "A") (Some "X") None None None None None) []);
     Some (mkModelItem (mkItem "Y" 0 (Some "A") (Some "Y") None None None None None) [])].

(** ** The inputs list: deleting and reordering rows *)

(** [includes(array, item)]: whether one of the indexes has the row of
    [item].  The selected indexes are given by their rows. *)
Definition includes (array : list Z) (row : Z) : bool :=
  existsb (λ a, a =? row) array.

(** [self._inputsModel.index(i, 0, QModelIndex()).row()]: Qt answers an
    invalid index, whose row is [-1], for a row the model does not have. *)
Definition inputsModel_row (model : list Item) (i : Z) : Z :=
  if (0 <=? i) && (i <? Z.of_nat (length model)) then i else -1.

(** [nodeFromIndex(index, model)] for the index of row [i]:
    [itemNode(model.itemFromIndex(index))], the item being [None] for an
    invalid index. *)
Definition nodeFromIndex (model : list Item) (i : Z) : string :=
  itemNode (if (0 <=? i) && (i <? Z.of_nat (length model))
            then model !! Z.to_nat i else None).

(** [nodeInputs(commands.viewNode())] and [setInputs(commands.viewNode(),
    ...)] where there may be no view node: the host call raises on [None],
    which [nodeInputs] turns into [[]] and [setInputs] into [False]. *)
Definition nodeInputs_opt (node : option string) : M World (list string) :=
  match node with
  | Some n => nodeInputs n
  | None => ret []
  end.

Definition setInputs_opt `{HostPolicy} (node : option string) (inputs : list string)
    : M World bool :=
  match node with
  | Some n => setInputs n inputs
  | None => ret false
  end.

(** [SessionManagerMode.inputsDeleteSlot()], [indices] being the rows of
    the selected indexes of the inputs view. *)
Definition inputsDeleteSlot `{HostPolicy} (indices : list Z) : M World unit :=
  w <- get ;;
  if _inputOrderLock w then ret tt
  else
    v <- viewNode ;;
    match v with
    | None => ret tt
    | Some _ =>
        inputs <- nodeInputs_opt v ;;
        let model := _inputsModel w in
        let newNodes :=
          omap (λ i : nat,
                  if negb (includes indices (inputsModel_row model (Z.of_nat i)))
                  then Some (nodeFromIndex model (Z.of_nat i))
                  else None)
               (seq 0 (length inputs)) in
        try_except (setInputs_opt v newNodes;; ret tt) (ret tt)
    end.

(** [min(idx.row() for idx in indices)] and [max(...)], for a selection
    that is not empty. *)
Definition rows_min (indices : list Z) : Z :=
  match indices with
  | [] => 0
  | x :: rest => foldl Z.min x rest
  end.
Definition rows_max (indices : list Z) : Z :=
  match indices with
  | [] => 0
  | x :: rest => foldl Z.max x rest
  end.

(** One round of the loop of [reorderSelected], for row [i]: where the row
    goes, and the rows to select afterwards. *)
Definition reorder_step (up : bool) (indices : list Z) (minRow maxRow : Z)
    (model : list Item) (numRows : Z)
    (st : list string * list Z) (i : Z) : list string * list Z :=
  let '(newNodes, includedList) := st in
  let row := inputsModel_row model i in
  let included := includes indices row in
  let d := if up then -1 else 1 in
  let '(newIndex, includedList') :=
    if included then (row + d, includedList ++ [row + d])
    else if (minRow + d <=? row) && (row <=? maxRow + d) then
      let selectionSize :=
        Z.of_nat (length (filter (λ r, minRow ≤ r ∧ r ≤ maxRow) indices)) in
      (row + (if up then 1 else -1) * selectionSize, includedList)
    else (row, includedList) in
  let newNodes' :=
    if (0 <=? newIndex) && (newIndex <? numRows)
    then <[Z.to_nat newIndex := nodeFromIndex model i]> newNodes
    else newNodes in
  (newNodes', includedList').

(** [SessionManagerMode.reorderSelected(up)], [indices] being the rows of
    the selected indexes of the inputs view.  It answers the rows it hands
    to [selectInputsRange], [None] where it selects nothing. *)
Definition reorderSelected `{HostPolicy} (up : bool) (indices : list Z)
    : M World (option (list Z)) :=
  if bool_decide (indices = []) then ret None
  else
    v <- viewNode ;;
    inputs <- nodeInputs_opt v ;;
    let minRow := rows_min indices in
    let maxRow := rows_max indices in
    if (up && (minRow =? 0))
       || (negb up && (maxRow =? Z.of_nat (length inputs) - 1))
    then ret None
    else
      w <- get ;;
      let model := _inputsModel w in
      let numRows := Z.of_nat (length model) in
      let '(newNodes, includedList) :=
        foldl (reorder_step up indices minRow maxRow model numRows)
              (replicate (length model) "", [])
              (seqZ 0 numRows) in
      v' <- viewNode ;;
      try_except
        (setInputs_opt v' (filter (λ n, n ≠ "") newNodes);;
         ret (Some includedList))
        (ret None).

(** Where the loop of [reorderSelected] puts row [i]. *)
Definition reorder_target (up : bool) (indices : list Z) (minRow maxRow : Z)
    (model : list Item) (i : Z) : Z :=
  let row := inputsModel_row model i in
  let d := if up then -1 else 1 in
  if includes indices row then row + d
  else if (minRow + d <=? row) && (row <=? maxRow + d) then
    row + (if up then 1 else -1)
          * Z.of_nat (length (filter (λ r, minRow ≤ r ∧ r ≤ maxRow) indices))
  else row.

(** The elements of [l], which starts at row [k], whose row is not
    selected, in order. *)
Fixpoint rows_not_in_from (k : Z) (indices : list Z) (l : list string)
    : list string :=
  match l with
  | [] => []
  | x :: l' =>
      (if includes indices k then [] else [x])
      ++ rows_not_in_from (k + 1) indices l'
  end.
Definition rows_not_in (indices : list Z) (l : list string) : list string :=
  rows_not_in_from 0 indices l.

(** The list [l] after its rows [a..b] have moved up by one (the row before
    them now follows them), and after they have moved down by one (the row
    after them now precedes them). *)
Definition block_moved_up (l : list string) (a b : nat) : list string :=
  take (a - 1) l ++ take (b - a + 1) (drop a l)
  ++ take 1 (drop (a - 1) l) ++ drop (b + 1) l.
Definition block_moved_down (l : list string) (a b : nat) : list string :=
  take a l ++ take 1 (drop (b + 1) l)
  ++ take (b - a + 1) (drop a l) ++ drop (b + 2) l.

(** A view node [V] with five inputs, and the inputs list showing them. *)
Definition fiveInputs : list string := ["a"; "b"; "c"; "d"; "e"].
Definition fiveWorld : World :=
  mkWorld {["V" := mkNode "RVSequenceGroup" fiveInputs;
            "a" := mkNode "RVSourceGroup" []; "b" := mkNode "RVSourceGroup" [];
            "c" := mkNode "RVSourceGroup" []; "d" := mkNode "RVSourceGroup" [];
            "e" := mkNode "RVSourceGroup" []]}
          ∅ ∅ ∅ (Some "V") ∅ (Ok []) [] false false false
          (map (λ n, mkItem n 0 None (Some n) None None None None None) fiveInputs)
          IgnoreAction [] [] [].

(** The inputs of the view node, as [nodeInputs(commands.viewNode())] gives
    them: none where there is no view node, or the node does not exist. *)
Definition viewInputs (w : World) : list string :=
  match currentView w with
  | Some v => inputs_of w v
  | None => []
  end.

(** ** Naming a node after its type and its inputs *)

(** [re.match("^RV", s)]: [s] starts with [RV]. *)
Definition re_match_RV (s : string) : bool := String.prefix "RV" s.

(** [re.match("Group$", s)].  [re.match] matches at the start of [s] only,
    and [$] stands for the end of [s] or for the newline that ends it: the
    strings matched are [Group], and [Group] followed by a newline. *)
Definition re_match_Group_end (s : string) : bool :=
  bool_decide (s = "Group" ∨ s = "Group" +:+ String (Ascii.ascii_of_nat 10) "").

(** The slices [s[k:]] and [s[:-k]], for [k > 0]. *)
Definition str_from (k : nat) (s : string) : string :=
  String.substring k (String.length s - k) s.
Definition str_upto_last (k : nat) (s : string) : string :=
  String.substring 0 (String.length s - k) s.

(** [basename] in [renameByType], from the node's type. *)
Definition typeBasename (t : string) : string :=
  let basename := if re_match_RV t then str_from 2 t else t in
  if re_match_Group_end basename then str_upto_last 5 basename else basename.

(** The loop of [renameByType] over [enumerate(inputs)], from index [i]. *)
Fixpoint renameByType_loop (n i : nat) (inputs : list string) (name : string)
    : M World string :=
  match inputs with
  | [] => ret name
  | inp :: rest =>
      let name1 := if (0 <? i)%nat && (2 <? n)%nat then name +:+ "," else name in
      let name2 := if (0 <? i)%nat then name1 +:+ " " else name1 in
      let name3 :=
        if (i =? n - 1)%nat && (1 <? n)%nat then name2 +:+ "and " else name2 in
      u <- uiName inp ;;
      renameByType_loop n (S i) rest (name3 +:+ u)
  end.

(** [SessionManagerMode.renameByType(node, inputs)] *)
Definition renameByType (node : string) (inputs : list string) : M World unit :=
  let n := length inputs in
  t <- nodeType node ;;
  let basename := typeBasename t in
  name <- (if (n =? 0)%nat then ret ("Empty " +:+ basename)
           else if (n <? 3)%nat then
             renameByType_loop n 0 inputs (basename +:+ " of ")
           else ret (basename +:+ " of " +:+ pretty (Z.of_nat n) +:+ " views")) ;;
  setUIName node name.

(** What [extra_commands.uiName] answers for a node that exists. *)
Definition shownName (w : World) (n : string) : string :=
  default n (uiNames w !! n).

(** The name [renameByType] gives. *)
Definition nameByType (w : World) (t : string) (inputs : list string) : string :=
  match inputs with
  | [] => "Empty " +:+ typeBasename t
  | [x] => typeBasename t +:+ " of " +:+ shownName w x
  | [x; y] => typeBasename t +:+ " of " +:+ shownName w x
              +:+ " and " +:+ shownName w y
  | _ => typeBasename t +:+ " of " +:+ pretty (Z.of_nat (length inputs))
         +:+ " views"
  end.

(** ** A new folder *)

(** The loop of [newFolderSlot] for "move into a folder": every selected
    path with a parent that exists leaves that parent. *)
Fixpoint newFolder_detach `{HostPolicy} (paths : list (list string)) : M World unit :=
  match paths with
  | [] => ret tt
  | path :: rest =>
      match path with
      | path0 :: path1 :: _ =>
          e <- nodeExists path1 ;;
          if e then removeInput path1 path0;; ret tt else ret tt
      | _ => ret tt
      end;;
      newFolder_detach rest
  end.

(** The end of [newFolderSlot]: name the folder and show it. *)
Definition newFolder_finish (which : Z) (paths : list (list string))
    (folder : string) (nodes : list string) : M World unit :=
  modify (set_disableUpdates true);;
  renameByType folder (if which =? 1 then [] else nodes);;
  modify (set_disableUpdates false);;
  if bool_decide (paths = []) then ret tt else setViewNode folder.

(** Where [newFolderSlot] puts the folder: under the parent of the first
    selected path, with the sort key of that path's node. *)
Definition newFolder_place `{HostPolicy} (first : list string) (folder : string)
    : M World unit :=
  match first with
  | first0 :: first1 :: _ =>
      e <- nodeExists first1 ;;
      if e then
        addInput first1 folder;;
        k <- sortKeyInParent first0 first1 ;;
        setSortKeyInParent folder first1 k
      else ret tt
  | _ => ret tt
  end.

(** [SessionManagerMode.newFolderSlot(which)], [paths] being what
    [self._viewTreeView.selectedNodePaths()] answers: [which] is 1 for an
    empty folder, 2 for moving the selection into the folder, 3 for copying
    it.  [commands.newNode] answers a name, so [folder is not None]. *)
Definition newFolderSlot `{HostPolicy} (which : Z) (paths : list (list string))
    : M World unit :=
  folder <- newNode "RVFolderGroup" "Folder" ;;
  let nodes := omap head paths in
  match paths with
  | [] => newFolder_finish which paths folder nodes
  | first :: _ =>
      ok <- (if negb (which =? 1) && negb (bool_decide (nodes = []))
             then setInputs folder nodes else ret true) ;;
      if negb ok then deleteNode folder
      else
        modify (set_disableUpdates true);;
        (if which =? 2 then newFolder_detach paths else ret tt);;
        newFolder_place first folder;;
        modify (set_disableUpdates false);;
        newFolder_finish which paths folder nodes
  end.

(** The name the host gives a new folder. *)
Definition newFolderName (w : World) : string := fresh_string "Folder" (nodes w).

(** Every input of a node is a node. *)
Definition inputs_closed (w : World) : Prop :=
  ∀ n r, nodes w !! n = Some r → Forall (λ x, is_Some (nodes w !! x)) (ninputs r).

(** What proposals for inputs and sort keys leave alone: which nodes there
    are and of which type, the display names, the view node, the flags. *)
Definition outline (w : World)
    : gmap string string * gmap string string * option string * (bool * bool) :=
  (ntype <$> nodes w, uiNames w, currentView w, flags w).

(** A host that refuses inputs that are no nodes. *)
Definition nodesOnly : HostPolicy := λ g node inputs,
  if forallb (λ i, bool_decide (is_Some (g !! i))) inputs then Ok None
  else Ok (Some "no such node").

(** ** The manipulator's tags *)

(** [TransformManip.editNode(name)] *)
Definition editNode (w : World) (name : string) : option EditNodePair :=
  head (filter (λ enode, tformNode enode = name) (_editNodes w)).

(** [TransformManip.removeTags()] *)
Definition removeTags : M World unit :=
  w <- get ;;
  for_each (_editNodes w) (λ x,
    let node := tformNode x in
    let pmanip := node +:+ ".tag.tmanip" in
    let pstate := node +:+ ".tag.tmanip_state" in
    for_each [pmanip; pstate] (λ p,
      e <- propertyExists p ;;
      when e (deleteProperty p))).

(** The two tag properties of a transform node. *)
Definition tmanip_name (node : string) : string := node +:+ ".tag.tmanip".
Definition tmanip_state_name (node : string) : string :=
  node +:+ ".tag.tmanip_state".
Definition tagNames (tforms : list string) : list string :=
  flat_map (λ n, [tmanip_name n; tmanip_state_name n]) tforms.

(** What [setStringTagProperty] does to the property store: it writes a
    property that is missing or holds strings, and leaves one of another
    kind alone. *)
Definition tag_write (name value : string) (m : gmap string PropVal)
    : gmap string PropVal :=
  match m !! name with
  | Some (PString _) | None => <[name := PString [value]]> m
  | Some _ => m
  end.

(** What one round of the loop of [findEditingNodes] does to it. *)
Definition tag_step (setStates : bool) (m : gmap string PropVal) (node : string)
    : gmap string PropVal :=
  if setStates || negb (bool_decide (is_Some (m !! tmanip_name node)))
  then tag_write (tmanip_state_name node) "" (tag_write (tmanip_name node) node m)
  else m.

(** The tag properties of [node], where present, hold strings. *)
Definition tags_well_typed (m : gmap string PropVal) (node : string) : Prop :=
  (∀ v, m !! tmanip_name node = Some v → ∃ vs, v = PString vs) ∧
  (∀ v, m !! tmanip_state_name node = Some v → ∃ vs, v = PString vs).

(** A layout [V] of [A] and [B], the host reporting a transform for each,
    and two stale pairs from an earlier view. *)
Definition layoutWorld : World :=
  mkWorld (nodes mismatchWorld) ∅ {["A.sm_state.sortKey" := PInt [0]]} ∅
          (Some "V") ∅ (Ok ["V_t_A"; "V_t_B"]) []
          false false false [] IgnoreAction [] []
          [mkEditNodePair "old_t" "old"].

(** ** The control under the pointer *)

(** [TransformManip.computeGC(corners)]: the sums are divided by
    [len(corners)], which raises for an empty list.  The length is turned
    into a float as Python does for [float / int]. *)
Definition computeGC (corners : list vec2) : result vec2 :=
  let gc := foldl (λ gc c, (gc.1 + c.1, gc.2 + c.2)%float) (0, 0)%float corners in
  if bool_decide (corners = []) then Raise
  else
    let n := PrimFloat.of_uint63 (Uint63.of_Z (Z.of_nat (length corners))) in
    Ok (gc.1 / n, gc.2 / n)%float.

(** [abs(v[0]) < 25 and abs(v[1]) < 25] for [v = p - c]. *)
Definition near (p c : vec2) : bool :=
  PrimFloat.ltb (PrimFloat.abs (p.1 - c.1)) 25
  && PrimFloat.ltb (PrimFloat.abs (p.2 - c.2)) 25.

(** The corner control for a corner [c], from its side of the centre. *)
Definition cornerControl (gc c : vec2) : Control :=
  if PrimFloat.ltb c.1 gc.1
  then (if PrimFloat.ltb gc.2 c.2 then TopLeftCorner else BotLeftCorner)
  else (if PrimFloat.ltb gc.2 c.2 then TopRightCorner else BotRightCorner).

(** The loop of [control] over the corners. *)
Fixpoint control_loop (p gc : vec2) (corners : list vec2) : Control * vec2 * vec2 :=
  match corners with
  | [] => (FreeTranslation, gc, gc)
  | c :: rest =>
      if near p c then (cornerControl gc c, gc, c) else control_loop p gc rest
  end.

(** [TransformManip.control(index, event)]: [corners] is what
    [imageGeometryByIndex(index)] answers and [p] the pointer position. *)
Definition control (corners : list vec2) (p : vec2)
    : result (Control * vec2 * vec2) :=
  match computeGC corners with
  | Ok gc => Ok (control_loop p gc corners)
  | Raise => Raise
  end.

(** The cursors [move] chooses among, and its choice for a control. *)
Inductive Cursor : Type :=
  | ArrowCursor | SizeBDiagCursor | SizeFDiagCursor | OpenHandCursor
  | WhatsThisCursor.

Definition moveCursor (con : Control) : Cursor :=
  if bool_decide (con = TopRightCorner) then SizeBDiagCursor
  else if bool_decide (con = BotLeftCorner) then SizeBDiagCursor
  else if bool_decide (con = TopLeftCorner) then SizeFDiagCursor
  else if bool_decide (con = BotRightCorner) then SizeFDiagCursor
  else if bool_decide (con = FreeTranslation) then OpenHandCursor
  else WhatsThisCursor.

(** [pvalue] in [subComponentPropValue]: the request of the item's parent,
    empty for an item without one. *)
Definition parentRequest (item : Item) : list string :=
  match item_parent item with
  | Some p => subComponentPropValue p
  | None => []
  end.

(** [view_val] in [subComponentPropValue]: the value of the parent when it
    is a view item. *)
Definition parentViewValue (item : Item) : string :=
  match item_parent item with
  | Some p => if itemSubComponentType (Some p) =? ViewSubComponent
              then itemSubComponentValue (Some p) else ""
  | None => ""
  end.

(** ** Doubles and the numbers they stand for *)




(* ===================================================================== *)
(* ===================================================================== *)
(** * Theorems                                                            *)
(* ===================================================================== *)
(* ===================================================================== *)

(** Unfold the monad down to functions on worlds. *)
Ltac munfold :=
  unfold mbind, M_bind, bind, ret, raise, get, gets, modify, lift_result,
         try_except, when in *.

(** Symbolic execution: split on every [match] the goal is stuck on. *)
Ltac mcase :=
  repeat (first [ progress simpl in * | progress simplify_eq | case_match ]);
  try done.

Lemma app_cancel_l (p s t : string) : p +:+ s = p +:+ t → s = t.
Proof. apply (inj (String.app p)). Qed.

(** ** Sub-component identity *)

Lemma sentinel_if_empty_Some s : ∃ s', sentinel_if_empty (Some s) = Some s'.
Proof. unfold sentinel_if_empty. case_bool_decide; eauto. Qed.

Theorem hashedSubComponent_none_vs_empty
    (media : string) (v1 l1 v2 l2 : option string) :
  agree_up_to_none_vs_empty v1 v2 →
  agree_up_to_none_vs_empty l1 l2 →
  (v1, l1) ≠ (v2, l2) →
  hashedSubComponent media v1 l1 ≠ hashedSubComponent media v2 l2.
Proof.
  intros Hv Hl Hne Heq.
  assert (Hsplit : none_vs_empty v1 v2 ∨ (v1 = v2 ∧ none_vs_empty l1 l2)).
  { destruct Hv as [->|Hv]; [|by left].
    destruct Hl as [->|Hl]; [done|right; done]. }
  unfold hashedSubComponent in Heq.
  destruct Hsplit as [Hv'|[-> Hl']].
  - destruct Hl as [->|Hl].
    + destruct Hv' as [[-> ->]|[-> ->]]; simpl in Heq;
        destruct (sentinel_if_empty l2) as [l|];
        repeat (apply app_cancel_l in Heq); discriminate.
    + destruct Hv' as [[-> ->]|[-> ->]], Hl as [[-> ->]|[-> ->]]; simpl in Heq;
        repeat (apply app_cancel_l in Heq); discriminate.
  - destruct Hl' as [[-> ->]|[-> ->]]; simpl in Heq;
      destruct (sentinel_if_empty v2) as [v|];
      repeat (apply app_cancel_l in Heq); discriminate.
Qed.

(** C3: [hashedSubComponent] is a function of its arguments, and it tells
    "not applicable" from "unnamed": for one media, when the view and the
    layer of two triples each agree or differ as [None] versus the empty
    string, the two hashes are equal exactly when the triples are.  So equal
    triples hash alike, and a [None]-versus-[""] difference in the view, in
    the layer or in both always shows in the hash. *)
Theorem hashedSubComponent_identity
    (media : string) (v1 l1 v2 l2 : option string) :
  agree_up_to_none_vs_empty v1 v2 →
  agree_up_to_none_vs_empty l1 l2 →
  hashedSubComponent media v1 l1 = hashedSubComponent media v2 l2
  ↔ (v1, l1) = (v2, l2).
Proof.
  intros Hv Hl. split.
  - intros Heq. destruct (decide ((v1, l1) = (v2, l2))) as [|Hne]; [done|].
    by destruct (hashedSubComponent_none_vs_empty media v1 l1 v2 l2 Hv Hl Hne).
  - by intros [= -> ->].
Qed.

(** The example of the specification: hash("a.mov", None, None) against
    hash("a.mov", "", None). *)
Lemma hashedSubComponent_identity_witness :
  agree_up_to_none_vs_empty None (Some "") ∧
  agree_up_to_none_vs_empty None None ∧
  (hashedSubComponent "a.mov" None None = hashedSubComponent "a.mov" (Some "") None
   ↔ (@None string, @None string) = (Some "", None)).
Proof.
  split; [right; left; done|].
  split; [left; done|].
  apply (hashedSubComponent_identity "a.mov" None None (Some "") None).
  - right; left; done.
  - left; done.
Defined.

Example hashedSubComponent_examples :
  hashedSubComponent "a.mov" None None = "a.mov!~!~" ∧
  hashedSubComponent "a.mov" (Some "") None = "a.mov!~!~@." ∧
  hashedSubComponent "a.mov" None (Some "") = "a.mov!~@.!~" ∧
  hashedSubComponent "a.mov" (Some "left") (Some "diffuse") = "a.mov!~diffuse!~left".
Proof. repeat split. Qed.

(** ** Validated input lists *)

(** C2: [setInputs(node, inputs)] asks the host's pre-check first, whatever
    the list.  When the pre-check answers with a message, the user is shown
    an alert with it, [setNodeInputs] is not called, the graph is as it
    was, and the result is [False]; when it answers with no message and the
    node exists, the list is committed with [setNodeInputs] and the result
    is [True]. *)
Theorem setInputs_precheck_then_commit `{HostPolicy}
    (node : string) (inputs : list string) (w : World) :
  let r := (setInputs node inputs w).1 in
  let w' := (setInputs node inputs w).2 in
  (∃ rest, calls w' = calls w ++ CTestNodeInputs node inputs :: rest) ∧
  (∀ msg, testNodeInputs_policy (nodes w) node inputs = Ok (Some msg) →
     r = Ok false ∧ nodes w' = nodes w ∧
     calls w' = calls w ++ [CTestNodeInputs node inputs;
                            CAlertPanel "Some inputs are not allowed here" msg]) ∧
  (testNodeInputs_policy (nodes w) node inputs = Ok None →
   ∀ rec, nodes w !! node = Some rec →
     r = Ok true ∧ nodes w' = <[node := mkNode (ntype rec) inputs]> (nodes w) ∧
     calls w' = calls w ++ [CTestNodeInputs node inputs; CSetNodeInputs node inputs]).
Proof.
  unfold setInputs, testNodeInputs, alertPanel, setNodeInputs. munfold. simpl.
  destruct (testNodeInputs_policy (nodes w) node inputs) as [[msg|]|] eqn:Hp; simpl.
  - rewrite <- app_assoc. simpl. split; [eauto|]. split; [|done].
    by intros ? [= <-].
  - destruct (nodes w !! node) as [rec|] eqn:Hn; simpl;
      rewrite <- ?app_assoc; simpl.
    + split; [eauto|]. split; [done|]. by intros _ ? [= <-].
    + split; [eauto|]. split; [done|]. by intros _ ? [=].
  - split; [eauto|]. split; done.
Qed.

(** ** Sort keys *)

(** *** [indexOf] *)

Lemma indexOf_not_in (l : list string) v : v ∉ l → indexOf l v = -1.
Proof.
  intros Hv. unfold indexOf.
  destruct (list_find (λ a, a = v) l) as [[i x]|] eqn:Hf; [|done].
  apply list_find_Some in Hf as (Hl & -> & _).
  exfalso. apply Hv. by eapply list_elem_of_lookup_2.
Qed.

Lemma indexOf_in (l : list string) v :
  v ∈ l → ∃ i : nat, indexOf l v = Z.of_nat i ∧ l !! i = Some v ∧
                   ∀ j : nat, (j < i)%nat → l !! j ≠ Some v.
Proof.
  intros Hv. unfold indexOf.
  destruct (list_find (λ a, a = v) l) as [[i x]|] eqn:Hf.
  - apply list_find_Some in Hf as (Hl & -> & Hmin).
    exists i. split; [done|]. split; [done|].
    intros j Hj Hlj. by eapply Hmin.
  - apply list_find_None in Hf. rewrite Forall_forall in Hf.
    exfalso. by apply (Hf v).
Qed.

Lemma indexOf_neg (l : list string) v : indexOf l v = -1 → v ∉ l.
Proof.
  intros Hi Hv. apply indexOf_in in Hv as (i & Hi' & _). lia.
Qed.

Lemma indexOf_cases (l : list string) v :
  ((v ∉ l) ∧ indexOf l v = (-1)) ∨
  (∃ i : nat, indexOf l v = Z.of_nat i ∧ l !! i = Some v ∧
              (∀ j : nat, (j < i)%nat → l !! j ≠ Some v)).
Proof.
  destruct (decide (v ∈ l)) as [Hv|Hv].
  - right. by apply indexOf_in.
  - left. split; [done|]. by apply indexOf_not_in.
Qed.

Lemma indexOf_app_new (l : list string) v : v ∉ l → indexOf (l ++ [v]) v = Z.of_nat (length l).
Proof.
  intros Hv.
  assert (Hin : v ∈ l ++ [v]) by (apply elem_of_app; right; by apply list_elem_of_singleton).
  apply indexOf_in in Hin as (i & Hi & Hl & Hmin).
  rewrite Hi. f_equal.
  destruct (decide (i < length l)%nat) as [Hlt|Hge].
  - rewrite lookup_app_l in Hl by done.
    exfalso. apply Hv. by eapply list_elem_of_lookup_2.
  - apply lookup_lt_Some in Hl. rewrite length_app in Hl. simpl in Hl. lia.
Qed.

Lemma indexOf_app_other (l : list string) v v' :
  v' ≠ v → indexOf (l ++ [v]) v' = indexOf l v'.
Proof.
  intros Hne.
  destruct (indexOf_cases l v') as [[Hv Hi]|(i & Hi & Hl & Hmin)].
  - rewrite Hi. apply indexOf_not_in.
    intros [?|?%list_elem_of_singleton]%elem_of_app; done.
  - rewrite Hi.
    assert (Hin : v' ∈ l ++ [v]) by (apply elem_of_app; left; by eapply list_elem_of_lookup_2).
    apply indexOf_in in Hin as (i' & Hi' & Hl' & Hmin').
    rewrite Hi'. f_equal.
    pose proof (lookup_lt_Some _ _ _ Hl) as Hlt.
    destruct (decide (i' < i)%nat) as [H1|H1].
    { exfalso. apply (Hmin i' H1). rewrite lookup_app_l in Hl' by lia. done. }
    destruct (decide (i < i')%nat) as [H2|H2]; [|lia].
    exfalso. apply (Hmin' i H2). rewrite lookup_app_l by lia. done.
Qed.

Lemma indexOf_singleton_same v : indexOf [v] v = 0.
Proof. unfold indexOf. simpl. by rewrite decide_True. Qed.

Lemma indexOf_singleton_other v v' : v' ≠ v → indexOf [v] v' = -1.
Proof. intros ?. apply indexOf_not_in. by intros ?%list_elem_of_singleton. Qed.

(** *** [py_getitem], [py_setitem] at an index in range *)

Lemma py_getitem_nat {A} (l : list A) (i : nat) :
  py_getitem l (Z.of_nat i) = match l !! i with Some a => Ok a | None => Raise end.
Proof.
  unfold py_getitem.
  destruct (Z.ltb_spec (Z.of_nat i) 0); [lia|]. simpl.
  destruct (Z.ltb_spec (Z.of_nat i) 0); [lia|].
  by rewrite Nat2Z.id.
Qed.

Lemma py_setitem_nat {A} (l : list A) (i : nat) v :
  (i < length l)%nat → py_setitem l (Z.of_nat i) v = Ok (<[i := v]> l).
Proof.
  intros Hi. unfold py_setitem.
  destruct (Z.ltb_spec (Z.of_nat i) 0); [lia|]. simpl.
  destruct (Z.ltb_spec (Z.of_nat i) 0); [lia|].
  rewrite Nat2Z.id. by rewrite bool_decide_true.
Qed.

(** *** sort keys *)

Lemma sort_names_differ node : sortKeyParent_name node ≠ sortKey_name node.
Proof. unfold sortKeyParent_name, sortKey_name. intros H%app_cancel_l. discriminate. Qed.

Lemma sortKeyInParent_same_world node parent w :
  (sortKeyInParent node parent w).2 = w.
Proof.
  unfold sortKeyInParent, propertyExists, getStringProperty, getIntProperty. munfold.
  mcase.
Qed.

Lemma sortKeyInParent_unset node parent w :
  parent ∉ sortParents w node →
  (sortKeyInParent node parent w).1 = Ok undefinedKey.
Proof.
  unfold sortParents, sortKeyParent_name.
  unfold sortKeyInParent, propertyExists, getStringProperty, getIntProperty. munfold.
  intros Hp. mcase.
  rewrite (indexOf_not_in _ _ Hp) in *. done.
Qed.

Lemma sortKeyInParent_run node parent w :
  sortKeyInParent node parent w = ((sortKeyInParent node parent w).1, w).
Proof.
  rewrite <- (sortKeyInParent_same_world node parent w) at 3.
  by destruct (sortKeyInParent node parent w).
Qed.

Lemma sortKeyInParent_read node p w ps ks :
  props w !! sortKeyParent_name node = Some (PString ps) →
  props w !! sortKey_name node = Some (PInt ks) →
  (sortKeyInParent node p w).1 = Ok (lookup_key ps ks p).
Proof.
  unfold sortKeyParent_name, sortKey_name, lookup_key.
  unfold sortKeyInParent, propertyExists, getStringProperty, getIntProperty. munfold.
  intros HP HK. rewrite HP. simpl. rewrite HK. simpl. rewrite HP. simpl. rewrite HK. simpl.
  destruct (_ || _); simpl; [done|].
  by destruct (py_getitem _ _).
Qed.

Lemma sortKeyInParent_desync node p w :
  (∀ ps ks, props w !! sortKeyParent_name node = Some (PString ps) →
            props w !! sortKey_name node = Some (PInt ks) →
            length ps ≠ length ks) →
  (sortKeyInParent node p w).1 = Ok undefinedKey.
Proof.
  unfold sortKeyParent_name, sortKey_name.
  unfold sortKeyInParent, propertyExists, getStringProperty, getIntProperty. munfold.
  intros Hd. mcase.
  exfalso. eapply Hd; eauto.
  apply orb_false_iff in H4 as [_ H4]. apply negb_false_iff in H4.
  by apply bool_decide_eq_true in H4.
Qed.

Lemma setSortKeyInParent_props node parent k w :
  sortProps_well_typed w node →
  props (setSortKeyInParent node parent k w).2 =
    match props w !! sortKeyParent_name node, props w !! sortKey_name node with
    | Some (PString ps), Some (PInt ks) =>
        if bool_decide (length ps = length ks) then
          if indexOf ps parent =? -1 then
            <[sortKey_name node := PInt (ks ++ [k])]>
              (<[sortKeyParent_name node := PString (ps ++ [parent])]> (props w))
          else
            <[sortKey_name node := PInt (<[Z.to_nat (indexOf ps parent) := k]> ks)]> (props w)
        else reset_props node parent k (props w)
    | _, _ => reset_props node parent k (props w)
    end.
Proof.
  intros [HwtP HwtK].
  pose proof (sort_names_differ node) as Hne.
  unfold reset_props, sortKeyParent_name, sortKey_name in *.
  destruct (props w !! (node +:+ ".sm_state.sortKeyParent")) as [vP|] eqn:HP.
  - destruct (HwtP _ eq_refl) as [ps ->].
    destruct (props w !! (node +:+ ".sm_state.sortKey")) as [vK|] eqn:HK.
    + destruct (HwtK _ eq_refl) as [ks ->].
      unfold setSortKeyInParent, propertyExists, getStringProperty,
        getIntProperty, setStringProperty, setIntProperty. munfold.
      rewrite HP. simpl. rewrite HK. simpl. rewrite HP. simpl. rewrite HK. simpl.
      case_bool_decide as Hlen.
      * destruct (indexOf_cases ps parent) as [[Hnin Hi]|(i & Hi & Hl & Hmin)].
        -- rewrite Hi. simpl. rewrite HP. simpl.
           rewrite lookup_insert_ne by done. rewrite HK. done.
        -- rewrite Hi. destruct (Z.eqb_spec (Z.of_nat i) (-1)); [lia|].
           rewrite py_setitem_nat by (rewrite <- Hlen; by eapply lookup_lt_Some).
           simpl. rewrite HK. simpl. by rewrite Nat2Z.id.
      * simpl. rewrite HP. simpl. rewrite lookup_insert_ne by done. rewrite HK. done.
    + unfold setSortKeyInParent, propertyExists, getStringProperty,
        getIntProperty, setStringProperty, setIntProperty. munfold.
      rewrite HP. simpl. rewrite HK. simpl. rewrite HP. simpl.
      rewrite lookup_insert_ne by done. rewrite HK. done.
  - unfold setSortKeyInParent, propertyExists, getStringProperty,
      getIntProperty, setStringProperty, setIntProperty. munfold.
    rewrite HP. simpl. rewrite HP. simpl.
    rewrite lookup_insert_ne by done.
    destruct (props w !! (node +:+ ".sm_state.sortKey")) as [vK|] eqn:HK.
    + destruct (HwtK _ eq_refl) as [ks ->]. done.
    + done.
Qed.

Lemma lookup_key_reset parent k p' :
  lookup_key [parent] [k] p' = if bool_decide (p' = parent) then k else undefinedKey.
Proof.
  unfold lookup_key. destruct (decide (p' = parent)) as [->|Hp].
  - rewrite (bool_decide_true (parent = parent)) by done.
    rewrite indexOf_singleton_same. done.
  - rewrite (bool_decide_false (p' = parent)) by done.
    rewrite indexOf_singleton_other by done. done.
Qed.

Lemma try_except_unit_total {S} (body : M S unit) (s : S) :
  (try_except body (ret tt) s).1 = Ok tt.
Proof. unfold try_except, ret. by destruct (body s) as [[[]|] ?]. Qed.

Lemma setSortKeyInParent_returns node parent k w :
  (setSortKeyInParent node parent k w).1 = Ok tt.
Proof. apply try_except_unit_total. Qed.

Lemma sortKey_round_trip_aux (node parent : string) (k : Z) (w : World) :
  sortProps_well_typed w node →
  let w' := (setSortKeyInParent node parent k w).2 in
  (sortKeyInParent node parent w').1 = Ok k ∧
  (∀ p', p' ≠ parent →
     (sortKeyInParent node p' w').1 = (sortKeyInParent node p' w).1) ∧
  (∀ p', p' ∉ sortParents w node → (sortKeyInParent node p' w).1 = Ok undefinedKey).
Proof.
  intros Hwt. simpl.
  pose proof (setSortKeyInParent_props node parent k w Hwt) as Hprops.
  pose proof (sort_names_differ node) as Hne.
  set (w' := (setSortKeyInParent node parent k w).2) in *.
  assert (Hreset : props w' = reset_props node parent k (props w) →
            (∀ ps ks, props w !! sortKeyParent_name node = Some (PString ps) →
                      props w !! sortKey_name node = Some (PInt ks) →
                      length ps ≠ length ks) →
            (sortKeyInParent node parent w').1 = Ok k ∧
            (∀ p', p' ≠ parent →
               (sortKeyInParent node p' w').1 = (sortKeyInParent node p' w).1)).
  { intros Hw' Hd.
    assert (HP' : props w' !! sortKeyParent_name node = Some (PString [parent])).
    { rewrite Hw'. unfold reset_props.
      rewrite lookup_insert_ne by done. by rewrite lookup_insert_eq. }
    assert (HK' : props w' !! sortKey_name node = Some (PInt [k])).
    { rewrite Hw'. unfold reset_props. by rewrite lookup_insert_eq. }
    split.
    - rewrite (sortKeyInParent_read _ _ _ _ _ HP' HK'), lookup_key_reset.
      by rewrite bool_decide_true.
    - intros p' Hp'.
      rewrite (sortKeyInParent_read _ _ _ _ _ HP' HK'), lookup_key_reset.
      rewrite bool_decide_false by done.
      symmetry. by apply sortKeyInParent_desync. }
  split; [|split; [|intros; by apply sortKeyInParent_unset]].
  - destruct (props w !! sortKeyParent_name node) as [[ps|?]|] eqn:HP;
      try (apply Hreset; [done|intros; congruence]).
    destruct (props w !! sortKey_name node) as [[?|ks]|] eqn:HK;
      try (apply Hreset; [done|intros; congruence]).
    case_bool_decide as Hlen;
      [|apply Hreset; [done|intros; congruence]].
    destruct (indexOf_cases ps parent) as [[Hnin Hi]|(i & Hi & Hl & Hmin)].
    + rewrite Hi in Hprops. simpl in Hprops.
      erewrite sortKeyInParent_read.
      2:{ rewrite Hprops. rewrite lookup_insert_ne by done. by rewrite lookup_insert_eq. }
      2:{ rewrite Hprops. by rewrite lookup_insert_eq. }
      unfold lookup_key. rewrite indexOf_app_new by done.
      rewrite !length_app. simpl. rewrite bool_decide_true by lia.
      destruct (Z.eqb_spec (Z.of_nat (length ps)) (-1)); [lia|]. simpl.
      rewrite py_getitem_nat. rewrite Hlen.
      rewrite lookup_app_r by lia. by rewrite Nat.sub_diag.
    + rewrite Hi in Hprops.
      destruct (Z.eqb_spec (Z.of_nat i) (-1)); [lia|].
      rewrite Nat2Z.id in Hprops.
      erewrite sortKeyInParent_read.
      2:{ rewrite Hprops. rewrite lookup_insert_ne by done. exact HP. }
      2:{ rewrite Hprops. by rewrite lookup_insert_eq. }
      unfold lookup_key. rewrite Hi.
      destruct (Z.eqb_spec (Z.of_nat i) (-1)); [lia|]. simpl.
      rewrite length_insert. rewrite bool_decide_true by done. simpl.
      rewrite py_getitem_nat.
      rewrite list_lookup_insert_eq; [done|].
      rewrite <- Hlen. by eapply lookup_lt_Some.
  - intros p' Hp'.
    destruct (props w !! sortKeyParent_name node) as [[ps|?]|] eqn:HP;
      try (apply Hreset; [done|intros; congruence|done]).
    destruct (props w !! sortKey_name node) as [[?|ks]|] eqn:HK;
      try (apply Hreset; [done|intros; congruence|done]).
    case_bool_decide as Hlen;
      [|apply Hreset; [done|intros; congruence|done]].
    rewrite (sortKeyInParent_read node p' w ps ks HP HK).
    destruct (indexOf_cases ps parent) as [[Hnin Hi]|(i & Hi & Hl & Hmin)].
    + rewrite Hi in Hprops. simpl in Hprops.
      erewrite sortKeyInParent_read.
      2:{ rewrite Hprops. rewrite lookup_insert_ne by done. by rewrite lookup_insert_eq. }
      2:{ rewrite Hprops. by rewrite lookup_insert_eq. }
      f_equal. unfold lookup_key. rewrite indexOf_app_other by done.
      rewrite !length_app. simpl.
      rewrite (bool_decide_true (length ks = length ps)) by done.
      rewrite bool_decide_true by lia.
      destruct (indexOf_cases ps p') as [[? Hi']|(j & Hj & Hlj & _)].
      * rewrite Hi'. done.
      * rewrite Hj. destruct (Z.eqb_spec (Z.of_nat j) (-1)); [lia|]. simpl.
        rewrite !py_getitem_nat.
        rewrite lookup_app_l; [done|].
        rewrite <- Hlen. by eapply lookup_lt_Some.
    + rewrite Hi in Hprops.
      destruct (Z.eqb_spec (Z.of_nat i) (-1)); [lia|].
      rewrite Nat2Z.id in Hprops.
      erewrite sortKeyInParent_read.
      2:{ rewrite Hprops. rewrite lookup_insert_ne by done. exact HP. }
      2:{ rewrite Hprops. by rewrite lookup_insert_eq. }
      f_equal. unfold lookup_key. rewrite length_insert.
      destruct (indexOf_cases ps p') as [[? Hi']|(j & Hj & Hlj & _)].
      * rewrite Hi'. done.
      * rewrite Hj. destruct (Z.eqb_spec (Z.of_nat j) (-1)); [lia|]. simpl.
        destruct (negb _); [done|].
        rewrite !py_getitem_nat.
        rewrite list_lookup_insert_ne; [done|].
        intros ->. congruence.
Qed.

Lemma sortedWorld_well_typed : sortProps_well_typed sortedWorld "n".
Proof.
  split; intros v Hv; vm_compute in Hv; injection Hv as <-; eauto.
Qed.

(** C5: sort key round trip.  In a world where the two sort-key properties of
    [node], if they exist, are a string array and an integer array, storing
    [k] for [(node, parent)] and reading the pair back gives [k], for every
    integer [k]; the keys read for every other parent of [node] are what
    they were; and a parent that is not among the stored parents reads as
    the undefined sentinel 2147483547. *)
Theorem sortKey_round_trip (node parent : string) (k : Z) (w : World) :
  sortProps_well_typed w node →
  let w' := (setSortKeyInParent node parent k w).2 in
  (setSortKeyInParent node parent k w).1 = Ok tt ∧
  sortKeyInParent node parent w' = (Ok k, w') ∧
  (∀ p', p' ≠ parent →
     (sortKeyInParent node p' w').1 = (sortKeyInParent node p' w).1) ∧
  (∀ p', p' ∉ sortParents w node →
     (sortKeyInParent node p' w).1 = Ok undefinedKey) ∧
  undefinedKey = INT_MAX - 100.
Proof.
  intros Hwt w'. subst w'.
  destruct (sortKey_round_trip_aux node parent k w Hwt) as (Hget & Hother & Hunset).
  split; [apply setSortKeyInParent_returns|].
  split; [by rewrite sortKeyInParent_run, Hget|].
  done.
Qed.

(** The round trip at [INT_MAX], in a world that already holds a key of the
    same node under another parent. *)
Lemma sortKey_round_trip_witness :
  sortProps_well_typed sortedWorld "n" ∧
  (let w' := (setSortKeyInParent "n" "p" INT_MAX sortedWorld).2 in
   (setSortKeyInParent "n" "p" INT_MAX sortedWorld).1 = Ok tt ∧
   sortKeyInParent "n" "p" w' = (Ok INT_MAX, w') ∧
   (∀ p', p' ≠ "p" →
      (sortKeyInParent "n" p' w').1 = (sortKeyInParent "n" p' sortedWorld).1) ∧
   (∀ p', p' ∉ sortParents sortedWorld "n" →
      (sortKeyInParent "n" p' sortedWorld).1 = Ok undefinedKey) ∧
   undefinedKey = INT_MAX - 100).
Proof.
  assert (Hwt : sortProps_well_typed sortedWorld "n").
  { split; intros v Hv; vm_compute in Hv; injection Hv as <-; eauto. }
  split; [exact Hwt|].
  exact (sortKey_round_trip "n" "p" INT_MAX sortedWorld Hwt).
Defined.

Example sortKey_negative_and_unset :
  let w := (setSortKeyInParent "n" "p" (-5) sortedWorld).2 in
  (sortKeyInParent "n" "p" w).1 = Ok (-5) ∧
  (sortKeyInParent "n" "q" w).1 = Ok 7 ∧
  (sortKeyInParent "n" "r" w).1 = Ok 2147483547 ∧
  (sortKeyInParent "m" "p" w).1 = Ok 2147483547.
Proof. vm_compute. done. Qed.

(** ** Expansion state *)

Lemma remove_not_in (l : list string) v : v ∉ remove l v.
Proof. unfold remove. intros [Hne _]%list_elem_of_filter. by apply Hne. Qed.

Lemma isExpandedInParent_read node parent w ps :
  props w !! expandState_name node = Some (PString ps) →
  isExpandedInParent node parent w = (Ok (py_in parent ps), w).
Proof.
  unfold expandState_name, isExpandedInParent, propertyExists, getStringProperty.
  munfold. intros HP. rewrite HP. simpl. rewrite HP. done.
Qed.

Lemma isExpandedInParent_missing node parent w :
  props w !! expandState_name node = None →
  isExpandedInParent node parent w = (Ok false, w).
Proof.
  unfold expandState_name, isExpandedInParent, propertyExists, getStringProperty.
  munfold. intros HP. rewrite HP. done.
Qed.

Lemma setExpandedInParent_present node parent expanded w ps :
  props w !! expandState_name node = Some (PString ps) →
  setExpandedInParent node parent expanded w =
    (Ok tt,
     if py_in parent ps && negb expanded then
       set_props (<[expandState_name node := PString (remove ps parent)]>) w
     else if negb (py_in parent ps) && expanded then
       set_props (<[expandState_name node := PString (ps ++ [parent])]>) w
     else w).
Proof.
  unfold expandState_name, setExpandedInParent, propertyExists, getStringProperty,
    setStringProperty.
  munfold. intros HP. rewrite HP. simpl. rewrite HP. simpl.
  destruct (py_in parent ps), expanded; simpl; rewrite ?HP; done.
Qed.

Lemma setExpandedInParent_missing node parent expanded w :
  props w !! expandState_name node = None →
  setExpandedInParent node parent expanded w =
    (Ok tt, set_props (<[expandState_name node := PString [parent]]>) w).
Proof.
  unfold expandState_name, setExpandedInParent, propertyExists, getStringProperty,
    setStringProperty.
  munfold. intros HP. rewrite HP. simpl. rewrite HP. done.
Qed.

(** Setting expanded twice and collapsed once leaves the pair collapsed. *)
Lemma expand_twice_collapse_once node parent w :
  (∀ v, props w !! expandState_name node = Some v → ∃ ps, v = PString ps) →
  let w1 := (setExpandedInParent node parent true w).2 in
  let w2 := (setExpandedInParent node parent true w1).2 in
  let w3 := (setExpandedInParent node parent false w2).2 in
  isExpandedInParent node parent w3 = (Ok false, w3).
Proof.
  intros Hwt. simpl.
  assert (H1 : ∃ ps, props (setExpandedInParent node parent true w).2
                       !! expandState_name node = Some (PString ps) ∧ parent ∈ ps).
  { destruct (props w !! expandState_name node) as [v|] eqn:HP.
    - destruct (Hwt v eq_refl) as [ps ->].
      rewrite (setExpandedInParent_present _ _ _ _ _ HP). simpl.
      unfold py_in. case_bool_decide as Hin; simpl.
      + eauto.
      + exists (ps ++ [parent]). rewrite lookup_insert_eq. split; [done|].
        apply elem_of_app. right. by apply list_elem_of_singleton.
    - rewrite (setExpandedInParent_missing _ _ _ _ HP). simpl.
      exists [parent]. rewrite lookup_insert_eq. split; [done|].
      by apply list_elem_of_singleton. }
  destruct H1 as (ps & HP1 & Hin).
  set (w1 := (setExpandedInParent node parent true w).2) in *.
  assert (H2 : setExpandedInParent node parent true w1 = (Ok tt, w1)).
  { rewrite (setExpandedInParent_present _ _ true _ _ HP1).
    unfold py_in. rewrite bool_decide_true by done. done. }
  rewrite H2. simpl.
  assert (H3 : setExpandedInParent node parent false w1 =
    (Ok tt, set_props (<[expandState_name node := PString (remove ps parent)]>) w1)).
  { rewrite (setExpandedInParent_present _ _ false _ _ HP1).
    unfold py_in. rewrite bool_decide_true by done. done. }
  rewrite H3. simpl.
  erewrite isExpandedInParent_read by (simpl; apply lookup_insert_eq).
  unfold py_in. rewrite bool_decide_false; [done|]. apply remove_not_in.
Qed.

(** Where the expansion property exists, collapsing a key it does not hold
    changes nothing. *)
Lemma collapse_unseen_with_property node parent w ps :
  props w !! expandState_name node = Some (PString ps) →
  parent ∉ ps →
  setExpandedInParent node parent false w = (Ok tt, w) ∧
  isExpandedInParent node parent w = (Ok false, w).
Proof.
  intros HP Hnin. split.
  - rewrite (setExpandedInParent_present _ _ _ _ _ HP).
    unfold py_in. rewrite bool_decide_false by done. done.
  - rewrite (isExpandedInParent_read _ _ _ _ HP).
    unfold py_in. by rewrite bool_decide_false.
Qed.

(** Where the expansion property does not exist yet, "collapsing" a key
    creates the property holding that key, and the pair then reads as
    expanded. *)
Lemma collapse_unseen_without_property node parent w :
  props w !! expandState_name node = None →
  let w' := (setExpandedInParent node parent false w).2 in
  isExpandedInParent node parent w = (Ok false, w) ∧
  props w' !! expandState_name node = Some (PString [parent]) ∧
  isExpandedInParent node parent w' = (Ok true, w').
Proof.
  intros HP. simpl. split; [by apply isExpandedInParent_missing|].
  rewrite (setExpandedInParent_missing _ _ _ _ HP). simpl.
  rewrite lookup_insert_eq. split; [done|].
  erewrite isExpandedInParent_read by (simpl; apply lookup_insert_eq).
  unfold py_in. rewrite bool_decide_true; [done|]. by apply list_elem_of_singleton.
Qed.

(** C6, the failing input: on a node without an expansion property,
    [setExpandedInParent(node, parent, False)] is not a no-op: afterwards
    [isExpandedInParent(node, parent)] answers [True]. *)
Theorem setExpandedInParent_false_on_fresh_node_expands :
  isExpandedInParent "n" "p" emptyWorld = (Ok false, emptyWorld) ∧
  (let w' := (setExpandedInParent "n" "p" false emptyWorld).2 in
   props w' = {[ "n.sm_state.expandState" := PString ["p"] ]} ∧
   isExpandedInParent "n" "p" w' = (Ok true, w')).
Proof. vm_compute. done. Qed.

(** ** Edit-node pairs *)

(** C9: when the number of [RVTransform2D] infos the host reports differs
    from the number of direct inputs of the view node, [findEditingNodes]
    builds no pair: it returns with an empty edit-node list and has touched
    nothing else, in particular no tag property of any node. *)
Theorem findEditingNodes_size_mismatch
    (setStates : bool) (w : World) (vnode : string) (rec : NodeRec)
    (infos : list string) :
  currentView w = Some vnode →
  nodes w !! vnode = Some rec →
  transformInfos w = Ok infos →
  length infos ≠ length (ninputs rec) →
  findEditingNodes setStates w = (Ok tt, set_editNodes [] w).
Proof.
  intros Hv Hn Hi Hlen.
  unfold findEditingNodes, viewNode, metaEvaluateClosestByType, nodeConnections.
  munfold. rewrite Hv. simpl. rewrite Hi. simpl. rewrite Hn. simpl.
  by rewrite bool_decide_false.
Qed.

(** One info against two inputs: the two stale pairs are dropped, none is
    made, and the property store stays empty. *)
Lemma findEditingNodes_size_mismatch_witness :
  currentView mismatchWorld = Some "V" ∧
  nodes mismatchWorld !! "V" = Some (mkNode "RVLayoutGroup" ["A"; "B"]) ∧
  transformInfos mismatchWorld = Ok ["V_t_A"] ∧
  length ["V_t_A"] ≠ length (ninputs (mkNode "RVLayoutGroup" ["A"; "B"])) ∧
  findEditingNodes true mismatchWorld = (Ok tt, set_editNodes [] mismatchWorld).
Proof.
  assert (H1 : currentView mismatchWorld = Some "V") by reflexivity.
  assert (H2 : nodes mismatchWorld !! "V" = Some (mkNode "RVLayoutGroup" ["A"; "B"]))
    by (vm_compute; reflexivity).
  assert (H3 : transformInfos mismatchWorld = Ok ["V_t_A"]) by reflexivity.
  assert (H4 : length ["V_t_A"] ≠ length (ninputs (mkNode "RVLayoutGroup" ["A"; "B"])))
    by (simpl; lia).
  repeat (split; [assumption|]).
  exact (findEditingNodes_size_mismatch true mismatchWorld "V" _ _ H1 H2 H3 H4).
Defined.

(** For contrast, with as many infos as inputs the pairs are rebuilt and the
    tags are written. *)
Example findEditingNodes_rebuilds_on_match :
  let w := mkWorld (nodes mismatchWorld) ∅ ∅ ∅ (Some "V") ∅ (Ok ["V_t_A"; "V_t_B"]) []
                   false false false [] IgnoreAction [] [] [] in
  _editNodes (findEditingNodes true w).2 =
    [mkEditNodePair "V_t_A" "A"; mkEditNodePair "V_t_B" "B"] ∧
  props (findEditingNodes true w).2 !! "V_t_A.tag.tmanip" = Some (PString ["V_t_A"]).
Proof. vm_compute. done. Qed.

(** ** Input lists *)

Lemma nodeExists_run n w :
  nodeExists n w = (Ok (bool_decide (is_Some (nodes w !! n))), w).
Proof. done. Qed.

Lemma nodeConnections_Some n w r :
  nodes w !! n = Some r →
  nodeConnections n w = (Ok (ninputs r, outputs_in (nodes w) n), w).
Proof. intros Hn. unfold nodeConnections. munfold. by rewrite Hn. Qed.

Lemma nodeConnections_None n w :
  nodes w !! n = None → nodeConnections n w = (Raise, w).
Proof. intros Hn. unfold nodeConnections. munfold. by rewrite Hn. Qed.

Lemma nodeType_Some n w r :
  nodes w !! n = Some r → nodeType n w = (Ok (ntype r), w).
Proof. intros Hn. unfold nodeType. munfold. by rewrite Hn. Qed.

(** *** [setInputs]: its outcomes *)

Lemma setInputs_cases `{HostPolicy} node inputs w :
  match testNodeInputs_policy (nodes w) node inputs with
  | Ok None =>
      match nodes w !! node with
      | Some r => setInputs node inputs w = (Ok true, after_commit node r inputs w)
      | None => setInputs node inputs w =
                  (Ok false, log_call (CSetNodeInputs node inputs)
                               (after_test node inputs w))
      end
  | Ok (Some msg) => setInputs node inputs w = (Ok false, after_alert node inputs msg w)
  | Raise => setInputs node inputs w = (Ok false, after_test node inputs w)
  end.
Proof.
  unfold setInputs, testNodeInputs, alertPanel, setNodeInputs, after_commit,
    after_alert, after_test. munfold. simpl.
  destruct (testNodeInputs_policy (nodes w) node inputs) as [[msg|]|]; simpl; try done.
  destruct (nodes w !! node); done.
Qed.

Lemma hasInput_Some_node n x w r :
  n ≠ "" → nodes w !! n = Some r →
  hasInput (Some n) x w = (Ok (py_in x (ninputs r)), w).
Proof.
  intros Hne Hn. unfold hasInput. rewrite bool_decide_false by done.
  unfold try_except. munfold. by rewrite (nodeConnections_Some _ _ _ Hn).
Qed.

Lemma hasInput_no_node n x w :
  n ≠ "" → nodes w !! n = None → hasInput (Some n) x w = (Ok false, w).
Proof.
  intros Hne Hn. unfold hasInput. rewrite bool_decide_false by done.
  unfold try_except. munfold. by rewrite (nodeConnections_None _ _ Hn).
Qed.

Lemma addInput_Some `{HostPolicy} n x w r :
  nodes w !! n = Some r →
  addInput n x w = setInputs n (ninputs r ++ [x]) w.
Proof.
  intros Hn. unfold addInput. munfold. simpl. rewrite Hn. simpl.
  rewrite (nodeConnections_Some _ _ _ Hn). simpl.
  pose proof (setInputs_cases n (ninputs r ++ [x]) w) as Hc.
  destruct (testNodeInputs_policy _ _ _) as [[?|]|]; try rewrite Hn in Hc;
    by rewrite Hc.
Qed.

Lemma addInput_None `{HostPolicy} n x w :
  nodes w !! n = None → addInput n x w = (Ok true, w).
Proof. intros Hn. unfold addInput. munfold. simpl. by rewrite Hn. Qed.

Lemma removeInput_Some `{HostPolicy} n x w r :
  n ≠ "" → nodes w !! n = Some r →
  removeInput n x w = setInputs n (filter (λ y, y ≠ x) (ninputs r)) w.
Proof.
  intros Hne Hn. unfold removeInput. rewrite bool_decide_true by done.
  munfold. rewrite (nodeConnections_Some _ _ _ Hn). simpl.
  pose proof (setInputs_cases n (filter (λ y, y ≠ x) (ninputs r)) w) as Hc.
  destruct (testNodeInputs_policy _ _ _) as [[?|]|]; try rewrite Hn in Hc;
    by rewrite Hc.
Qed.

Lemma sortFolderChildren_run folder w :
  ∃ fs, sortFolderChildren folder w = (Ok tt, set_sortFolders fs w).
Proof.
  unfold sortFolderChildren. munfold.
  destruct (nodes w !! folder) as [r|] eqn:Hn.
  - rewrite (nodeType_Some _ _ _ Hn). simpl.
    case_bool_decide; simpl; [|by exists (_sortFolders w); destruct w].
    destruct (py_in _ _); simpl; [by exists (_sortFolders w); destruct w|eauto].
  - unfold nodeType. munfold. rewrite Hn. simpl.
    by exists (_sortFolders w); destruct w.
Qed.

Lemma existsAndIsFolder_run parent w :
  ∃ b, existsAndIsFolder parent w = (Ok b, w).
Proof.
  destruct parent as [p|]; [|by eexists].
  unfold existsAndIsFolder. munfold. simpl.
  destruct (nodes w !! p) as [r|] eqn:Hn; simpl; [|by eexists].
  rewrite (nodeType_Some _ _ _ Hn). by eexists.
Qed.

(** ** Drops handled as a copy *)

Lemma set_sortFolders_same w : set_sortFolders (_sortFolders w) w = w.
Proof. by destruct w. Qed.

Lemma bind_run {S A B} (m : M S A) (k : A → M S B) (s s' : S) (r : result A) :
  m s = (r, s') →
  bind m k s = match r with Ok a => k a s' | Raise => (Raise, s') end.
Proof. intros Hm. unfold bind. by rewrite Hm. Qed.

(** Expose the binds of a definition just unfolded. *)
Ltac mbinds := unfold mbind, M_bind in *.

(** Reduce what a step leaves, without unfolding the callees. *)
Ltac mred := cbv beta iota; cbn [negb andb orb fst snd].

(** Run the first statement of a sequence, given what it does. *)
Ltac mstep H := rewrite (bind_run _ _ _ _ _ H); mred.
Ltac mstep_refl := erewrite bind_run by reflexivity; mred.

(** The tail both drop branches share: queue the new parent for sorting if it
    is a folder, and hand the item back. *)
Lemma folder_tail (c : bool) (parent : option string) (item' : Item) (w : World) :
  ∃ fs,
    bind (if c then existsAndIsFolder parent else ret false)
      (λ f, bind (when f (sortFolderChildren_opt parent)) (λ _, ret item')) w
    = (Ok item', set_sortFolders fs w).
Proof.
  assert (Hb : ∃ b, (if c then existsAndIsFolder parent else ret false) w = (Ok b, w)).
  { destruct c; [apply existsAndIsFolder_run|by eexists]. }
  destruct Hb as [b Hb]. rewrite (bind_run _ _ _ _ _ Hb).
  destruct b; simpl.
  - destruct parent as [p|]; simpl.
    + destruct (sortFolderChildren_run p w) as [fs Hfs].
      rewrite (bind_run _ _ _ _ _ Hfs). by exists fs.
    + exists (_sortFolders w). by rewrite set_sortFolders_same.
  - exists (_sortFolders w). by rewrite set_sortFolders_same.
Qed.

Lemma viewItemChanged_copy_cases `{HostPolicy} (item : Item) (w : World) :
  _dropAction w = CopyAction →
  let node := itemNode (Some item) in
  let parent := parentOf item in
  viewItemChanged item w = (Ok item, w) ∨
  ∃ fs W,
    viewItemChanged item w =
      (Ok (setData_PARENT_NODE parent item), set_sortFolders fs W) ∧
    (W = w ∨
     ∃ p r, parent = Some p ∧ p ≠ "" ∧ nodes w !! p = Some r ∧
            (node ∉ ninputs r) ∧
            (W = after_commit p r (ninputs r ++ [node]) w ∨
             (∃ msg, W = after_alert p (ninputs r ++ [node]) msg w) ∨
             W = after_test p (ninputs r ++ [node]) w)).
Proof.
  intros Hcopy node parent.
  unfold viewItemChanged. fold (parentOf item). fold parent. fold node. mbinds.
  mstep_refl. mstep_refl.
  rewrite Hcopy. rewrite bool_decide_true by done.
  assert (Hskip : ∀ b, hasInput parent node w = (Ok true, w) →
            bind (hasInput parent node) (λ h : bool, if negb h then b else ret item) w
            = (Ok item, w)).
  { intros b Hh. by mstep Hh. }
  destruct parent as [p|] eqn:Hparent; [|left; by apply Hskip].
  destruct (decide (p = "")) as [->|Hp].
  { left. apply Hskip. unfold hasInput. by rewrite bool_decide_true. }
  destruct (nodes w !! p) as [r|] eqn:Hn.
  - pose proof (hasInput_Some_node _ node _ _ Hp Hn) as Hh.
    unfold py_in in Hh. case_bool_decide as Hin; [left; by apply Hskip|].
    right. mstep Hh.
    unfold addInput_opt.
    pose proof (setInputs_cases p (ninputs r ++ [node]) w) as Hc.
    rewrite Hn in Hc.
    assert (Hadd : ∃ b W, addInput p node w = (Ok b, W) ∧
              (W = after_commit p r (ninputs r ++ [node]) w ∨
               (∃ msg, W = after_alert p (ninputs r ++ [node]) msg w) ∨
               W = after_test p (ninputs r ++ [node]) w)).
    { rewrite (addInput_Some _ _ _ _ Hn).
      destruct (testNodeInputs_policy _ _ _) as [[msg|]|]; rewrite Hc;
        eexists _, _; (split; [done|]); eauto. }
    destruct Hadd as (b & W & Hadd & HW).
    mstep Hadd.
    destruct (folder_tail (truthy (Some p)) (Some p)
                (setData_PARENT_NODE (Some p) item) W) as [fs Hfs].
    exists fs, W. split; [exact Hfs|]. right. exists p, r. done.
  - pose proof (hasInput_no_node _ node _ Hp Hn) as Hh.
    right. mstep Hh.
    unfold addInput_opt. mstep (addInput_None p node w Hn).
    destruct (folder_tail (truthy (Some p)) (Some p)
                (setData_PARENT_NODE (Some p) item) w) as [fs Hfs].
    exists fs, w. split; [exact Hfs|]. by left.
Qed.

Lemma inputs_of_after_commit p r l w n :
  inputs_of (after_commit p r l w) n = if decide (p = n) then l else inputs_of w n.
Proof.
  unfold inputs_of, after_commit. simpl. rewrite lookup_insert.
  by destruct (decide (p = n)).
Qed.

Lemma calls_after_commit p r l w :
  calls (after_commit p r l w) = calls w ++ [CTestNodeInputs p l; CSetNodeInputs p l].
Proof. unfold after_commit, after_test. simpl. by rewrite <- app_assoc. Qed.

Lemma calls_after_alert p l msg w :
  calls (after_alert p l msg w) =
    calls w ++ [CTestNodeInputs p l; CAlertPanel "Some inputs are not allowed here" msg].
Proof. unfold after_alert, after_test. simpl. by rewrite <- app_assoc. Qed.

Example copy_drop_accepted :
  let w' := (@viewItemChanged acceptAll itemX_under_B copyWorld).2 in
  inputs_of w' "A" = ["X"] ∧ inputs_of w' "B" = ["X"] ∧
  calls w' = [CTestNodeInputs "B" ["X"]; CSetNodeInputs "B" ["X"]] ∧
  _sortFolders w' = ["B"].
Proof. vm_compute. done. Qed.

(** ** Deleting a tree item *)

Lemma outputs_in_exist (g : gmap string NodeRec) (n o : string) :
  o ∈ outputs_in g n → is_Some (g !! o).
Proof.
  unfold outputs_in. intros ([o' r] & -> & Hf)%list_elem_of_fmap.
  apply list_elem_of_filter in Hf as [_ Hm].
  apply elem_of_map_to_list in Hm. simpl. eauto.
Qed.

Lemma count_folders_run (outs : list string) (w : World) :
  (∀ o, o ∈ outs → is_Some (nodes w !! o)) →
  count_folders outs w =
    (Ok (Z.of_nat (length (filter (λ o, type_of w o = Some "RVFolderGroup") outs))), w).
Proof.
  induction outs as [|o outs IH]; intros Hex; [done|].
  destruct (Hex o ltac:(left)) as [r Hr].
  assert (IH' := IH (λ o' Ho', Hex o' ltac:(by right))).
  cbn [count_folders]. mstep (nodeType_Some _ _ _ Hr). mstep IH'.
  unfold ret. f_equal. f_equal.
  rewrite filter_cons.
  assert (Hty : type_of w o = Some (ntype r)) by (unfold type_of; by rewrite Hr).
  rewrite Hty.
  case_bool_decide as Hf.
  - rewrite decide_True by (by rewrite Hf). simpl length. lia.
  - rewrite decide_False by (intros [=]; done). lia.
Qed.

Lemma type_of_after_commit p r l w n :
  nodes w !! p = Some r →
  type_of (after_commit p r l w) n = type_of w n.
Proof.
  intros Hp. unfold type_of, after_commit. simpl. rewrite lookup_insert.
  destruct (decide (p = n)) as [<-|]; [by rewrite Hp|done].
Qed.

Lemma deleteNode_Some n w r :
  nodes w !! n = Some r →
  deleteNode n w =
    (Ok tt,
     set_nodes (λ g, (λ r, mkNode (ntype r) (filter (λ x, x ≠ n) (ninputs r)))
                       <$> delete n g)
               (log_call (CDeleteNode n) w)).
Proof. intros Hn. unfold deleteNode. munfold. simpl. by rewrite Hn. Qed.

(** C10: deleting a tree item.  When the item's node exists, its stored
    parent is a folder and more than one folder has the node as an input,
    the action keeps every node with its type, leaves every input list other
    than that parent's alone, makes no [deleteNode] call, and the parent's
    list either stays or loses exactly the node (it does lose it when the
    host's pre-check allows the shorter list).  In every other case the node
    is not in the graph afterwards. *)
Theorem delete_unlinks_or_deletes `{HostPolicy} (item : Item) (w : World) :
  let node := itemNode (Some item) in
  let parent := itemParentNode (Some item) in
  let w' := (deleteViewable_item item w).2 in
  (deleteViewable_item item w).1 = Ok tt ∧
  if unlinks_only w item then
    (∀ n, type_of w' n = type_of w n) ∧
    (∀ n, n ≠ parent → inputs_of w' n = inputs_of w n) ∧
    (inputs_of w' parent = inputs_of w parent ∨
     inputs_of w' parent = filter (λ y, y ≠ node) (inputs_of w parent)) ∧
    (parent ≠ "" →
     testNodeInputs_policy (nodes w) parent
       (filter (λ y, y ≠ node) (inputs_of w parent)) = Ok None →
     inputs_of w' parent = filter (λ y, y ≠ node) (inputs_of w parent)) ∧
    (∀ n, CDeleteNode n ∈ calls w' → CDeleteNode n ∈ calls w)
  else nodes w' !! node = None.
Proof.
  intros node parent w'. subst w'.
  split; [apply try_except_unit_total|].
  unfold unlinks_only. fold node parent.
  unfold deleteViewable_item. fold node parent. mbinds. unfold try_except.
  destruct (nodes w !! node) as [rn|] eqn:Hnode; cycle 1.
  { rewrite bool_decide_false by (by intros [? ?]). simpl.
    rewrite (bind_run _ _ _ _ _ (nodeConnections_None _ _ Hnode)). done. }
  rewrite bool_decide_true by eauto. cbn [andb].
  mstep (nodeConnections_Some _ _ _ Hnode). cbn [snd].
  mstep (nodeExists_run parent w).
  pose proof (count_folders_run (outputs_in (nodes w) node) w
                (λ o, outputs_in_exist _ _ _)) as Hcount.
  fold (folder_outputs w node) in Hcount.
  assert (Hty : ∃ t, (if bool_decide (is_Some (nodes w !! parent))
                      then nodeType parent else ret "") w = (Ok t, w) ∧
             (t = "RVFolderGroup" ↔ type_of w parent = Some "RVFolderGroup")).
  { unfold type_of. destruct (nodes w !! parent) as [rp|] eqn:Hp.
    - rewrite bool_decide_true by eauto. exists (ntype rp).
      rewrite (nodeType_Some _ _ _ Hp). split; [done|]. simpl.
      split; [by intros ->|by intros [= ->]].
    - rewrite bool_decide_false by (by intros [? ?]). exists "".
      split; [done|]. simpl. split; intros [=]. }
  destruct Hty as (t & Hty & Hfolder).
  mstep Hty. mstep Hcount.
  assert (Hgt : (1 <? Z.of_nat (folder_outputs w node)) =
                bool_decide (1 < folder_outputs w node)%nat).
  { destruct (decide (1 < folder_outputs w node)%nat).
    - rewrite bool_decide_true by done. apply Z.ltb_lt. lia.
    - rewrite bool_decide_false by done. apply Z.ltb_ge. lia. }
  rewrite Hgt.
  assert (Hb : bool_decide (t = "RVFolderGroup") =
               bool_decide (type_of w parent = Some "RVFolderGroup")).
  { apply bool_decide_ext. done. }
  rewrite Hb.
  destruct (bool_decide (type_of w parent = Some "RVFolderGroup")
            && bool_decide (1 < folder_outputs w node)%nat) eqn:Hcond.
  - (* unlink *)
    apply andb_true_iff in Hcond as [Hpf%bool_decide_eq_true _].
    unfold type_of in Hpf.
    destruct (nodes w !! parent) as [rp|] eqn:Hp; [|done].
    assert (Hin : inputs_of w parent = ninputs rp) by (unfold inputs_of; by rewrite Hp).
    rewrite Hin.
    destruct (decide (parent = "")) as [Hempty|Hne].
    { unfold removeInput. rewrite bool_decide_false by (by intros ?).
      mstep_refl. cbn [snd].
      split; [done|]. split; [done|]. split; [by left|]. split; [done|done]. }
    pose proof (setInputs_cases parent (filter (λ y, y ≠ node) (ninputs rp)) w) as Hc.
    rewrite Hp in Hc. rewrite <- (removeInput_Some _ node _ _ Hne Hp) in Hc.
    destruct (testNodeInputs_policy _ _ _) as [[msg|]|] eqn:Hpol;
      rewrite (bind_run _ _ _ _ _ Hc); mred; unfold ret; cbv beta iota; cbn [snd].
    + rewrite calls_after_alert.
      split; [done|]. split; [done|]. split; [by left|]. split; [done|].
      intros n [?|Hnew]%elem_of_app; [done|].
      apply elem_of_cons in Hnew as [?|Hnew]; [done|].
      by apply list_elem_of_singleton in Hnew.
    + rewrite calls_after_commit.
      split; [intros n; by apply type_of_after_commit|].
      split. { intros n Hn. rewrite inputs_of_after_commit. by rewrite decide_False. }
      rewrite inputs_of_after_commit, decide_True by done.
      split; [by right|]. split; [done|].
      intros n [?|Hnew]%elem_of_app; [done|].
      apply elem_of_cons in Hnew as [?|Hnew]; [done|].
      by apply list_elem_of_singleton in Hnew.
    + split; [done|]. split; [done|]. split; [by left|]. split; [done|].
      unfold after_test. simpl.
      intros n [?|Hnew]%elem_of_app; [done|].
      by apply list_elem_of_singleton in Hnew.
  - (* delete *)
    mstep_refl.
    assert (Hdel : ∀ w0, nodes w0 !! node = Some rn →
              ∃ W, try_except (deleteNode node) (ret tt) w0 = (Ok tt, W) ∧
                   nodes W !! node = None).
    { intros w0 Hw0. unfold try_except.
      rewrite (deleteNode_Some _ _ _ Hw0).
      eexists. split; [reflexivity|]. simpl.
      by rewrite lookup_fmap, lookup_delete_eq. }
    destruct (Hdel (set_disableUpdates true w) Hnode) as (W & HW & Hgone).
    mstep HW. unfold modify. cbn [snd]. exact Hgone.
Qed.

Example delete_shared_node_unlinks :
  unlinks_only sharedWorld itemX_under_A = true ∧
  (let w' := (@deleteViewable_item acceptAll itemX_under_A sharedWorld).2 in
   inputs_of w' "A" = [] ∧ inputs_of w' "B" = ["X"] ∧
   type_of w' "X" = Some "RVSourceGroup" ∧
   calls w' = [CTestNodeInputs "A" []; CSetNodeInputs "A" []]).
Proof. vm_compute. done. Qed.

Example delete_unshared_node_deletes :
  let w := (@deleteViewable_item acceptAll itemX_under_A sharedWorld).2 in
  unlinks_only w (setData_PARENT_NODE (Some "B") itemX_under_A) = false ∧
  (let w' := (@deleteViewable_item acceptAll
                (setData_PARENT_NODE (Some "B") itemX_under_A) w).2 in
   type_of w' "X" = None ∧ inputs_of w' "B" = [] ∧ _disableUpdates w' = false).
Proof. vm_compute. done. Qed.

(** ** Drops handled as a move *)

Lemma filter_ne_idemp (x : string) (l : list string) :
  filter (λ y, y ≠ x) (filter (λ y, y ≠ x) l) = filter (λ y, y ≠ x) l.
Proof.
  induction l as [|a l IH]; [done|].
  rewrite filter_cons. destruct (decide (a ≠ x)) as [Ha|Ha]; [|done].
  rewrite filter_cons, decide_True by done. by rewrite IH.
Qed.

Lemma filter_ne_not_in (x : string) (l : list string) : x ∉ filter (λ y, y ≠ x) l.
Proof. intros [Hne _]%list_elem_of_filter. by apply Hne. Qed.

Lemma occurrences_app x l1 l2 :
  occurrences x (l1 ++ l2) = (occurrences x l1 + occurrences x l2)%nat.
Proof. unfold occurrences. by rewrite filter_app, length_app. Qed.

Lemma occurrences_not_in x l : x ∉ l → occurrences x l = 0%nat.
Proof.
  unfold occurrences. induction l as [|a l IH]; [done|].
  intros Hnin. rewrite filter_cons.
  rewrite decide_False by (intros ->; apply Hnin; left).
  apply IH. intros ?. apply Hnin. by right.
Qed.

Lemma occurrences_in x l : x ∈ l → (1 ≤ occurrences x l)%nat.
Proof.
  unfold occurrences. induction l as [|a l IH]; [by intros ?%elem_of_nil|].
  intros Hin. rewrite filter_cons.
  destruct (decide (a = x)) as [->|Hne]; [simpl; lia|].
  apply IH. apply elem_of_cons in Hin as [->|]; done.
Qed.

(** One round of the move loop, for a path whose first element is [x]. *)
Lemma detach_step `{HostPolicy} (x b : string) (rb : NodeRec) (path : list string)
    (w : World) :
  nodes w !! "" = None →
  nodes w !! b = Some rb →
  head path = Some x →
  Forall allowed (move_removals x b (nodes w) [path]) →
  ∃ w', detachFromFormerParent (Some b) path w = (Ok tt, w') ∧
        (∀ ps, move_removals x b (nodes w) (path :: ps)
               = move_removals x b (nodes w) [path] ++ move_removals x b (nodes w') ps) ∧
        calls w' = calls w ++ flat_map proposal_calls (move_removals x b (nodes w) [path]) ∧
        (∀ n, type_of w' n = type_of w n) ∧
        (∀ n, inputs_of w' n =
              if detaches x b (nodes w) [path] n
              then filter (λ y, y ≠ x) (inputs_of w n) else inputs_of w n).
Proof.
  intros Hempty Hb Hhead Hacc.
  destruct path as [|x' [|p rest]]; simplify_eq/=.
  { exists w. split; [done|]. split; [done|]. split; [by rewrite app_nil_r|].
    split; [done|]. intros n.
    unfold detaches, formerParents. simpl. by rewrite andb_false_r. }
  assert (Hdet : ∀ n, detaches x b (nodes w) [x :: p :: rest] n =
                      bool_decide (n ≠ b) && bool_decide (is_Some (nodes w !! n))
                      && bool_decide (n = p)).
  { intros n. unfold detaches, formerParents. simpl. f_equal.
    apply bool_decide_ext. apply list_elem_of_singleton. }
  mbinds. mstep (nodeExists_run p w).
  destruct (nodes w !! p) as [rp|] eqn:Hp; cycle 1.
  { rewrite bool_decide_false by (by intros [? ?]).
    exists w. split; [done|]. split; [done|]. split; [by rewrite app_nil_r|].
    split; [done|]. intros n. rewrite Hdet.
    destruct (decide (n = p)) as [->|Hn].
    - rewrite Hp. rewrite (bool_decide_false (is_Some None)) by (by intros [? ?]).
      by rewrite andb_false_r.
    - rewrite (bool_decide_false (n = p)) by done. by rewrite andb_false_r. }
  rewrite bool_decide_true by eauto.
  unfold nodeExists_opt. mstep (nodeExists_run b w).
  rewrite Hb. rewrite (bool_decide_true (is_Some (Some rb))) by eauto.
  cbn [negb orb].
  destruct (decide (p = b)) as [->|Hpb].
  { rewrite bool_decide_false by (intros Hne; by apply Hne).
    rewrite (bool_decide_false (b ≠ b)) in * by (intros Hne; by apply Hne).
    exists w. split; [done|]. split; [done|]. split; [by rewrite app_nil_r|].
    split; [done|]. intros n. rewrite Hdet.
    destruct (decide (n = b)) as [->|Hn].
    - rewrite (bool_decide_false (b ≠ b)) by (intros Hne; by apply Hne). done.
    - rewrite (bool_decide_false (n = b)) by done. by rewrite andb_false_r. }
  rewrite bool_decide_true by (intros [=]; done).
  rewrite (bool_decide_true (p ≠ b)) in * by done.
  apply Forall_cons in Hacc as [Hacc _]. unfold allowed in Hacc. cbn [fst snd] in Hacc.
  assert (Hpne : p ≠ "") by (intros ->; congruence).
  pose proof (setInputs_cases p (filter (λ y, y ≠ x) (ninputs rp)) w) as Hc.
  rewrite Hacc in Hc.
  rewrite Hp in Hc. rewrite <- (removeInput_Some _ x _ _ Hpne Hp) in Hc.
  mstep Hc. unfold ret.
  eexists. split; [reflexivity|].
  split; [done|].
  split; [by rewrite calls_after_commit|].
  split; [intros n; by apply type_of_after_commit|].
  intros n. rewrite inputs_of_after_commit, Hdet.
  destruct (decide (p = n)) as [<-|Hn].
  - rewrite !bool_decide_true by eauto. simpl.
    unfold inputs_of. by rewrite Hp.
  - rewrite (bool_decide_false (n = p)) by done. by rewrite andb_false_r.
Qed.

Lemma formerParents_cons path ps n :
  n ∈ formerParents (path :: ps) ↔ n ∈ formerParents [path] ∨ n ∈ formerParents ps.
Proof.
  unfold formerParents. change (path :: ps) with ([path] ++ ps).
  rewrite omap_app. apply elem_of_app.
Qed.

Lemma detaches_cons x b g path ps n :
  detaches x b g (path :: ps) n = detaches x b g [path] n || detaches x b g ps n.
Proof.
  unfold detaches.
  rewrite (bool_decide_ext _ _ (formerParents_cons path ps n)).
  rewrite bool_decide_or.
  destruct (bool_decide (n ≠ b)), (bool_decide (is_Some (g !! n))),
    (bool_decide (n ∈ formerParents [path])); done.
Qed.

Lemma detaches_types x b g g' ps n :
  (ntype <$> g' !! n) = (ntype <$> g !! n) →
  detaches x b g' ps n = detaches x b g ps n.
Proof.
  intros Ht. unfold detaches. do 2 f_equal. apply bool_decide_ext.
  rewrite <- !fmap_is_Some with (f := ntype). by rewrite Ht.
Qed.

Lemma formerParents_filter (P : list string → Prop) `{∀ p, Decision (P p)}
    (paths : list (list string)) (n : string) :
  n ∈ formerParents (filter P paths) → n ∈ formerParents paths.
Proof.
  unfold formerParents. rewrite !list_elem_of_omap.
  intros (path & [_ Hin]%list_elem_of_filter & Hp). eauto.
Qed.

(** The whole move loop: every former parent other than the new one loses
    the dragged node, nothing else changes in the graph, and the host is
    asked exactly the removals. *)
Lemma detach_loop `{HostPolicy} (x b : string) (ps : list (list string)) :
  ∀ w,
    nodes w !! "" = None →
    is_Some (nodes w !! b) →
    Forall allowed (move_removals x b (nodes w) ps) →
    Forall (λ path, head path = Some x) ps →
    ∃ w', for_each ps (detachFromFormerParent (Some b)) w = (Ok tt, w') ∧
          calls w' = calls w ++ flat_map proposal_calls (move_removals x b (nodes w) ps) ∧
          (∀ n, type_of w' n = type_of w n) ∧
          (∀ n, inputs_of w' n =
                if detaches x b (nodes w) ps n
                then filter (λ y, y ≠ x) (inputs_of w n) else inputs_of w n).
Proof.
  induction ps as [|path ps IH]; intros w Hempty [rb Hb] Hacc Hheads.
  { exists w. split; [done|]. split; [by rewrite app_nil_r|].
    split; [done|]. intros n.
    unfold detaches, formerParents. simpl. by rewrite andb_false_r. }
  apply Forall_cons in Hheads as [Hhead Hheads].
  destruct (detach_step x b rb path w Hempty Hb Hhead)
    as (w1 & Hrun & Hsplit & Hcalls & Hty & Hin).
  { assert (Hs : ∃ tl, move_removals x b (nodes w) (path :: ps)
                       = move_removals x b (nodes w) [path] ++ tl).
    { destruct path as [|? [|p ?]]; simpl; try (by eexists).
      destruct (nodes w !! p); [|by eexists].
      destruct (bool_decide (p ≠ b)); by eexists. }
    destruct Hs as [tl Hs]. rewrite Hs in Hacc. by apply Forall_app in Hacc as [? _]. }
  rewrite (Hsplit ps) in Hacc. apply Forall_app in Hacc as [_ Hacc].
  destruct (IH w1) as (w' & Hrun' & Hcalls' & Hty' & Hin'); [| |exact Hacc|exact Hheads|].
  { specialize (Hty ""). unfold type_of in Hty. rewrite Hempty in Hty.
    by destruct (nodes w1 !! ""). }
  { specialize (Hty b). unfold type_of in Hty. rewrite Hb in Hty.
    by destruct (nodes w1 !! b). }
  exists w'. cbn [for_each]. mbinds. mstep Hrun. split; [exact Hrun'|].
  split.
  { rewrite Hcalls', Hcalls, (Hsplit ps), flat_map_app. by rewrite <- app_assoc. }
  split; [intros n; by rewrite Hty', Hty|].
  intros n. rewrite (detaches_cons x b (nodes w) path ps n), Hin', Hin.
  rewrite (detaches_types x b (nodes w) (nodes w1) ps n) by apply Hty.
  destruct (detaches x b (nodes w) [path] n), (detaches x b (nodes w) ps n);
    simpl; try done.
  apply filter_ne_idemp.
Qed.

(** The first half of the move branch: the dragged node is proposed as one
    more input of the new parent unless it is one already. *)
Lemma attach_run `{HostPolicy} (b x : string) (rb : NodeRec) (w : World) :
  b ≠ "" → nodes w !! b = Some rb →
  bind (hasInput (Some b) x)
    (λ h, when (negb h) (bind (addInput_opt (Some b) x) (λ _, ret tt))) w
  = (Ok tt,
     if bool_decide (x ∈ ninputs rb) then w
     else match testNodeInputs_policy (nodes w) b (ninputs rb ++ [x]) with
          | Ok None => after_commit b rb (ninputs rb ++ [x]) w
          | Ok (Some msg) => after_alert b (ninputs rb ++ [x]) msg w
          | Raise => after_test b (ninputs rb ++ [x]) w
          end).
Proof.
  intros Hne Hb.
  mstep (hasInput_Some_node b x w rb Hne Hb). unfold py_in.
  destruct (bool_decide (x ∈ ninputs rb)) eqn:Hin; cbn [negb when]; [done|].
  pose proof (setInputs_cases b (ninputs rb ++ [x]) w) as Hc.
  rewrite <- (addInput_Some _ x _ _ Hb) in Hc. unfold addInput_opt.
  destruct (testNodeInputs_policy (nodes w) b (ninputs rb ++ [x])) as [[msg|]|];
    [|rewrite Hb in Hc|]; by mstep Hc.
Qed.

(** The move branch after that first half has left the world [W]. *)
Lemma move_branch_run `{HostPolicy} (item : Item) (w W : World) (B : string) :
  let X := itemNode (Some item) in
  _dropAction w = MoveAction →
  parentOf item = Some B →
  draggedPathsOf X w ≠ [] →
  B ≠ "" →
  is_Some (nodes w !! B) →
  bind (hasInput (Some B) X)
    (λ h, when (negb h) (bind (addInput_opt (Some B) X) (λ _, ret tt))) w
  = (Ok tt, W) →
  nodes W !! "" = None →
  is_Some (nodes W !! B) →
  Forall allowed (move_removals X B (nodes W) (draggedPathsOf X w)) →
  ∃ item' w',
    viewItemChanged item w = (Ok item', w') ∧
    USER_ROLE_PARENT_NODE item' = Some B ∧
    calls w' = calls W
               ++ flat_map proposal_calls
                    (move_removals X B (nodes W) (draggedPathsOf X w)) ∧
    (∀ n, type_of w' n = type_of W n) ∧
    (∀ n, inputs_of w' n =
          if detaches X B (nodes W) (draggedPathsOf X w) n
          then filter (λ y, y ≠ X) (inputs_of W n) else inputs_of W n).
Proof.
  intros X Hmove Hparent Hpaths HBne HB Hattach HemptyW HBW Hacc.
  assert (Hheads : Forall (λ path, head path = Some X) (draggedPathsOf X w)).
  { apply Forall_forall. intros path [HF _]%list_elem_of_filter.
    destruct path as [|p0 ?]; [done|]. simpl in *.
    apply bool_decide_eq_true in HF. by subst. }
  unfold viewItemChanged. fold (parentOf item). rewrite Hparent. fold X.
  mbinds. unfold filteredDraggedPaths. mstep_refl.
  fold (draggedPathsOf X w). mstep_refl.
  rewrite Hmove.
  rewrite (bool_decide_false (MoveAction = CopyAction)) by done.
  rewrite (bool_decide_true (MoveAction = MoveAction)) by done.
  rewrite (bool_decide_false (draggedPathsOf X w = [])) by done.
  cbn [negb andb]. unfold truthy. rewrite (bool_decide_true (B ≠ "")) by done.
  unfold nodeExists_opt at 1. mstep (nodeExists_run B w).
  rewrite (bool_decide_true (is_Some (nodes w !! B))) by done.
  cbn [when]. mstep Hattach.
  destruct (detach_loop X B (draggedPathsOf X w) W HemptyW HBW Hacc Hheads)
    as (W' & Hloop & Hcalls & Hty & Hin).
  mstep Hloop.
  destruct (folder_tail true (Some B) (setData_PARENT_NODE (Some B) item) W')
    as [fs Hfs].
  cbv beta iota in Hfs. rewrite Hfs.
  eexists _, _. split; [reflexivity|]. split; [done|].
  change (inputs_of (set_sortFolders fs W')) with (inputs_of W').
  change (type_of (set_sortFolders fs W')) with (type_of W').
  change (calls (set_sortFolders fs W')) with (calls W').
  done.
Qed.

Lemma draggedPathsOf_elem (x : string) (w : World) (path : list string) :
  head path = Some x → path ∈ _draggedNodePaths w → path ∈ draggedPathsOf x w.
Proof.
  intros Hhead Hin. apply list_elem_of_filter. split; [|done].
  destruct path as [|p0 ?]; simplify_eq/=. by apply bool_decide_eq_true.
Qed.

Lemma detaches_former_parent (X A B : string) (rest : list string)
    (g : gmap string NodeRec) (paths : list (list string)) :
  (X :: A :: rest) ∈ paths → A ≠ B → is_Some (g !! A) →
  detaches X B g paths A = true.
Proof.
  intros Hpath HAB HA. unfold detaches. rewrite !bool_decide_true; [done| |done|done].
  unfold formerParents. apply list_elem_of_omap. eexists. split; [exact Hpath|done].
Qed.

Lemma detaches_new_parent (X B : string) (g : gmap string NodeRec)
    (paths : list (list string)) :
  detaches X B g paths B = false.
Proof.
  unfold detaches. rewrite (bool_decide_false (B ≠ B)); [done|].
  intros Hne. by apply Hne.
Qed.

(** When the host allows what the move proposes, the move reconciles the
    graph as the specification says: for a drop handled as a move, of the
    node [X] dragged out of [A] and dropped under [B], when no node has the
    empty name, [A] and [B] are different existing nodes, [B] has [X] at
    most once among its inputs and the host's pre-check allows each input
    list the move proposes, the handler returns, [X] is no longer an input
    of [A], [X] is an input of [B] exactly once (appended at the end if it
    was missing, [B]'s list untouched otherwise), the item's stored parent is
    [B], no node changes its type or disappears, and the host calls made are
    those proposals, each tested and then committed. *)
Lemma move_drop_reconciles `{HostPolicy} (item : Item) (w : World)
    (A B : string) (rest : list string) :
  let X := itemNode (Some item) in
  _dropAction w = MoveAction →
  parentOf item = Some B →
  (X :: A :: rest) ∈ _draggedNodePaths w →
  nodes w !! "" = None →
  is_Some (nodes w !! A) →
  is_Some (nodes w !! B) →
  A ≠ B →
  (occurrences X (inputs_of w B) ≤ 1)%nat →
  Forall allowed (move_proposals X B w) →
  ∃ item' w',
    viewItemChanged item w = (Ok item', w') ∧
    USER_ROLE_PARENT_NODE item' = Some B ∧
    (X ∉ inputs_of w' A) ∧
    occurrences X (inputs_of w' B) = 1%nat ∧
    inputs_of w' A = filter (λ y, y ≠ X) (inputs_of w A) ∧
    inputs_of w' B = (if bool_decide (X ∈ inputs_of w B)
                      then inputs_of w B else inputs_of w B ++ [X]) ∧
    (∀ n, type_of w' n = type_of w n) ∧
    calls w' = calls w ++ flat_map proposal_calls (move_proposals X B w).
Proof.
  intros X Hmove Hparent Hpath Hempty [rA HA] [rB HB] HAB Hocc Hacc.
  assert (HBne : B ≠ "") by (intros ->; congruence).
  assert (HpathF : (X :: A :: rest) ∈ draggedPathsOf X w)
    by (by apply draggedPathsOf_elem).
  assert (Hne : draggedPathsOf X w ≠ []).
  { intros Hnil. rewrite Hnil in HpathF. by apply elem_of_nil in HpathF. }
  assert (HinB : inputs_of w B = ninputs rB) by (unfold inputs_of; by rewrite HB).
  pose proof (attach_run B X rB w HBne HB) as Hattach.
  unfold move_proposals in Hacc |- *. rewrite HB in Hacc |- *. rewrite HinB.
  destruct (bool_decide (X ∈ ninputs rB)) eqn:HXB.
  - destruct (move_branch_run item w w B Hmove Hparent Hne HBne ltac:(eauto)
                Hattach Hempty ltac:(eauto) Hacc)
      as (item' & w' & Hrun & Hp & Hcalls & Hty & Hin).
    exists item', w'. split; [exact Hrun|]. split; [done|].
    assert (HwA : inputs_of w' A = filter (λ y, y ≠ X) (inputs_of w A)).
    { rewrite Hin. by rewrite (detaches_former_parent X A B rest) by eauto. }
    assert (HwB : inputs_of w' B = ninputs rB).
    { rewrite Hin. by rewrite detaches_new_parent, HinB. }
    split; [rewrite HwA; apply filter_ne_not_in|].
    split.
    { rewrite HwB. apply bool_decide_eq_true in HXB.
      apply occurrences_in in HXB. rewrite HinB in Hocc. lia. }
    done.
  - apply Forall_cons in Hacc as [HaccB Hacc].
    unfold allowed in HaccB. cbn [fst snd] in HaccB. rewrite HaccB in Hattach.
    set (W := after_commit B rB (ninputs rB ++ [X]) w) in *.
    assert (HtyW : ∀ n, type_of W n = type_of w n)
      by (intros n; by apply type_of_after_commit).
    destruct (move_branch_run item w W B Hmove Hparent Hne HBne ltac:(eauto)
                Hattach)
      as (item' & w' & Hrun & Hp & Hcalls & Hty & Hin).
    { specialize (HtyW ""). unfold type_of in HtyW. rewrite Hempty in HtyW.
      by destruct (nodes W !! ""). }
    { specialize (HtyW B). unfold type_of in HtyW. rewrite HB in HtyW.
      by destruct (nodes W !! B). }
    { exact Hacc. }
    exists item', w'. split; [exact Hrun|]. split; [done|].
    assert (HWA : is_Some (nodes W !! A)).
    { specialize (HtyW A). unfold type_of in HtyW. rewrite HA in HtyW.
      by destruct (nodes W !! A). }
    assert (HwA : inputs_of w' A = filter (λ y, y ≠ X) (inputs_of w A)).
    { rewrite Hin. rewrite (detaches_former_parent X A B rest) by eauto.
      unfold W. rewrite inputs_of_after_commit. by rewrite decide_False by done. }
    assert (HwB : inputs_of w' B = ninputs rB ++ [X]).
    { rewrite Hin, detaches_new_parent. unfold W.
      rewrite inputs_of_after_commit. by rewrite decide_True. }
    split; [rewrite HwA; apply filter_ne_not_in|].
    split.
    { rewrite HwB. apply bool_decide_eq_false in HXB.
      rewrite occurrences_app, (occurrences_not_in _ _ HXB).
      unfold occurrences. by rewrite filter_cons_True. }
    split; [done|]. split; [done|].
    split; [intros n; by rewrite Hty, HtyW|].
    rewrite Hcalls. unfold W. rewrite calls_after_commit.
    by rewrite <- app_assoc.
Qed.

(** C1: the move does not reconcile the graph when the host refuses the new
    connection.  For a drop handled as a move, of the node [X] dragged out
    of [A] and dropped under [B] ([A] and [B] different existing nodes, no
    node with the empty name, [X] an input of [A] and not of [B]): when the
    host's pre-check does not allow [X] as one more input of [B] but allows
    the removals, the handler returns having ignored what [addInput]
    answered; [X] has been removed from [A] and is an input of neither [A]
    nor [B], the graph is not what it was, and the item's stored parent
    says [B]. *)
Theorem move_drop_refused_add_still_detaches `{HostPolicy} (item : Item) (w : World)
    (A B : string) (rest : list string) :
  let X := itemNode (Some item) in
  _dropAction w = MoveAction →
  parentOf item = Some B →
  (X :: A :: rest) ∈ _draggedNodePaths w →
  nodes w !! "" = None →
  is_Some (nodes w !! A) →
  is_Some (nodes w !! B) →
  A ≠ B →
  X ∈ inputs_of w A →
  X ∉ inputs_of w B →
  testNodeInputs_policy (nodes w) B (inputs_of w B ++ [X]) ≠ Ok None →
  Forall allowed (move_removals X B (nodes w) (draggedPathsOf X w)) →
  ∃ item' w',
    viewItemChanged item w = (Ok item', w') ∧
    USER_ROLE_PARENT_NODE item' = Some B ∧
    (X ∉ inputs_of w' A) ∧
    (X ∉ inputs_of w' B) ∧
    inputs_of w' A = filter (λ y, y ≠ X) (inputs_of w A) ∧
    inputs_of w' B = inputs_of w B ∧
    nodes w' ≠ nodes w.
Proof.
  intros X Hmove Hparent Hpath Hempty [rA HA] [rB HB] HAB HXA HXB Hrej Hacc.
  assert (HBne : B ≠ "") by (intros ->; congruence).
  assert (HpathF : (X :: A :: rest) ∈ draggedPathsOf X w)
    by (by apply draggedPathsOf_elem).
  assert (Hne : draggedPathsOf X w ≠ []).
  { intros Hnil. rewrite Hnil in HpathF. by apply elem_of_nil in HpathF. }
  assert (HinB : inputs_of w B = ninputs rB) by (unfold inputs_of; by rewrite HB).
  rewrite HinB in HXB, Hrej.
  pose proof (attach_run B X rB w HBne HB) as Hattach.
  rewrite (bool_decide_false (X ∈ ninputs rB)) in Hattach by done.
  set (W := match testNodeInputs_policy (nodes w) B (ninputs rB ++ [X]) with
            | Ok None => after_commit B rB (ninputs rB ++ [X]) w
            | Ok (Some msg) => after_alert B (ninputs rB ++ [X]) msg w
            | Raise => after_test B (ninputs rB ++ [X]) w
            end) in *.
  assert (HW : nodes W = nodes w).
  { unfold W. by destruct (testNodeInputs_policy _ _ _) as [[msg|]|]. }
  destruct (move_branch_run item w W B Hmove Hparent Hne HBne ltac:(eauto) Hattach)
    as (item' & w' & Hrun & Hp & _ & _ & Hin).
  { by rewrite HW. }
  { rewrite HW. eauto. }
  { by rewrite HW. }
  exists item', w'. split; [exact Hrun|]. split; [done|].
  assert (HinW : ∀ n, inputs_of W n = inputs_of w n)
    by (intros n; unfold inputs_of; by rewrite HW).
  assert (HwA : inputs_of w' A = filter (λ y, y ≠ X) (inputs_of w A)).
  { rewrite Hin, HinW. rewrite (detaches_former_parent X A B rest); [done..|].
    rewrite HW. eauto. }
  assert (HwB : inputs_of w' B = ninputs rB).
  { by rewrite Hin, detaches_new_parent, HinW. }
  split; [rewrite HwA; apply filter_ne_not_in|].
  split; [by rewrite HwB|].
  split; [done|]. split; [by rewrite HwB, HinB|].
  intros Heq. assert (HA' : inputs_of w' A = inputs_of w A)
    by (unfold inputs_of; by rewrite Heq).
  rewrite HwA in HA'. rewrite <- HA' in HXA. by apply filter_ne_not_in in HXA.
Qed.

(** On a host that refuses cycles: [X] has [B] among its inputs, so the
    pre-check refuses to make [X] an input of [B] and the user is alerted,
    yet the loop still detaches [X] from [A]. *)
Lemma move_drop_refused_add_still_detaches_witness :
  (@viewItemChanged rejectCycles itemX_under_B cycleWorld).1
    = Ok (setData_PARENT_NODE (Some "B") itemX_under_B) ∧
  inputs_of cycleWorld "A" = ["X"] ∧
  inputs_of cycleWorld "B" = [] ∧
  inputs_of (@viewItemChanged rejectCycles itemX_under_B cycleWorld).2 "A" = [] ∧
  inputs_of (@viewItemChanged rejectCycles itemX_under_B cycleWorld).2 "B" = [] ∧
  calls (@viewItemChanged rejectCycles itemX_under_B cycleWorld).2 =
    [CTestNodeInputs "B" ["X"];
     CAlertPanel "Some inputs are not allowed here" "cycle in graph";
     CTestNodeInputs "A" []; CSetNodeInputs "A" []].
Proof.
  destruct (@move_drop_refused_add_still_detaches rejectCycles itemX_under_B
              cycleWorld "A" "B" [])
    as (item' & w' & Hrun & _ & _ & _ & HA & HB & _).
  - reflexivity.
  - reflexivity.
  - left.
  - reflexivity.
  - by eexists.
  - by eexists.
  - done.
  - left.
  - apply not_elem_of_nil.
  - vm_compute. discriminate.
  - repeat constructor.
  - split; [by vm_compute|]. split; [reflexivity|]. split; [reflexivity|].
    rewrite Hrun. cbn [snd]. rewrite HA, HB.
    split; [reflexivity|]. split; [reflexivity|].
    assert (Hc : calls (@viewItemChanged rejectCycles itemX_under_B cycleWorld).2 =
      [CTestNodeInputs "B" ["X"];
       CAlertPanel "Some inputs are not allowed here" "cycle in graph";
       CTestNodeInputs "A" []; CSetNodeInputs "A" []]) by (by vm_compute).
    by rewrite Hrun in Hc.
Defined.

(** The same host does allow the move of [X] from [A] to [B] in [graphAXB],
    where it closes no cycle: the two proposals are allowed and the graph is
    reconciled. *)
Example move_drop_reconciles_on_a_refusing_host :
  inputs_of (@viewItemChanged rejectCycles itemX_under_B moveWorld).2 "A" = [] ∧
  inputs_of (@viewItemChanged rejectCycles itemX_under_B moveWorld).2 "B" = ["X"] ∧
  calls (@viewItemChanged rejectCycles itemX_under_B moveWorld).2
  = [CTestNodeInputs "B" ["X"]; CSetNodeInputs "B" ["X"];
     CTestNodeInputs "A" []; CSetNodeInputs "A" []].
Proof.
  destruct (@move_drop_reconciles rejectCycles itemX_under_B moveWorld "A" "B" [])
    as (item' & w' & Hrun & _ & _ & _ & HA & HB & _ & Hcalls).
  - reflexivity.
  - reflexivity.
  - left.
  - reflexivity.
  - by eexists.
  - by eexists.
  - done.
  - vm_compute. lia.
  - vm_compute. repeat constructor.
  - rewrite Hrun. cbn [snd]. rewrite HA, HB, Hcalls. by vm_compute.
Qed.

(** ** The flags that suspend updates *)

Section preserves.
Context (P : World → Prop).

Lemma preserves_ret {A} (a : A) : preserves P (ret a).
Proof. by intros w. Qed.

Lemma preserves_raise {A} : preserves P (@raise World A).
Proof. by intros w. Qed.

Lemma preserves_get : preserves P get.
Proof. by intros w. Qed.

Lemma preserves_gets {A} (f : World → A) : preserves P (gets f).
Proof. by intros w. Qed.

Lemma preserves_modify (f : World → World) :
  (∀ w, P w → P (f w)) → preserves P (modify f).
Proof. intros Hf w. apply Hf. Qed.

Lemma preserves_bind {A B} (m : M World A) (k : A → M World B) :
  preserves P m → (∀ a, preserves P (k a)) → preserves P (bind m k).
Proof.
  intros Hm Hk w Hw. unfold bind. specialize (Hm w Hw).
  destruct (m w) as [[a|] w1]; [by apply Hk|done].
Qed.

Lemma preserves_try_except {A} (body handler : M World A) :
  preserves P body → preserves P handler → preserves P (try_except body handler).
Proof.
  intros Hb Hh w Hw. unfold try_except. specialize (Hb w Hw).
  destruct (body w) as [[a|] w1]; [done|by apply Hh].
Qed.

Lemma preserves_when (c : bool) (body : M World unit) :
  preserves P body → preserves P (when c body).
Proof. intros Hb. destruct c; [done|apply preserves_ret]. Qed.

Lemma preserves_for_each {A} (xs : list A) (body : A → M World unit) :
  (∀ x, preserves P (body x)) → preserves P (for_each xs body).
Proof.
  intros Hb. induction xs as [|x xs IH]; [apply preserves_ret|].
  simpl. by apply preserves_bind.
Qed.

End preserves.

(** ** The flags are the panel's own: no host call and no helper sets them *)

Create HintDb pres.

Ltac mpres_step :=
  first
    [ solve [auto with pres]
    | apply preserves_ret | apply preserves_raise | apply preserves_get
    | apply preserves_gets
    | apply preserves_modify; intros [] ?; assumption
    | apply preserves_bind; [|intros ?]
    | apply preserves_try_except
    | apply preserves_when
    | apply preserves_for_each; intros ?
    | match goal with
      | |- preserves _ (match ?x with _ => _ end) => destruct x
      | |- preserves _ (if ?x then _ else _) => destruct x
      end ].

Ltac mpres := mbinds; repeat mpres_step.

Lemma nodeExists_flags fl n : preserves (λ w, flags w = fl) (nodeExists n).
Proof. unfold nodeExists. mpres. Qed.
#[local] Hint Resolve nodeExists_flags : pres.
Lemma nodeType_flags fl n : preserves (λ w, flags w = fl) (nodeType n).
Proof. unfold nodeType. mpres. Qed.
#[local] Hint Resolve nodeType_flags : pres.
Lemma nodeConnections_flags fl n : preserves (λ w, flags w = fl) (nodeConnections n).
Proof. unfold nodeConnections. mpres. Qed.
#[local] Hint Resolve nodeConnections_flags : pres.
Lemma setNodeInputs_flags fl n l : preserves (λ w, flags w = fl) (setNodeInputs n l).
Proof. unfold setNodeInputs. mpres. Qed.
#[local] Hint Resolve setNodeInputs_flags : pres.
Lemma propertyExists_flags fl n : preserves (λ w, flags w = fl) (propertyExists n).
Proof. unfold propertyExists. mpres. Qed.
#[local] Hint Resolve propertyExists_flags : pres.
Lemma getStringProperty_flags fl n : preserves (λ w, flags w = fl) (getStringProperty n).
Proof. unfold getStringProperty. mpres. Qed.
#[local] Hint Resolve getStringProperty_flags : pres.
Lemma setStringProperty_flags fl n v c : preserves (λ w, flags w = fl) (setStringProperty n v c).
Proof. unfold setStringProperty. mpres. Qed.
#[local] Hint Resolve setStringProperty_flags : pres.
Lemma setIntProperty_flags fl n v c : preserves (λ w, flags w = fl) (setIntProperty n v c).
Proof. unfold setIntProperty. mpres. Qed.
#[local] Hint Resolve setIntProperty_flags : pres.
Lemma nodes__flags fl : preserves (λ w, flags w = fl) nodes_.
Proof. unfold nodes_. mpres. Qed.
#[local] Hint Resolve nodes__flags : pres.
Lemma uiName_flags fl n : preserves (λ w, flags w = fl) (uiName n).
Proof. unfold uiName. mpres. Qed.
#[local] Hint Resolve uiName_flags : pres.
Lemma setUIName_flags fl n t : preserves (λ w, flags w = fl) (setUIName n t).
Proof. unfold setUIName. mpres. Qed.
#[local] Hint Resolve setUIName_flags : pres.
Lemma nodeGroup_flags fl n : preserves (λ w, flags w = fl) (nodeGroup n).
Proof. unfold nodeGroup. mpres. Qed.
#[local] Hint Resolve nodeGroup_flags : pres.
Lemma newNode_flags fl t n : preserves (λ w, flags w = fl) (newNode t n).
Proof. unfold newNode. mpres. Qed.
#[local] Hint Resolve newNode_flags : pres.
Lemma addSourceVerbose_flags fl fs : preserves (λ w, flags w = fl) (addSourceVerbose fs).
Proof. unfold addSourceVerbose. mpres. Qed.
#[local] Hint Resolve addSourceVerbose_flags : pres.
Lemma displayFeedback_flags fl m : preserves (λ w, flags w = fl) (displayFeedback m).
Proof. unfold displayFeedback. mpres. Qed.
#[local] Hint Resolve displayFeedback_flags : pres.
Lemma viewNode_flags fl : preserves (λ w, flags w = fl) viewNode.
Proof. unfold viewNode. mpres. Qed.
#[local] Hint Resolve viewNode_flags : pres.
Lemma nodeInputs_flags fl n : preserves (λ w, flags w = fl) (nodeInputs n).
Proof. unfold nodeInputs. mpres. Qed.
#[local] Hint Resolve nodeInputs_flags : pres.
Lemma setExpandedInParent_flags fl n p e : preserves (λ w, flags w = fl) (setExpandedInParent n p e).
Proof. unfold setExpandedInParent. mpres. Qed.
#[local] Hint Resolve setExpandedInParent_flags : pres.
Lemma setNodeRequest_flags fl n v : preserves (λ w, flags w = fl) (setNodeRequest n v).
Proof. unfold setNodeRequest. mpres. Qed.
#[local] Hint Resolve setNodeRequest_flags : pres.
Lemma componentAndFolder_step_flags fl h n acc x : preserves (λ w, flags w = fl) (componentAndFolder_step h n acc x).
Proof. unfold componentAndFolder_step. destruct acc. mpres. Qed.
#[local] Hint Resolve componentAndFolder_step_flags : pres.
Lemma componentAndFolder_loop_flags fl h n ns acc :
  preserves (λ w, flags w = fl) (componentAndFolder_loop h n ns acc).
Proof. revert acc. induction ns as [|x ns IH]; intros acc; simpl; mpres. Qed.
#[local] Hint Resolve componentAndFolder_loop_flags : pres.
Lemma componentAndFolderNodeFromHash_flags fl h n : preserves (λ w, flags w = fl) (componentAndFolderNodeFromHash h n).
Proof. unfold componentAndFolderNodeFromHash. mpres. Qed.
#[local] Hint Resolve componentAndFolderNodeFromHash_flags : pres.
Lemma newSubComponentNode_flags fl h t f fn pv n fo : preserves (λ w, flags w = fl) (newSubComponentNode h t f fn pv n fo).
Proof. unfold newSubComponentNode. mpres. Qed.
#[local] Hint Resolve newSubComponentNode_flags : pres.
Lemma sourceFromSubComponent_flags fl item n : preserves (λ w, flags w = fl) (sourceFromSubComponent item n).
Proof. unfold sourceFromSubComponent. mpres. Qed.
#[local] Hint Resolve sourceFromSubComponent_flags : pres.

(** ** No helper of the sub-component conversion deletes a node *)

Lemma insert_exists u n r :
  preserves (λ w, is_Some (nodes w !! u)) (modify (set_nodes (<[n := r]>))).
Proof.
  apply preserves_modify. intros [] Hu. simpl in *.
  apply lookup_insert_is_Some'. by right.
Qed.
Lemma insert2_exists u n r n' r' :
  preserves (λ w, is_Some (nodes w !! u))
    (modify (set_nodes (λ g, <[n' := r']> (<[n := r]> g)))).
Proof.
  apply preserves_modify. intros [] Hu. simpl in *.
  apply lookup_insert_is_Some'. right. apply lookup_insert_is_Some'. by right.
Qed.
#[local] Hint Resolve insert_exists insert2_exists : pres.

Lemma nodeExists_exists u n : preserves (λ w, is_Some (nodes w !! u)) (nodeExists n).
Proof. unfold nodeExists. mpres. Qed.
#[local] Hint Resolve nodeExists_exists : pres.
Lemma nodeType_exists u n : preserves (λ w, is_Some (nodes w !! u)) (nodeType n).
Proof. unfold nodeType. mpres. Qed.
#[local] Hint Resolve nodeType_exists : pres.
Lemma nodeConnections_exists u n : preserves (λ w, is_Some (nodes w !! u)) (nodeConnections n).
Proof. unfold nodeConnections. mpres. Qed.
#[local] Hint Resolve nodeConnections_exists : pres.
Lemma setNodeInputs_exists u n l : preserves (λ w, is_Some (nodes w !! u)) (setNodeInputs n l).
Proof. unfold setNodeInputs. mpres. Qed.
#[local] Hint Resolve setNodeInputs_exists : pres.
Lemma propertyExists_exists u n : preserves (λ w, is_Some (nodes w !! u)) (propertyExists n).
Proof. unfold propertyExists. mpres. Qed.
#[local] Hint Resolve propertyExists_exists : pres.
Lemma getStringProperty_exists u n : preserves (λ w, is_Some (nodes w !! u)) (getStringProperty n).
Proof. unfold getStringProperty. mpres. Qed.
#[local] Hint Resolve getStringProperty_exists : pres.
Lemma setStringProperty_exists u n v c : preserves (λ w, is_Some (nodes w !! u)) (setStringProperty n v c).
Proof. unfold setStringProperty. mpres. Qed.
#[local] Hint Resolve setStringProperty_exists : pres.
Lemma setIntProperty_exists u n v c : preserves (λ w, is_Some (nodes w !! u)) (setIntProperty n v c).
Proof. unfold setIntProperty. mpres. Qed.
#[local] Hint Resolve setIntProperty_exists : pres.
Lemma nodes__exists u : preserves (λ w, is_Some (nodes w !! u)) nodes_.
Proof. unfold nodes_. mpres. Qed.
#[local] Hint Resolve nodes__exists : pres.
Lemma uiName_exists u n : preserves (λ w, is_Some (nodes w !! u)) (uiName n).
Proof. unfold uiName. mpres. Qed.
#[local] Hint Resolve uiName_exists : pres.
Lemma setUIName_exists u n t : preserves (λ w, is_Some (nodes w !! u)) (setUIName n t).
Proof. unfold setUIName. mpres. Qed.
#[local] Hint Resolve setUIName_exists : pres.
Lemma nodeGroup_exists u n : preserves (λ w, is_Some (nodes w !! u)) (nodeGroup n).
Proof. unfold nodeGroup. mpres. Qed.
#[local] Hint Resolve nodeGroup_exists : pres.
Lemma newNode_exists u t n : preserves (λ w, is_Some (nodes w !! u)) (newNode t n).
Proof. unfold newNode. mpres. Qed.
#[local] Hint Resolve newNode_exists : pres.
Lemma addSourceVerbose_exists u fs : preserves (λ w, is_Some (nodes w !! u)) (addSourceVerbose fs).
Proof. unfold addSourceVerbose. mpres. Qed.
#[local] Hint Resolve addSourceVerbose_exists : pres.
Lemma displayFeedback_exists u m : preserves (λ w, is_Some (nodes w !! u)) (displayFeedback m).
Proof. unfold displayFeedback. mpres. Qed.
#[local] Hint Resolve displayFeedback_exists : pres.
Lemma nodeInputs_exists u n : preserves (λ w, is_Some (nodes w !! u)) (nodeInputs n).
Proof. unfold nodeInputs. mpres. Qed.
#[local] Hint Resolve nodeInputs_exists : pres.
Lemma setExpandedInParent_exists u n p e : preserves (λ w, is_Some (nodes w !! u)) (setExpandedInParent n p e).
Proof. unfold setExpandedInParent. mpres. Qed.
#[local] Hint Resolve setExpandedInParent_exists : pres.
Lemma setNodeRequest_exists u n v : preserves (λ w, is_Some (nodes w !! u)) (setNodeRequest n v).
Proof. unfold setNodeRequest. mpres. Qed.
#[local] Hint Resolve setNodeRequest_exists : pres.
Lemma componentAndFolder_step_exists u h n acc x : preserves (λ w, is_Some (nodes w !! u)) (componentAndFolder_step h n acc x).
Proof. unfold componentAndFolder_step. destruct acc. mpres. Qed.
#[local] Hint Resolve componentAndFolder_step_exists : pres.
Lemma componentAndFolder_loop_exists u h n ns acc :
  preserves (λ w, is_Some (nodes w !! u)) (componentAndFolder_loop h n ns acc).
Proof. revert acc. induction ns as [|x ns IH]; intros acc; simpl; mpres. Qed.
#[local] Hint Resolve componentAndFolder_loop_exists : pres.
Lemma componentAndFolderNodeFromHash_exists u h n : preserves (λ w, is_Some (nodes w !! u)) (componentAndFolderNodeFromHash h n).
Proof. unfold componentAndFolderNodeFromHash. mpres. Qed.
#[local] Hint Resolve componentAndFolderNodeFromHash_exists : pres.
Lemma newSubComponentNode_exists u h t f fn pv n fo : preserves (λ w, is_Some (nodes w !! u)) (newSubComponentNode h t f fn pv n fo).
Proof. unfold newSubComponentNode. mpres. Qed.
#[local] Hint Resolve newSubComponentNode_exists : pres.
Lemma rebuildInputs_row_flags fl acc item : preserves (λ w, flags w = fl) (rebuildInputs_row acc item).
Proof. unfold rebuildInputs_row. mpres. Qed.
#[local] Hint Resolve rebuildInputs_row_flags : pres.
Lemma rebuildInputs_loop_flags fl rows acc : preserves (λ w, flags w = fl) (rebuildInputs_loop rows acc).
Proof. revert acc. induction rows as [|x rows IH]; intros acc; simpl; mpres. Qed.
#[local] Hint Resolve rebuildInputs_loop_flags : pres.
Lemma rebuildInputs_row_exists u acc item : preserves (λ w, is_Some (nodes w !! u)) (rebuildInputs_row acc item).
Proof. unfold rebuildInputs_row. mpres. Qed.
#[local] Hint Resolve rebuildInputs_row_exists : pres.
Lemma rebuildInputs_loop_exists u rows acc : preserves (λ w, is_Some (nodes w !! u)) (rebuildInputs_loop rows acc).
Proof. revert acc. induction rows as [|x rows IH]; intros acc; simpl; mpres. Qed.
#[local] Hint Resolve rebuildInputs_loop_exists : pres.

(** ** [selectedConvertedSubComponents] *)

(** C7 fails for [selectedConvertedSubComponents]: it sets
    [_disableUpdates] around [sourceFromSubComponent] with no [try], so
    whenever that call raises for a selected sub-component item (first
    column, of an existing node), the exception leaves the operation with
    the flag still set. *)
Theorem selectedConvertedSubComponents_raise_leaves_flag_set
    (item : Item) (rest : list Item) (w : World) :
  item_column item = 0 →
  is_Some (nodes w !! itemNode (Some item)) →
  itemIsSubComponent (Some item) = true →
  (sourceFromSubComponent item (itemNode (Some item))
     (set_disableUpdates true w)).1 = Raise →
  (selectedConvertedSubComponents (item :: rest) w).1 = Raise ∧
  _disableUpdates (selectedConvertedSubComponents (item :: rest) w).2 = true.
Proof.
  intros Hcol Hnode Hsub Hraise.
  unfold selectedConvertedSubComponents. cbn [selectedConverted_loop].
  rewrite Hcol, Hsub. change (0 =? 0) with true. cbv iota. mbinds.
  mstep (nodeExists_run (itemNode (Some item)) w).
  rewrite bool_decide_true by done.
  erewrite bind_run by reflexivity. mred.
  pose proof (sourceFromSubComponent_flags (true, _inputOrderLock w) item
                (itemNode (Some item)) (set_disableUpdates true w)) as Hfl.
  destruct (sourceFromSubComponent item (itemNode (Some item))
              (set_disableUpdates true w)) as [r w1] eqn:Hrun.
  simpl in Hraise. subst r.
  rewrite (bind_run _ _ _ _ _ Hrun). cbn [fst snd]. split; [done|].
  simpl in Hfl. specialize (Hfl ltac:(by destruct w)).
  unfold flags in Hfl. by simplify_eq.
Qed.

(** A media sub-component of [src] whose file the host cannot open is
    selected: [addSourceVerbose] raises and the flag stays set. *)
Lemma selectedConvertedSubComponents_raise_leaves_flag_set_witness :
  _disableUpdates srcWorld = false ∧
  (selectedConvertedSubComponents [itemMissingMedia] srcWorld).1 = Raise ∧
  _disableUpdates
    (selectedConvertedSubComponents [itemMissingMedia] srcWorld).2 = true.
Proof.
  split; [reflexivity|].
  apply (selectedConvertedSubComponents_raise_leaves_flag_set
           itemMissingMedia [] srcWorld).
  - reflexivity.
  - by eexists.
  - reflexivity.
  - vm_compute. reflexivity.
Defined.

(** ** The operations that do clear their flag *)

Lemma try_except_total {S A} (body handler : M S A) (s : S) :
  (∀ s', ∃ a, (handler s').1 = Ok a) →
  ∃ a, (try_except body handler s).1 = Ok a.
Proof.
  intros Hh. unfold try_except.
  destruct (body s) as [[a|] s']; [by exists a|apply Hh].
Qed.

Lemma rebuildInputs_loop_returns rows :
  ∀ acc w, ∃ l, (rebuildInputs_loop rows acc w).1 = Ok l.
Proof.
  induction rows as [|item rows IH]; intros acc w; [by exists acc|].
  cbn [rebuildInputs_loop].
  assert (Hrow : ∃ acc', (rebuildInputs_row acc item w).1 = Ok acc').
  { apply try_except_total. intros s'. by exists acc. }
  destruct Hrow as [acc' Hrow].
  destruct (rebuildInputs_row acc item w) as [r w1] eqn:Hrun.
  simpl in Hrow. subst r. rewrite (bind_run _ _ _ _ _ Hrun). apply IH.
Qed.

Lemma updateInputs_fill_flags fl l : preserves (λ w, flags w = fl) (updateInputs_fill l).
Proof. induction l as [|x l IH]; simpl; mpres. Qed.
#[local] Hint Resolve updateInputs_fill_flags : pres.

(** [updateInputs] returns normally and, entered with the lock open, leaves
    both flags as they were: the lock it takes is released even when the
    host raises while the list is filled. *)
Lemma updateInputs_releases_lock (node : string) (w : World) :
  (updateInputs node w).1 = Ok tt ∧
  (_inputOrderLock w = false → flags (updateInputs node w).2 = flags w).
Proof.
  unfold updateInputs. mbinds. mstep_refl.
  destruct (_disableUpdates w || _progressiveLoadingInProgress w) eqn:Hskip;
    [done|].
  mstep_refl. mstep_refl.
  set (w1 := set_inputsModel [] (set_inputOrderLock true w)).
  set (body := try_except _ (ret tt)).
  assert (Hfl : flags (body w1).2 = flags w1).
  { apply (preserves_try_except (λ w', flags w' = flags w1)); [|apply preserves_ret|done].
    mpres. }
  pose proof (try_except_unit_total
                (bind (nodeInputs node) (λ c, updateInputs_fill c)) w1) as Hok.
  fold body in Hok.
  destruct (body w1) as [r w2] eqn:Hrun. simpl in Hok, Hfl. subst r.
  rewrite (bind_run _ _ _ _ _ Hrun). split; [done|].
  intros Hlock. unfold flags in *. simpl in *.
  destruct w, w2; simpl in *. by simplify_eq.
Qed.

Lemma setInputs_returns `{HostPolicy} node inputs w :
  ∃ b, (setInputs node inputs w).1 = Ok b.
Proof.
  pose proof (setInputs_cases node inputs w) as Hc.
  destruct (testNodeInputs_policy _ _ _) as [[?|]|];
    [| destruct (nodes w !! node) |]; rewrite Hc; by eexists.
Qed.

Lemma setInputs_flags `{HostPolicy} node inputs w :
  flags (setInputs node inputs w).2 = flags w.
Proof.
  pose proof (setInputs_cases node inputs w) as Hc.
  destruct (testNodeInputs_policy _ _ _) as [[?|]|];
    [| destruct (nodes w !! node) |]; rewrite Hc; by destruct w.
Qed.

(** X3: [rebuildInputsFromList], entered with the lock open and a view node
    the host knows: it returns normally with both flags clear.  Exceptions of
    the row conversions are caught inside the loop, and no row can make the
    view node disappear, so the unguarded [setViewNode] goes through. *)
Lemma rebuildInputsFromList_clears_flag `{HostPolicy} (w : World) (vnode : string) :
  _inputOrderLock w = false →
  currentView w = Some vnode →
  is_Some (nodes w !! vnode) →
  (rebuildInputsFromList w).1 = Ok tt ∧
  flags (rebuildInputsFromList w).2 = (false, false).
Proof.
  intros Hlock Hview Hnode.
  unfold rebuildInputsFromList. mbinds. mstep_refl. rewrite Hlock.
  unfold viewNode. mstep_refl. rewrite Hview. mstep_refl.
  set (w1 := set_disableUpdates true w).
  destruct (rebuildInputs_loop_returns (_inputsModel w) [] w1) as [l Hl].
  pose proof (rebuildInputs_loop_flags (true, false) (_inputsModel w) [] w1) as Hfl.
  pose proof (rebuildInputs_loop_exists vnode (_inputsModel w) [] w1) as Hex.
  destruct (rebuildInputs_loop (_inputsModel w) [] w1) as [r w2] eqn:Hrun.
  simpl in Hl, Hfl, Hex. subst r.
  specialize (Hfl ltac:(unfold flags; simpl; by rewrite Hlock)).
  specialize (Hex ltac:(by destruct w)).
  mstep Hrun. destruct Hex as [rv Hrv].
  assert (Hset : setViewNode vnode w2 = (Ok tt, set_currentView (Some vnode) w2)).
  { unfold setViewNode. munfold. by rewrite Hrv. }
  mstep Hset. mstep_refl.
  set (w3 := set_disableUpdates false (set_currentView (Some vnode) w2)).
  assert (Hfl3 : flags w3 = (false, false)).
  { unfold flags in *. destruct w2. simpl in *. by simplify_eq. }
  destruct (setInputs_returns vnode l w3) as [ok Hok].
  pose proof (setInputs_flags vnode l w3) as Hfl4.
  destruct (setInputs vnode l w3) as [r w4] eqn:Hrun4.
  simpl in Hok, Hfl4. subst r. mstep Hrun4.
  destruct ok; cbn [negb when].
  - unfold ret. simpl. split; [done|congruence].
  - destruct (updateInputs_releases_lock vnode w4) as [Hret Hkeep].
    split; [done|]. rewrite Hkeep; [congruence|].
    unfold flags in *. rewrite Hfl3 in Hfl4. by simplify_eq.
Qed.

Lemma for_each_blockSignals (ws : list nat) (b : bool) :
  ∀ s, ∃ s', for_each ws (λ w, blockSignals w b) s = (Ok tt, s') ∧
             ∀ w, w ∈ ws → s' !! w = Some b.
Proof.
  induction ws as [|x ws IH]; intros s.
  { exists s. split; [done|]. by intros w ?%elem_of_nil. }
  destruct (IH (<[x := b]> s)) as (s' & Hrun & Hall).
  assert (Hkeep : ∀ ws' s0, x ∉ ws' →
            (for_each ws' (λ w, blockSignals w b) s0).2 !! x = s0 !! x).
  { clear. induction ws' as [|y ws' IH']; intros s0 Hx; [done|].
    cbn [for_each]. mbinds. unfold blockSignals at 1.
    erewrite bind_run by reflexivity. cbv beta iota.
    rewrite IH' by (intros ?; apply Hx; by right).
    apply lookup_insert_ne. intros ->. apply Hx. left. }
  exists s'. split.
  - cbn [for_each]. mbinds. unfold blockSignals at 1.
    erewrite bind_run by reflexivity. exact Hrun.
  - intros w [Hwx|Hw]%elem_of_cons; [subst x|by apply Hall].
    destruct (decide (w ∈ ws)) as [Hin|Hnin]; [by apply Hall|].
    specialize (Hkeep ws (<[w := b]> s) Hnin). rewrite Hrun in Hkeep.
    simpl in Hkeep. rewrite Hkeep. apply lookup_insert_eq.
Qed.

(** X4: [block_signals]: whatever the body does, and whether it returns or
    raises, every widget named is unblocked when the block is left, and a
    raise of the body is passed on. *)
Lemma block_signals_always_unblocks {A} (widgets : list (option nat))
    (body : M Widgets A) (s : Widgets) (w : nat) :
  Some w ∈ widgets →
  (block_signals widgets body s).2 !! w = Some false ∧
  (block_signals widgets body s).1 =
    (body (for_each (omap id widgets) (λ w, blockSignals w true) s).2).1.
Proof.
  intros Hw. assert (Hv : w ∈ omap id widgets).
  { apply list_elem_of_omap. by exists (Some w). }
  unfold block_signals. mbinds.
  destruct (for_each_blockSignals (omap id widgets) true s) as (s1 & Hrun1 & _).
  mstep Hrun1. rewrite Hrun1. cbn [snd]. unfold try_finally.
  destruct (body s1) as [[a|] s2].
  - destruct (for_each_blockSignals (omap id widgets) false s2) as (s3 & Hrun3 & Hall).
    rewrite Hrun3. split; [by apply Hall|done].
  - destruct (for_each_blockSignals (omap id widgets) false s2) as (s3 & Hrun3 & Hall).
    rewrite Hrun3. split; [by apply Hall|done].
Qed.

(** ** Corner drags and the aspect ratio *)








(** A free translation leaves the scale alone, and a step with no edit node
    or no image under the pointer leaves everything alone. *)
Lemma drag_free_translation_keeps_scale (index : Z)
    (corners : vec2 * vec2 * vec2 * vec2) (pp : vec2) (st : DragState) :
  _control st = FreeTranslation →
  transform_scale (drag index corners pp st) = transform_scale st.
Proof.
  intros Hctl. unfold drag. destruct (_currentEditNode st); [|done].
  destruct (index =? -1); [done|].
  destruct corners as [[[a b] c] d]. cbv zeta.
  by rewrite bool_decide_true.
Qed.

(** ** Handlers return and settle the flags *)

Lemma returns_ret {A} (a : A) : returns (ret a).
Proof. intros w. by exists a. Qed.

Lemma returns_get : returns get.
Proof. intros w. by exists w. Qed.

Lemma returns_gets {A} (f : World → A) : returns (gets f).
Proof. intros w. by eexists. Qed.

Lemma returns_modify (f : World → World) : returns (modify f).
Proof. intros w. by exists tt. Qed.

Lemma returns_bind {A B} (m : M World A) (k : A → M World B) :
  returns m → (∀ a, returns (k a)) → returns (bind m k).
Proof.
  intros Hm Hk w. unfold bind. destruct (Hm w) as [a Ha].
  destruct (m w) as [r w1]. simpl in Ha. subst r. apply Hk.
Qed.

Lemma returns_try_except {A} (body handler : M World A) :
  returns handler → returns (try_except body handler).
Proof. intros Hh w. apply try_except_total. intros s'. apply Hh. Qed.

Lemma returns_when (c : bool) (body : M World unit) :
  returns body → returns (when c body).
Proof. intros Hb. destruct c; [done|apply returns_ret]. Qed.

Lemma returns_for_each {A} (xs : list A) (body : A → M World unit) :
  (∀ x, returns (body x)) → returns (for_each xs body).
Proof.
  intros Hb. induction xs as [|x xs IH]; [apply returns_ret|].
  simpl. by apply returns_bind.
Qed.

Lemma returns_unit (m : M World unit) (w : World) :
  returns m → (m w).1 = Ok tt.
Proof. intros Hm. by destruct (Hm w) as [[] ->]. Qed.

Create HintDb total.

Ltac mtotal_step :=
  first
    [ solve [auto with total]
    | apply returns_ret | apply returns_get | apply returns_gets
    | apply returns_modify
    | apply returns_bind; [|intros ?]
    | apply returns_try_except
    | apply returns_when
    | apply returns_for_each; intros ?
    | match goal with
      | |- returns (match ?x with _ => _ end) => destruct x
      | |- returns (if ?x then _ else _) => destruct x
      end ].

Ltac mtotal := mbinds; repeat mtotal_step.

Lemma nodeExists_returns n : returns (nodeExists n).
Proof. unfold nodeExists. mtotal. Qed.
Lemma setInputs_total `{HostPolicy} n l : returns (setInputs n l).
Proof. unfold setInputs. mtotal. Qed.
Lemma removeInput_returns `{HostPolicy} n x : returns (removeInput n x).
Proof. unfold removeInput. mtotal. Qed.
Lemma addInput_returns `{HostPolicy} n x : returns (addInput n x).
Proof. unfold addInput. mtotal. Qed.
Lemma hasInput_returns n x : returns (hasInput n x).
Proof. unfold hasInput. mtotal. Qed.
Lemma nodeInputs_returns n : returns (nodeInputs n).
Proof. unfold nodeInputs. mtotal. Qed.
Lemma existsAndIsFolder_returns p : returns (existsAndIsFolder p).
Proof.
  intros w. destruct (existsAndIsFolder_run p w) as [b Hb]. exists b. by rewrite Hb.
Qed.
Lemma sortFolderChildren_returns f : returns (sortFolderChildren f).
Proof. unfold sortFolderChildren. mtotal. Qed.
#[local] Hint Resolve nodeExists_returns setInputs_total removeInput_returns
  addInput_returns hasInput_returns nodeInputs_returns existsAndIsFolder_returns
  sortFolderChildren_returns : total.

Lemma deleteViewable_item_returns `{HostPolicy} item : returns (deleteViewable_item item).
Proof. unfold deleteViewable_item. mtotal. Qed.
#[local] Hint Resolve deleteViewable_item_returns : total.

Lemma nodeExists_opt_returns n : returns (nodeExists_opt n).
Proof. unfold nodeExists_opt. mtotal. Qed.
Lemma addInput_opt_returns `{HostPolicy} n x : returns (addInput_opt n x).
Proof. unfold addInput_opt. mtotal. Qed.
Lemma sortFolderChildren_opt_returns f : returns (sortFolderChildren_opt f).
Proof. unfold sortFolderChildren_opt. mtotal. Qed.
#[local] Hint Resolve nodeExists_opt_returns addInput_opt_returns
  sortFolderChildren_opt_returns : total.
Lemma detachFromFormerParent_returns `{HostPolicy} parent path :
  returns (detachFromFormerParent parent path).
Proof. unfold detachFromFormerParent. mtotal. Qed.
#[local] Hint Resolve detachFromFormerParent_returns : total.

Lemma viewItemChanged_returns `{HostPolicy} item : returns (viewItemChanged item).
Proof. unfold viewItemChanged, filteredDraggedPaths. mtotal. Qed.

(** ** More operations that leave the flags alone *)

(** What holds of the flags before an operation that keeps them holds after. *)
Lemma preserves_flags_any {A} (Φ : bool * bool → Prop) (m : M World A) :
  (∀ fl, preserves (λ w, flags w = fl) m) → preserves (λ w, Φ (flags w)) m.
Proof. intros Hm w Hw. by rewrite (Hm (flags w) w eq_refl). Qed.

Lemma testNodeInputs_flags `{HostPolicy} fl n l :
  preserves (λ w, flags w = fl) (testNodeInputs n l).
Proof.
  unfold testNodeInputs. mbinds.
  apply preserves_bind; [apply preserves_modify; intros [] ?; assumption|intros ?].
  apply preserves_bind; [apply preserves_get|intros ?]. by intros w.
Qed.
Lemma alertPanel_flags fl t m : preserves (λ w, flags w = fl) (alertPanel t m).
Proof. unfold alertPanel. mpres. Qed.
Lemma deleteNode_flags fl n : preserves (λ w, flags w = fl) (deleteNode n).
Proof. unfold deleteNode. mpres. Qed.
#[local] Hint Resolve testNodeInputs_flags alertPanel_flags deleteNode_flags : pres.
Lemma setInputs_keeps_flags `{HostPolicy} fl n l :
  preserves (λ w, flags w = fl) (setInputs n l).
Proof. unfold setInputs. mpres. Qed.
#[local] Hint Resolve setInputs_keeps_flags : pres.
Lemma removeInput_flags `{HostPolicy} fl n x :
  preserves (λ w, flags w = fl) (removeInput n x).
Proof. unfold removeInput. mpres. Qed.
Lemma addInput_flags `{HostPolicy} fl n x :
  preserves (λ w, flags w = fl) (addInput n x).
Proof. unfold addInput. mpres. Qed.
Lemma hasInput_flags fl n x : preserves (λ w, flags w = fl) (hasInput n x).
Proof. unfold hasInput. mpres. Qed.
Lemma count_folders_flags fl outs : preserves (λ w, flags w = fl) (count_folders outs).
Proof. induction outs as [|o outs IH]; simpl; mpres. Qed.
Lemma sortFolderChildren_flags fl f :
  preserves (λ w, flags w = fl) (sortFolderChildren f).
Proof. unfold sortFolderChildren. mpres. Qed.
Lemma existsAndIsFolder_flags fl p :
  preserves (λ w, flags w = fl) (existsAndIsFolder p).
Proof. unfold existsAndIsFolder. mpres. Qed.
#[local] Hint Resolve removeInput_flags addInput_flags hasInput_flags
  count_folders_flags sortFolderChildren_flags existsAndIsFolder_flags : pres.
Lemma nodeExists_opt_flags fl n : preserves (λ w, flags w = fl) (nodeExists_opt n).
Proof. unfold nodeExists_opt. mpres. Qed.
Lemma addInput_opt_flags `{HostPolicy} fl n x :
  preserves (λ w, flags w = fl) (addInput_opt n x).
Proof. unfold addInput_opt. mpres. Qed.
Lemma sortFolderChildren_opt_flags fl f :
  preserves (λ w, flags w = fl) (sortFolderChildren_opt f).
Proof. unfold sortFolderChildren_opt. mpres. Qed.
#[local] Hint Resolve nodeExists_opt_flags addInput_opt_flags
  sortFolderChildren_opt_flags : pres.
Lemma detachFromFormerParent_flags `{HostPolicy} fl parent path :
  preserves (λ w, flags w = fl) (detachFromFormerParent parent path).
Proof. unfold detachFromFormerParent. mpres. Qed.
#[local] Hint Resolve detachFromFormerParent_flags : pres.

(** The shape every handler that suspends updates has: raise the flag, run a
    guarded host call, lower the flag.  It ends with the flag down and the
    lock as it was. *)
Lemma guarded_section (body : M World unit) (lk : bool) :
  (∀ fl, preserves (λ w, flags w = fl) body) →
  ∀ w, _inputOrderLock w = lk →
    flags (bind (modify (set_disableUpdates true))
             (λ _, bind (try_except body (ret tt))
                        (λ _, modify (set_disableUpdates false))) w).2
    = (false, lk).
Proof.
  intros Hb w Hlk. erewrite bind_run by reflexivity. cbv beta iota.
  set (w1 := set_disableUpdates true w).
  pose proof (preserves_try_except _ body (ret tt) (Hb (true, lk))
                (preserves_ret _ tt) w1) as Hfl.
  pose proof (try_except_unit_total body w1) as Hok.
  destruct (try_except body (ret tt) w1) as [r w2] eqn:Hrun.
  simpl in Hok, Hfl. subst r.
  rewrite (bind_run _ _ _ _ _ Hrun). cbv beta iota.
  specialize (Hfl ltac:(unfold flags; subst w1; destruct w; simpl in *; by subst)).
  unfold flags in *. destruct w2. simpl in *. by simplify_eq.
Qed.

(** The lock is as it was, and the flag is down unless it was up before. *)
Definition settled (d lk : bool) (fl : bool * bool) : Prop :=
  fl.2 = lk ∧ (fl.1 = false ∨ fl.1 = d).

Lemma guarded_section_settled (body : M World unit) (d lk : bool) :
  (∀ fl, preserves (λ w, flags w = fl) body) →
  preserves (λ w, settled d lk (flags w))
    (bind (modify (set_disableUpdates true))
       (λ _, bind (try_except body (ret tt))
                  (λ _, modify (set_disableUpdates false)))).
Proof.
  intros Hb w [Hlk _]. rewrite (guarded_section body lk Hb w Hlk).
  split; [done|by left].
Qed.

Lemma deleteViewable_item_settled `{HostPolicy} d lk item :
  preserves (λ w, settled d lk (flags w)) (deleteViewable_item item).
Proof.
  unfold deleteViewable_item. mbinds.
  apply preserves_try_except; [|apply preserves_ret].
  apply preserves_bind; [apply preserves_flags_any; intros; mpres|intros c].
  apply preserves_bind; [apply preserves_flags_any; intros; mpres|intros pe].
  apply preserves_bind; [apply preserves_flags_any; intros; mpres|intros pt].
  apply preserves_bind; [apply preserves_flags_any; intros; mpres|intros nf].
  destruct (_ && _).
  - apply preserves_flags_any; intros; mpres.
  - apply guarded_section_settled. intros fl. mpres.
Qed.

Lemma guarded_section_then_settled {A} (body : M World unit) (a : A) (d lk : bool) :
  (∀ fl, preserves (λ w, flags w = fl) body) →
  preserves (λ w, settled d lk (flags w))
    (bind (modify (set_disableUpdates true))
       (λ _, bind (try_except body (ret tt))
                  (λ _, bind (modify (set_disableUpdates false)) (λ _, ret a)))).
Proof.
  intros Hb w [Hlk _].
  pose proof (guarded_section body lk Hb w Hlk) as Hg. revert Hg.
  erewrite !(bind_run (modify (set_disableUpdates true))) by reflexivity.
  cbv beta iota.
  destruct (try_except body (ret tt) (set_disableUpdates true w)) as [r w2] eqn:Hrun.
  rewrite !(bind_run _ _ _ _ _ Hrun).
  destruct r as [[]|].
  - erewrite !(bind_run (modify (set_disableUpdates false))) by reflexivity.
    cbv beta iota. unfold ret, modify. cbn [snd]. intros Hg.
    split; [|left]; by rewrite Hg.
  - cbn [snd]. intros Hg. split; [|left]; by rewrite Hg.
Qed.

Lemma viewItemChanged_settled `{HostPolicy} d lk item :
  preserves (λ w, settled d lk (flags w)) (viewItemChanged item).
Proof.
  unfold viewItemChanged, filteredDraggedPaths. mbinds.
  apply preserves_bind; [apply preserves_gets|intros nodePaths].
  apply preserves_bind; [apply preserves_get|intros w0].
  destruct (bool_decide (_dropAction w0 = CopyAction)).
  { apply preserves_flags_any; intros; mpres. }
  destruct (_ && _).
  { apply preserves_flags_any; intros; mpres. }
  destruct (_ && _); [|apply preserves_ret].
  apply guarded_section_then_settled. intros fl. mpres.
Qed.

(** X1: handling an item change never lets an exception out of the handler
    and never leaves the panel suspended: whichever branch runs (copy, move
    or rename), [viewItemChanged] returns, [_inputOrderLock] is as it was,
    and [_disableUpdates] is down unless it was up on entry. *)
Theorem viewItemChanged_returns_and_settles `{HostPolicy} (item : Item) (w : World) :
  (∃ item', (viewItemChanged item w).1 = Ok item') ∧
  _inputOrderLock (viewItemChanged item w).2 = _inputOrderLock w ∧
  (_disableUpdates (viewItemChanged item w).2 = false ∨
   _disableUpdates (viewItemChanged item w).2 = _disableUpdates w).
Proof.
  split; [apply viewItemChanged_returns|].
  apply (viewItemChanged_settled (_disableUpdates w) (_inputOrderLock w) item w).
  split; [done|by right].
Qed.

(** X2: deleting the selected items never lets an exception out, whatever
    is selected and whatever the host refuses: [deleteViewableSlot] returns,
    [_inputOrderLock] is as it was, and [_disableUpdates] is down unless it
    was up on entry. *)
Theorem deleteViewableSlot_returns_and_settles `{HostPolicy}
    (items : list Item) (w : World) :
  (deleteViewableSlot items w).1 = Ok tt ∧
  _inputOrderLock (deleteViewableSlot items w).2 = _inputOrderLock w ∧
  (_disableUpdates (deleteViewableSlot items w).2 = false ∨
   _disableUpdates (deleteViewableSlot items w).2 = _disableUpdates w).
Proof.
  split.
  - apply returns_unit. unfold deleteViewableSlot. mtotal.
  - apply (preserves_for_each (λ w', settled (_disableUpdates w) (_inputOrderLock w)
                                        (flags w'))).
    + intros item. apply deleteViewable_item_settled.
    + split; [done|by right].
Qed.

(** ** The inputs list and the view node's inputs *)

Lemma nodeInputs_Some n w r :
  nodes w !! n = Some r → nodeInputs n w = (Ok (ninputs r), w).
Proof.
  intros Hn. unfold nodeInputs, try_except. munfold.
  by rewrite (nodeConnections_Some _ _ _ Hn).
Qed.

Lemma uiName_Some n w r :
  nodes w !! n = Some r → uiName n w = (Ok (default n (uiNames w !! n)), w).
Proof. intros Hn. unfold uiName. munfold. by rewrite Hn. Qed.

Lemma set_inputsModel_twice a b w :
  set_inputsModel a (set_inputsModel b w) = set_inputsModel a w.
Proof. by destruct w. Qed.

Lemma updateInputs_fill_run (l : list string) :
  ∀ w, Forall (λ n, is_Some (nodes w !! n)) l →
    updateInputs_fill l w
    = (Ok tt, set_inputsModel (_inputsModel w ++ map (inputRow w) l) w).
Proof.
  induction l as [|n l IH]; intros w Hall.
  { simpl. rewrite app_nil_r. unfold ret. f_equal. by destruct w. }
  apply Forall_cons in Hall as [[r Hn] Hall].
  cbn [updateInputs_fill]. mbinds. mstep (uiName_Some n w r Hn).
  mstep_refl. mstep_refl.
  rewrite IH by (by destruct w).
  rewrite set_inputsModel_twice. f_equal. f_equal.
  destruct w; simpl. by rewrite <- app_assoc.
Qed.

Lemma updateInputs_run (node : string) (r : NodeRec) (w : World) :
  _disableUpdates w = false →
  _progressiveLoadingInProgress w = false →
  nodes w !! node = Some r →
  Forall (λ n, is_Some (nodes w !! n)) (ninputs r) →
  updateInputs node w
  = (Ok tt,
     set_inputOrderLock false
       (set_inputsModel (map (inputRow w) (ninputs r)) w)).
Proof.
  intros Hdis Hprog Hn Hall.
  unfold updateInputs. mbinds. mstep_refl. rewrite Hdis, Hprog. cbn [orb].
  mstep_refl. mstep_refl. unfold try_except.
  set (w1 := set_inputsModel [] (set_inputOrderLock true w)).
  assert (Hn1 : nodes w1 !! node = Some r) by (by destruct w).
  assert (Hfill : bind (nodeInputs node) (λ c, updateInputs_fill c) w1
                  = (Ok tt, set_inputsModel (map (inputRow w) (ninputs r)) w1)).
  { mstep (nodeInputs_Some node w1 r Hn1).
    rewrite updateInputs_fill_run by (by destruct w).
    reflexivity. }
  unfold bind at 1. rewrite Hfill. reflexivity.
Qed.

Lemma inputRow_nodes (w : World) (l : list string) :
  map (λ it, itemNode (Some it)) (map (inputRow w) l) = l.
Proof. rewrite map_map. apply map_id. Qed.

(** X5: when updates are not suspended, [updateInputs(node)] for a node
    whose inputs are all nodes of the session rebuilds the inputs list as
    the mirror of the node's input list: one row per input, in order, with
    the input's display name as text; it leaves the graph alone and ends
    with the order lock released. *)
Theorem updateInputs_mirrors_inputs (node : string) (r : NodeRec) (w : World) :
  _disableUpdates w = false →
  _progressiveLoadingInProgress w = false →
  nodes w !! node = Some r →
  Forall (λ n, is_Some (nodes w !! n)) (ninputs r) →
  updateInputs node w
  = (Ok tt,
     set_inputOrderLock false
       (set_inputsModel (map (inputRow w) (ninputs r)) w)) ∧
  map (λ it, itemNode (Some it)) (_inputsModel (updateInputs node w).2)
  = ninputs r.
Proof.
  intros Hdis Hprog Hn Hall.
  pose proof (updateInputs_run node r w Hdis Hprog Hn Hall) as Hrun.
  split; [exact Hrun|]. rewrite Hrun. cbn [snd].
  assert (Hm : _inputsModel (set_inputOrderLock false
                 (set_inputsModel (map (inputRow w) (ninputs r)) w))
               = map (inputRow w) (ninputs r)) by (by destruct w).
  rewrite Hm. apply inputRow_nodes.
Qed.

Lemma updateInputs_mirrors_inputs_witness :
  map (λ it, itemNode (Some it)) (_inputsModel (updateInputs "A" viewWorld).2)
  = ["X"].
Proof.
  refine (proj2 (updateInputs_mirrors_inputs "A" (mkNode "RVFolderGroup" ["X"])
                   viewWorld _ _ _ _)); try reflexivity.
  repeat constructor. by eexists.
Defined.

Lemma rebuildInputs_loop_plain (rows : list Item) :
  Forall (λ it, itemIsSubComponent (Some it) = false) rows →
  ∀ acc w, rebuildInputs_loop rows acc w
           = (Ok (acc ++ map (λ it, itemNode (Some it)) rows), w).
Proof.
  induction 1 as [|it rows Hit _ IH]; intros acc w.
  { simpl. by rewrite app_nil_r. }
  cbn [rebuildInputs_loop].
  assert (Hrow : rebuildInputs_row acc it w = (Ok (acc ++ [itemNode (Some it)]), w)).
  { unfold rebuildInputs_row. by rewrite Hit. }
  mstep Hrow. rewrite IH. simpl. by rewrite <- app_assoc.
Qed.

(** X6: the inputs list and the graph round-trip.  After [updateInputs] has
    mirrored the view node's inputs, [rebuildInputsFromList] proposes
    exactly that list again; when the host allows it, the rebuild returns,
    commits it, and the graph is as it was, with both flags clear. *)
Theorem updateInputs_then_rebuild_keeps_inputs `{HostPolicy}
    (vnode : string) (r : NodeRec) (w : World) :
  _disableUpdates w = false →
  _progressiveLoadingInProgress w = false →
  currentView w = Some vnode →
  nodes w !! vnode = Some r →
  Forall (λ n, is_Some (nodes w !! n)) (ninputs r) →
  testNodeInputs_policy (nodes w) vnode (ninputs r) = Ok None →
  (rebuildInputsFromList (updateInputs vnode w).2).1 = Ok tt ∧
  nodes (rebuildInputsFromList (updateInputs vnode w).2).2 = nodes w ∧
  flags (rebuildInputsFromList (updateInputs vnode w).2).2 = (false, false) ∧
  calls (rebuildInputsFromList (updateInputs vnode w).2).2
  = calls w ++ [CTestNodeInputs vnode (ninputs r);
                CSetNodeInputs vnode (ninputs r)].
Proof.
  intros Hdis Hprog Hview Hn Hall Hacc.
  rewrite (updateInputs_run vnode r w Hdis Hprog Hn Hall). cbn [snd].
  set (w1 := set_inputOrderLock false _).
  assert (Hrows : map (λ it, itemNode (Some it)) (_inputsModel w1) = ninputs r).
  { assert (Hm : _inputsModel w1 = map (inputRow w) (ninputs r)) by (by destruct w).
    rewrite Hm. apply inputRow_nodes. }
  assert (Hplain : Forall (λ it, itemIsSubComponent (Some it) = false)
                     (_inputsModel w1)).
  { assert (Hm : _inputsModel w1 = map (inputRow w) (ninputs r)) by (by destruct w).
    rewrite Hm. apply Forall_forall. intros it [n [-> _]]%list_elem_of_fmap. done. }
  unfold rebuildInputsFromList. mbinds. mstep_refl.
  assert (Hlk : _inputOrderLock w1 = false) by (by destruct w). rewrite Hlk.
  unfold viewNode. mstep_refl.
  assert (Hv1 : currentView w1 = Some vnode) by (by destruct w). rewrite Hv1.
  mstep_refl. rewrite (bind_run _ _ _ _ _ (rebuildInputs_loop_plain _ Hplain [] _)).
  cbv beta iota. rewrite app_nil_l, Hrows.
  set (w2 := set_disableUpdates true w1).
  assert (Hset : setViewNode vnode w2 = (Ok tt, set_currentView (Some vnode) w2)).
  { unfold setViewNode. munfold.
    assert (Hn2 : nodes w2 !! vnode = Some r) by (by destruct w). by rewrite Hn2. }
  mstep Hset. mstep_refl.
  set (w3 := set_disableUpdates false (set_currentView (Some vnode) w2)).
  pose proof (setInputs_cases vnode (ninputs r) w3) as Hc.
  assert (Hg3 : nodes w3 = nodes w) by (by destruct w).
  rewrite Hg3, Hacc, Hn in Hc. mstep Hc. unfold ret. cbn [fst snd].
  split; [done|]. split.
  { unfold after_commit. destruct w, r. simpl in *. by apply insert_id. }
  split.
  { unfold flags. by destruct w. }
  unfold after_commit, after_test. destruct w. simpl. by rewrite <- app_assoc.
Qed.

Lemma updateInputs_then_rebuild_keeps_inputs_witness :
  nodes (@rebuildInputsFromList acceptAll (updateInputs "A" viewWorld).2).2
  = nodes viewWorld ∧
  flags (@rebuildInputsFromList acceptAll (updateInputs "A" viewWorld).2).2
  = (false, false).
Proof.
  destruct (@updateInputs_then_rebuild_keeps_inputs acceptAll "A"
              (mkNode "RVFolderGroup" ["X"]) viewWorld)
    as (_ & Hg & Hf & _); try reflexivity.
  - repeat constructor. by eexists.
  - by split.
Defined.

Lemma rebuildInputsFromList_clears_flag_witness :
  (@rebuildInputsFromList acceptAll viewWorld).1 = Ok tt ∧
  flags (@rebuildInputsFromList acceptAll viewWorld).2 = (false, false).
Proof.
  apply (@rebuildInputsFromList_clears_flag acceptAll viewWorld "A").
  - reflexivity.
  - reflexivity.
  - by eexists.
Defined.

Lemma block_signals_always_unblocks_witness :
  (block_signals [Some 1%nat; None] (@raise Widgets unit) ∅).2 !! 1%nat = Some false ∧
  (block_signals [Some 1%nat; None] (@raise Widgets unit) ∅).1 = Raise.
Proof.
  apply (block_signals_always_unblocks [Some 1%nat; None] raise ∅ 1%nat).
  left.
Defined.

(** ** Drops carried as a copy *)

Lemma uiName_graph g c n : preserves (λ w, nodes w = g ∧ calls w = c) (uiName n).
Proof. unfold uiName. mpres. Qed.
Lemma nodeInputs_graph g c n :
  preserves (λ w, nodes w = g ∧ calls w = c) (nodeInputs n).
Proof. unfold nodeInputs. mpres. Qed.
Lemma updateInputs_fill_graph g c l :
  preserves (λ w, nodes w = g ∧ calls w = c) (updateInputs_fill l).
Proof.
  induction l as [|x l IH]; simpl; [apply preserves_ret|].
  apply preserves_bind; [apply uiName_graph|intros name].
  apply preserves_bind; [apply preserves_get|intros w0].
  apply preserves_bind; [|intros _; exact IH].
  apply preserves_modify. by intros [] ?.
Qed.

(** [updateInputs] touches the inputs list and the order lock only: the
    graph and the record of host calls are as before. *)
Lemma updateInputs_graph (node : string) (w : World) :
  nodes (updateInputs node w).2 = nodes w ∧
  calls (updateInputs node w).2 = calls w.
Proof.
  cut (preserves (λ w', nodes w' = nodes w ∧ calls w' = calls w)
                 (updateInputs node)).
  { intros Hp. exact (Hp w (conj eq_refl eq_refl)). }
  unfold updateInputs.
  apply preserves_bind; [apply preserves_get|intros w0].
  destruct (_ || _); [apply preserves_ret|].
  apply preserves_bind; [apply preserves_modify; by intros [] ?|intros _].
  apply preserves_bind; [apply preserves_modify; by intros [] ?|intros _].
  apply preserves_bind; [|intros _; apply preserves_modify; by intros [] ?].
  apply preserves_try_except; [|apply preserves_ret].
  apply preserves_bind; [apply nodeInputs_graph|intros c].
  apply updateInputs_fill_graph.
Qed.

Lemma insertRow_fmap {A B} (f : A → B) (row : nat) (x : A) (rows : list A) :
  f <$> insertRow row x rows = insertRow row (f x) (f <$> rows).
Proof.
  unfold insertRow. by rewrite fmap_app, fmap_cons, fmap_take, fmap_drop.
Qed.

Lemma insertRow_elem {A} (row : nat) (x y : A) (rows : list A) :
  y ∈ insertRow row x rows ↔ y = x ∨ y ∈ rows.
Proof.
  unfold insertRow. rewrite elem_of_app, elem_of_cons.
  rewrite <- (take_drop row rows) at 3. rewrite elem_of_app. tauto.
Qed.

Lemma insertRow_plain (row : nat) (item : Item) (rows : list Item) :
  itemIsSubComponent (Some item) = false →
  Forall (λ it, itemIsSubComponent (Some it) = false) rows →
  Forall (λ it, itemIsSubComponent (Some it) = false)
         (insertRow row (droppedRow item) rows).
Proof.
  intros Hit Hrows. unfold insertRow. apply Forall_app. split.
  - by apply Forall_take.
  - apply Forall_cons. split; [exact Hit|by apply Forall_drop].
Qed.

(** [updateInputs] leaves the tree's drop action alone. *)
Lemma updateInputs_dropAction (node : string) (w : World) :
  _dropAction (updateInputs node w).2 = _dropAction w.
Proof.
  cut (preserves (λ w', _dropAction w' = _dropAction w) (updateInputs node)).
  { intros Hp. exact (Hp w eq_refl). }
  unfold updateInputs.
  assert (Hfill : ∀ l, preserves (λ w', _dropAction w' = _dropAction w)
                         (updateInputs_fill l)).
  { induction l as [|x l IH]; simpl; [apply preserves_ret|].
    apply preserves_bind; [unfold uiName; mpres|intros name].
    apply preserves_bind; [apply preserves_get|intros w0].
    apply preserves_bind; [|intros _; exact IH].
    apply preserves_modify. by intros [] ?. }
  apply preserves_bind; [apply preserves_get|intros w0].
  destruct (_ || _); [apply preserves_ret|].
  apply preserves_bind; [apply preserves_modify; by intros [] ?|intros _].
  apply preserves_bind; [apply preserves_modify; by intros [] ?|intros _].
  apply preserves_bind; [|intros _; apply preserves_modify; by intros [] ?].
  apply preserves_try_except; [|apply preserves_ret].
  apply preserves_bind; [unfold nodeInputs; mpres|intros c].
  apply Hfill.
Qed.

(** The world a drop from the tree leaves, by what the host says to the
    proposal: the rows of the list, with the new one, as the inputs of the
    view node. *)
Lemma dropFromTree_run `{HostPolicy} (action : DropAction) (dragged : Item)
    (row : nat) (w : World) (V : string) (r : NodeRec) :
  _inputOrderLock w = false →
  currentView w = Some V →
  nodes w !! V = Some r →
  Forall (λ it, itemIsSubComponent (Some it) = false) (_inputsModel w) →
  (λ it, itemNode (Some it)) <$> _inputsModel w = ninputs r →
  itemIsSubComponent (Some dragged) = false →
  let l := insertRow row (itemNode (Some dragged)) (ninputs r) in
  ∃ w3, nodes w3 = nodes w ∧ calls w3 = calls w ∧ _dropAction w3 = _dropAction w ∧
    match testNodeInputs_policy (nodes w) V l with
    | Ok None =>
        InputsView_dropFromTree action dragged row w = (Ok tt, after_commit V r l w3)
    | Ok (Some msg) =>
        InputsView_dropFromTree action dragged row w
        = (Ok tt, (updateInputs V (after_alert V l msg w3)).2)
    | Raise =>
        InputsView_dropFromTree action dragged row w
        = (Ok tt, (updateInputs V (after_test V l w3)).2)
    end.
Proof.
  intros Hlock Hview Hn Hplain Hrows Hdr l.
  unfold InputsView_dropFromTree.
  assert (Hact : InputsView_dropEvent true action = CopyAction) by done.
  rewrite Hact.
  set (w0 := set_inputsModel
               (insertRow row (droppedRow dragged) (_inputsModel w)) w).
  assert (Hrows0 : (λ it, itemNode (Some it)) <$> _inputsModel w0 = l).
  { assert (Hm : _inputsModel w0
                 = insertRow row (droppedRow dragged) (_inputsModel w))
      by (by destruct w).
    rewrite Hm, insertRow_fmap, Hrows. by destruct dragged. }
  assert (Hplain0 : Forall (λ it, itemIsSubComponent (Some it) = false)
                      (_inputsModel w0)).
  { assert (Hm : _inputsModel w0
                 = insertRow row (droppedRow dragged) (_inputsModel w))
      by (by destruct w).
    rewrite Hm. by apply insertRow_plain. }
  assert (Hlk0 : _inputOrderLock w0 = false) by (by destruct w).
  assert (Hv0 : currentView w0 = Some V) by (by destruct w).
  assert (Hslot : inputRowsInsertedSlot w0 = (Ok true, w0)).
  { unfold inputRowsInsertedSlot, viewNode. munfold. by rewrite Hlk0, Hv0. }
  mbinds. mstep_refl. fold w0. mstep Hslot. cbn [when].
  unfold rebuildInputsFromList. mbinds. mstep_refl. rewrite Hlk0.
  unfold viewNode. mstep_refl. rewrite Hv0.
  mstep_refl. rewrite (bind_run _ _ _ _ _ (rebuildInputs_loop_plain _ Hplain0 [] _)).
  cbv beta iota. rewrite app_nil_l.
  change (map (λ it, itemNode (Some it)) (_inputsModel w0))
    with ((λ it, itemNode (Some it)) <$> _inputsModel w0).
  rewrite Hrows0.
  set (w2 := set_disableUpdates true w0).
  assert (Hset : setViewNode V w2 = (Ok tt, set_currentView (Some V) w2)).
  { unfold setViewNode. munfold.
    assert (Hn2 : nodes w2 !! V = Some r) by (by destruct w). by rewrite Hn2. }
  mstep Hset. mstep_refl.
  set (w3 := set_disableUpdates false (set_currentView (Some V) w2)).
  exists w3.
  assert (Hg3 : nodes w3 = nodes w) by (by destruct w).
  split; [exact Hg3|]. split; [by destruct w|]. split; [by destruct w|].
  pose proof (setInputs_cases V l w3) as Hc.
  rewrite Hg3, Hn in Hc.
  destruct (testNodeInputs_policy (nodes w) V l) as [[msg|]|]; mstep Hc; cbn [negb when].
  - destruct (updateInputs_releases_lock V (after_alert V l msg w3)) as [Hok _].
    destruct (updateInputs V (after_alert V l msg w3)) as [res W]. simpl in *.
    by subst res.
  - done.
  - destruct (updateInputs_releases_lock V (after_test V l w3)) as [Hok _].
    destruct (updateInputs V (after_test V l w3)) as [res W]. simpl in *.
    by subst res.
Qed.

(** The copy branch of [viewItemChanged] when the new parent is a node that
    lacks the dragged node: the stored parent reference is rewritten
    whatever the host says, and the graph changes with the host's
    consent only. *)
Lemma viewItemChanged_copy_adds `{HostPolicy} (item : Item) (w : World)
    (p : string) (r : NodeRec) :
  _dropAction w = CopyAction →
  parentOf item = Some p → p ≠ "" → nodes w !! p = Some r →
  itemNode (Some item) ∉ ninputs r →
  let l := ninputs r ++ [itemNode (Some item)] in
  (viewItemChanged item w).1 = Ok (setData_PARENT_NODE (Some p) item) ∧
  (testNodeInputs_policy (nodes w) p l = Ok None →
     nodes (viewItemChanged item w).2 = <[p := mkNode (ntype r) l]> (nodes w) ∧
     calls (viewItemChanged item w).2
     = calls w ++ [CTestNodeInputs p l; CSetNodeInputs p l]) ∧
  (testNodeInputs_policy (nodes w) p l ≠ Ok None →
     nodes (viewItemChanged item w).2 = nodes w).
Proof.
  intros Hcopy Hparent Hp Hn Hin l.
  unfold viewItemChanged. fold (parentOf item). rewrite Hparent. mbinds.
  mstep_refl. mstep_refl.
  rewrite Hcopy. rewrite bool_decide_true by done.
  pose proof (hasInput_Some_node _ (itemNode (Some item)) _ _ Hp Hn) as Hh.
  unfold py_in in Hh. rewrite bool_decide_false in Hh by done.
  mstep Hh. cbn [negb].
  unfold addInput_opt.
  pose proof (setInputs_cases p l w) as Hc. rewrite Hn in Hc.
  assert (Hadd : ∃ b W, addInput p (itemNode (Some item)) w = (Ok b, W) ∧
            match testNodeInputs_policy (nodes w) p l with
            | Ok None => W = after_commit p r l w
            | Ok (Some msg) => W = after_alert p l msg w
            | Raise => W = after_test p l w
            end).
  { rewrite (addInput_Some _ _ _ _ Hn). fold l.
    destruct (testNodeInputs_policy _ _ _) as [[msg|]|]; rewrite Hc;
      eexists _, _; (split; [done|]); done. }
  destruct Hadd as (b & W & Hadd & HW).
  mstep Hadd.
  destruct (folder_tail (truthy (Some p)) (Some p)
              (setData_PARENT_NODE (Some p) item) W) as [fs Hfs].
  rewrite Hfs. cbn [fst snd].
  split; [done|].
  change (nodes (set_sortFolders fs W)) with (nodes W).
  change (calls (set_sortFolders fs W)) with (calls W).
  destruct (testNodeInputs_policy (nodes w) p l) as [[msg|]|]; subst W.
  - split; [done|]. intros _. done.
  - split; [|done]. intros _. split; [done|]. apply calls_after_commit.
  - split; [done|]. intros _. done.
Qed.

(** The copy branch of [viewItemChanged] when the new parent has the
    dragged node already: nothing happens, not to the stored parent
    reference either. *)
Lemma viewItemChanged_copy_present `{HostPolicy} (item : Item) (w : World)
    (p : string) (r : NodeRec) :
  _dropAction w = CopyAction →
  parentOf item = Some p → p ≠ "" → nodes w !! p = Some r →
  itemNode (Some item) ∈ ninputs r →
  viewItemChanged item w = (Ok item, w).
Proof.
  intros Hcopy Hparent Hp Hn Hin.
  unfold viewItemChanged. fold (parentOf item). rewrite Hparent. mbinds.
  mstep_refl. mstep_refl.
  rewrite Hcopy. rewrite bool_decide_true by done.
  pose proof (hasInput_Some_node _ (itemNode (Some item)) _ _ Hp Hn) as Hh.
  unfold py_in in Hh. rewrite bool_decide_true in Hh by done.
  by mstep Hh.
Qed.

(** What the copy branch can do at most: hand the item back with its
    stored parent reference rewritten or not, change the graph in one place,
    the input list of the new parent, by appending the dragged node there,
    and make that one [setNodeInputs] call.  No input of any node is lost
    and no node deleted. *)
Lemma viewItemChanged_copy_keeps `{HostPolicy} (item : Item) (w : World) :
  _dropAction w = CopyAction →
  let node := itemNode (Some item) in
  let parent := parentOf item in
  let w' := (viewItemChanged item w).2 in
  (∃ item', (viewItemChanged item w).1 = Ok item' ∧
            (item' = item ∨ item' = setData_PARENT_NODE parent item)) ∧
  (nodes w' = nodes w ∨
   ∃ p r, parent = Some p ∧ nodes w !! p = Some r ∧ (node ∉ ninputs r) ∧
          nodes w' = <[p := mkNode (ntype r) (ninputs r ++ [node])]> (nodes w)) ∧
  (∀ n x, x ∈ inputs_of w n → x ∈ inputs_of w' n) ∧
  (∀ n l, CSetNodeInputs n l ∈ calls w' →
          CSetNodeInputs n l ∈ calls w ∨
          (parent = Some n ∧ l = inputs_of w n ++ [node])) ∧
  (∀ n, CDeleteNode n ∈ calls w' → CDeleteNode n ∈ calls w).
Proof.
  intros Hcopy node parent w'. subst node parent w'.
  destruct (viewItemChanged_copy_cases item w Hcopy)
    as [Hsame|(fs & W & Hrun & HW)].
  { rewrite Hsame. simpl. split; [eauto|]. split; [by left|]. split; [done|].
    split; [by left|done]. }
  rewrite Hrun. cbn [fst snd].
  split; [eauto|].
  destruct HW as [->|(p & r & Hparent & Hp & Hn & Hin & [->|[[msg ->]| ->]])].
  - simpl. split; [by left|]. split; [done|]. split; [by left|done].
  - split; [|split; [|split]].
    + right. exists p, r. done.
    + intros n x Hx.
      change (inputs_of (set_sortFolders fs ?W) n) with (inputs_of W n).
      rewrite inputs_of_after_commit. destruct (decide (p = n)) as [<-|]; [|done].
      unfold inputs_of in Hx. rewrite Hn in Hx. apply elem_of_app. by left.
    + intros n l.
      change (calls (set_sortFolders fs ?W)) with (calls W).
      rewrite calls_after_commit.
      intros [?|Hnew]%elem_of_app; [by left|right].
      apply elem_of_cons in Hnew as [?|Hnew]; [done|].
      apply list_elem_of_singleton in Hnew as [= -> ->].
      split; [done|]. unfold inputs_of. by rewrite Hn.
    + intros n.
      change (calls (set_sortFolders fs ?W)) with (calls W).
      rewrite calls_after_commit.
      intros [?|Hnew]%elem_of_app; [done|].
      apply elem_of_cons in Hnew as [?|Hnew]; [done|].
      by apply list_elem_of_singleton in Hnew.
  - split; [by left|]. split; [done|].
    change (calls (set_sortFolders fs ?W)) with (calls W).
    rewrite calls_after_alert. split.
    + intros n l [?|Hnew]%elem_of_app; [by left|].
      apply elem_of_cons in Hnew as [?|Hnew]; [done|].
      by apply list_elem_of_singleton in Hnew.
    + intros n [?|Hnew]%elem_of_app; [done|].
      apply elem_of_cons in Hnew as [?|Hnew]; [done|].
      by apply list_elem_of_singleton in Hnew.
  - split; [by left|]. split; [done|].
    change (calls (set_sortFolders fs ?W)) with (calls W).
    unfold after_test. simpl. split.
    + intros n l [?|Hnew]%elem_of_app; [by left|].
      by apply list_elem_of_singleton in Hnew.
    + intros n [?|Hnew]%elem_of_app; [done|].
      by apply list_elem_of_singleton in Hnew.
Qed.

(** C4 (amended): drops carried as a copy never detach.

    A drop from the tree on the inputs list is always carried as a copy.
    With the order lock open, a view node [V] whose inputs the list shows
    row by row, and a dragged item that stands for a node [X], the drop
    returns and proposes to the host, as the inputs of [V], the old inputs
    with [X] put in at the drop row, whether or not [X] was among them.
    When the host allows that list it becomes the input list of [V], the
    only host calls being the pre-check and the one [setNodeInputs]; when
    the host does not, the graph is as before.  Either way every other
    node keeps its input list, no node loses an input (the tree parent of
    [X] keeps it), no other [setNodeInputs] call and no [deleteNode] call is
    made, and the tree's drop action is left alone.

    The copy branch of [viewItemChanged], which serves the tree's own drops,
    rewrites the item's stored parent reference and, with the host's
    consent, appends the node to the inputs of the new parent when that is a
    node lacking it; it does nothing at all when the new parent has the node
    already; whatever the case, the graph changes at most by that one
    appended input, the only [setNodeInputs] call it can make is that one,
    it makes no [deleteNode] call and it takes no input from any node. *)
Theorem copy_drop_never_detaches `{HostPolicy} :
  (∀ action, InputsView_dropEvent true action = CopyAction) ∧
  (∀ (action : DropAction) (dragged : Item) (row : nat) (w : World)
     (V : string) (r : NodeRec),
     _inputOrderLock w = false →
     currentView w = Some V →
     nodes w !! V = Some r →
     Forall (λ it, itemIsSubComponent (Some it) = false) (_inputsModel w) →
     (λ it, itemNode (Some it)) <$> _inputsModel w = ninputs r →
     itemIsSubComponent (Some dragged) = false →
     let X := itemNode (Some dragged) in
     let l := insertRow row X (ninputs r) in
     let w' := (InputsView_dropFromTree action dragged row w).2 in
     (InputsView_dropFromTree action dragged row w).1 = Ok tt ∧
     (testNodeInputs_policy (nodes w) V l = Ok None →
        nodes w' = <[V := mkNode (ntype r) l]> (nodes w) ∧
        calls w' = calls w ++ [CTestNodeInputs V l; CSetNodeInputs V l]) ∧
     (testNodeInputs_policy (nodes w) V l ≠ Ok None → nodes w' = nodes w) ∧
     (∀ n, n ≠ V → nodes w' !! n = nodes w !! n) ∧
     (∀ n x, x ∈ inputs_of w n → x ∈ inputs_of w' n) ∧
     (∀ n l', CSetNodeInputs n l' ∈ calls w' →
              CSetNodeInputs n l' ∈ calls w ∨ (n = V ∧ l' = l)) ∧
     (∀ n, CDeleteNode n ∈ calls w' → CDeleteNode n ∈ calls w) ∧
     _dropAction w' = _dropAction w) ∧
  (∀ (item : Item) (w : World),
     _dropAction w = CopyAction →
     let node := itemNode (Some item) in
     let parent := parentOf item in
     let w' := (viewItemChanged item w).2 in
     (∀ p r, parentOf item = Some p → p ≠ "" → nodes w !! p = Some r →
             node ∉ ninputs r →
             let l := ninputs r ++ [node] in
             (viewItemChanged item w).1 = Ok (setData_PARENT_NODE (Some p) item) ∧
             (testNodeInputs_policy (nodes w) p l = Ok None →
                nodes w' = <[p := mkNode (ntype r) l]> (nodes w) ∧
                calls w' = calls w ++ [CTestNodeInputs p l; CSetNodeInputs p l]) ∧
             (testNodeInputs_policy (nodes w) p l ≠ Ok None →
                nodes w' = nodes w)) ∧
     (∀ p r, parentOf item = Some p → p ≠ "" → nodes w !! p = Some r →
             node ∈ ninputs r →
             viewItemChanged item w = (Ok item, w)) ∧
     (∃ item', (viewItemChanged item w).1 = Ok item' ∧
               (item' = item ∨ item' = setData_PARENT_NODE parent item)) ∧
     (nodes w' = nodes w ∨
      ∃ p r, parent = Some p ∧ nodes w !! p = Some r ∧ (node ∉ ninputs r) ∧
             nodes w' = <[p := mkNode (ntype r) (ninputs r ++ [node])]> (nodes w)) ∧
     (∀ n x, x ∈ inputs_of w n → x ∈ inputs_of w' n) ∧
     (∀ n l, CSetNodeInputs n l ∈ calls w' →
             CSetNodeInputs n l ∈ calls w ∨
             (parent = Some n ∧ l = inputs_of w n ++ [node])) ∧
     (∀ n, CDeleteNode n ∈ calls w' → CDeleteNode n ∈ calls w)).
Proof.
  split; [done|]. split.
  - intros action dragged row w V r Hlock Hview Hn Hplain Hrows Hdr X l w'.
    destruct (dropFromTree_run action dragged row w V r
                Hlock Hview Hn Hplain Hrows Hdr)
      as (w3 & Hg3 & Hc3 & Hd3 & Hrun).
    fold X in Hrun. fold l in Hrun. subst w'.
    assert (Hin3 : ∀ n, inputs_of w3 n = inputs_of w n).
    { intros n. unfold inputs_of. by rewrite Hg3. }
    destruct (testNodeInputs_policy (nodes w) V l) as [[msg|]|] eqn:Hpol;
      rewrite Hrun; cbn [fst snd].
    + destruct (updateInputs_graph V (after_alert V l msg w3)) as [Hg Hc].
      assert (Hgw : nodes (updateInputs V (after_alert V l msg w3)).2 = nodes w).
      { rewrite Hg. exact Hg3. }
      split; [done|]. split; [done|]. split; [done|].
      split; [intros n _; by rewrite Hgw|].
      split; [intros n x; unfold inputs_of; by rewrite Hgw|].
      split.
      { intros n l'. rewrite Hc, calls_after_alert, Hc3.
        intros [?|Hnew]%elem_of_app; [by left|].
        apply elem_of_cons in Hnew as [?|Hnew]; [done|].
        by apply list_elem_of_singleton in Hnew. }
      split.
      * intros n. rewrite Hc, calls_after_alert, Hc3.
        intros [?|Hnew]%elem_of_app; [done|].
        apply elem_of_cons in Hnew as [?|Hnew]; [done|].
        by apply list_elem_of_singleton in Hnew.
      * rewrite <- Hd3. by apply (updateInputs_dropAction V (after_alert V l msg w3)).
    + split; [done|]. split.
      { intros _. split.
        - unfold after_commit. simpl. by rewrite Hg3.
        - by rewrite calls_after_commit, Hc3. }
      split; [done|].
      split.
      { intros n Hne. unfold after_commit. simpl.
        rewrite lookup_insert_ne by done. by rewrite Hg3. }
      split.
      { intros n x Hx. rewrite inputs_of_after_commit.
        destruct (decide (V = n)) as [<-|]; [|by rewrite Hin3].
        unfold inputs_of in Hx. rewrite Hn in Hx. simpl in Hx.
        apply insertRow_elem. by right. }
      split.
      { intros n l'. rewrite calls_after_commit, Hc3.
        intros [?|Hnew]%elem_of_app; [by left|right].
        apply elem_of_cons in Hnew as [?|Hnew]; [done|].
        by apply list_elem_of_singleton in Hnew as [= -> ->]. }
      split; [|by destruct w3].
      intros n. rewrite calls_after_commit, Hc3.
      intros [?|Hnew]%elem_of_app; [done|].
      apply elem_of_cons in Hnew as [?|Hnew]; [done|].
      by apply list_elem_of_singleton in Hnew.
    + destruct (updateInputs_graph V (after_test V l w3)) as [Hg Hc].
      assert (Hgw : nodes (updateInputs V (after_test V l w3)).2 = nodes w).
      { rewrite Hg. exact Hg3. }
      split; [done|]. split; [done|]. split; [done|].
      split; [intros n _; by rewrite Hgw|].
      split; [intros n x; unfold inputs_of; by rewrite Hgw|].
      split.
      { intros n l'. rewrite Hc. unfold after_test. simpl. rewrite Hc3.
        intros [?|Hnew]%elem_of_app; [by left|].
        by apply list_elem_of_singleton in Hnew. }
      split.
      * intros n. rewrite Hc. unfold after_test. simpl. rewrite Hc3.
        intros [?|Hnew]%elem_of_app; [done|].
        by apply list_elem_of_singleton in Hnew.
      * rewrite <- Hd3. by apply (updateInputs_dropAction V (after_test V l w3)).
  - intros item w Hcopy node parent w'. subst node parent w'.
    split; [intros p r Hparent Hp Hn Hin; by apply viewItemChanged_copy_adds|].
    split; [intros p r Hparent Hp Hn Hin; by eapply viewItemChanged_copy_present|].
    by apply viewItemChanged_copy_keeps.
Qed.


(** [X], an input of the folder [A], dropped from the tree on the empty
    inputs list of the view node [B]: [B] gains [X] and [A] keeps it.  And
    [X] dropped under [B] inside the tree, as a copy: the item's stored
    parent becomes [B], which gains [X], and [A] keeps it. *)
Lemma copy_drop_never_detaches_witness :
  inputs_of viewWorldB "A" = ["X"] ∧
  inputs_of (@InputsView_dropFromTree acceptAll MoveAction itemX_under_A 0
               viewWorldB).2 "B" = ["X"] ∧
  "X" ∈ inputs_of (@InputsView_dropFromTree acceptAll MoveAction itemX_under_A 0
                     viewWorldB).2 "A" ∧
  calls (@InputsView_dropFromTree acceptAll MoveAction itemX_under_A 0
           viewWorldB).2
  = [CTestNodeInputs "B" ["X"]; CSetNodeInputs "B" ["X"]] ∧
  (@viewItemChanged acceptAll itemX_under_B copyWorld).1
  = Ok (setData_PARENT_NODE (Some "B") itemX_under_B) ∧
  inputs_of (@viewItemChanged acceptAll itemX_under_B copyWorld).2 "B" = ["X"] ∧
  "X" ∈ inputs_of (@viewItemChanged acceptAll itemX_under_B copyWorld).2 "A".
Proof.
  destruct (@copy_drop_never_detaches acceptAll) as (_ & Hlist & Htree).
  destruct (Hlist MoveAction itemX_under_A 0%nat viewWorldB "B"
              (mkNode "RVFolderGroup" []))
    as (_ & Hacc & _ & _ & Hkeep & _); try reflexivity.
  { constructor. }
  destruct (Hacc eq_refl) as [Hg Hc].
  destruct (Htree itemX_under_B copyWorld eq_refl)
    as (Hadd & _ & _ & _ & Hkeep' & _).
  destruct (Hadd "B" (mkNode "RVFolderGroup" []))
    as (Hitem & Hacc' & _); try done.
  { apply not_elem_of_nil. }
  destruct (Hacc' eq_refl) as [Hg' _].
  split; [reflexivity|].
  split; [unfold inputs_of; rewrite Hg; reflexivity|].
  split; [apply Hkeep; vm_compute; constructor|].
  split; [exact Hc|].
  split; [exact Hitem|].
  split; [unfold inputs_of; rewrite Hg'; reflexivity|].
  apply Hkeep'. vm_compute. constructor.
Defined.

(** The view node [A] has [X] as its only input and the list shows it;
    [X] is dropped from the tree on the list, below that row.  The host
    allowing it, [A] then has [X] twice: the drop on the list does not look
    whether the node is an input already. *)
Example list_drop_adds_a_present_node :
  inputs_of viewWorld "A" = ["X"] ∧
  (@InputsView_dropFromTree acceptAll MoveAction itemX_under_A 1 viewWorld)
  = (Ok tt,
     set_nodes (λ _, <["A" := mkNode "RVFolderGroup" ["X"; "X"]]> graphAXB)
       (set_calls (λ _, [CTestNodeInputs "A" ["X"; "X"];
                         CSetNodeInputs "A" ["X"; "X"]])
          (set_inputsModel
             [mkItem "X" 0 None (Some "X") None None None None None;
              droppedRow itemX_under_A] viewWorld))).
Proof. vm_compute. done. Qed.

(** ** Helpers: edge behaviour and read-back *)

(** ** Input helpers on names that are no node *)

(** X7: on a name that is no node, [addInput] and [removeInput] change
    nothing and still answer [True]; [hasInput] answers [False], except for
    the empty name, where it answers [True] (as it does for [None]). *)
Theorem input_helpers_on_missing_node `{HostPolicy} (n x : string) (w : World) :
  nodes w !! n = None →
  addInput n x w = (Ok true, w) ∧
  removeInput n x w = (Ok true, w) ∧
  hasInput (Some n) x w = (Ok (bool_decide (n = "")), w) ∧
  hasInput None x w = (Ok true, w).
Proof.
  intros Hn. split; [by apply addInput_None|]. split; [|split; [|done]].
  - unfold removeInput. destruct (decide (n = "")) as [->|Hne].
    + by rewrite bool_decide_false by (intros Hc; by apply Hc).
    + rewrite bool_decide_true by done. unfold try_except. munfold.
      by rewrite (nodeConnections_None _ _ Hn).
  - destruct (decide (n = "")) as [->|Hne].
    + unfold hasInput. by rewrite !bool_decide_true.
    + rewrite (bool_decide_false (n = "")) by done. by apply hasInput_no_node.
Qed.

Lemma input_helpers_on_missing_node_witness :
  @addInput acceptAll "ghost" "X" emptyWorld = (Ok true, emptyWorld) ∧
  @removeInput acceptAll "ghost" "X" emptyWorld = (Ok true, emptyWorld) ∧
  hasInput (Some "ghost") "X" emptyWorld = (Ok false, emptyWorld).
Proof.
  destruct (@input_helpers_on_missing_node acceptAll "ghost" "X" emptyWorld eq_refl)
    as (Ha & Hr & Hh & _).
  by rewrite Ha, Hr, Hh.
Defined.

(** ** Adding and removing an input, when the host allows it *)

(** X8: [addInput(node, x)] on an existing node, when the host allows the
    proposal: it answers [True], the node's inputs are the old list with
    [x] appended at the end (also when [x] was in the list already: there is
    no membership test), no other node changes, and [hasInput(node, x)] is
    [True] afterwards. *)
Theorem addInput_appends `{HostPolicy} (n x : string) (r : NodeRec) (w : World) :
  n ≠ "" →
  nodes w !! n = Some r →
  testNodeInputs_policy (nodes w) n (ninputs r ++ [x]) = Ok None →
  (addInput n x w).1 = Ok true ∧
  inputs_of (addInput n x w).2 n = ninputs r ++ [x] ∧
  (∀ n', n' ≠ n → nodes (addInput n x w).2 !! n' = nodes w !! n') ∧
  (hasInput (Some n) x (addInput n x w).2).1 = Ok true.
Proof.
  intros Hne Hn Hacc.
  pose proof (setInputs_cases n (ninputs r ++ [x]) w) as Hc.
  rewrite Hacc, Hn in Hc. rewrite <- (addInput_Some _ x _ _ Hn) in Hc.
  rewrite Hc. cbn [fst snd]. split; [done|].
  split; [by rewrite inputs_of_after_commit, decide_True|].
  split.
  { intros n' Hn'. unfold after_commit. simpl. by rewrite lookup_insert_ne. }
  assert (Hn' : nodes (after_commit n r (ninputs r ++ [x]) w) !! n
                = Some (mkNode (ntype r) (ninputs r ++ [x]))).
  { unfold after_commit. simpl. apply lookup_insert_eq. }
  rewrite (hasInput_Some_node _ x _ _ Hne Hn'). simpl. unfold py_in.
  rewrite bool_decide_true; [done|].
  apply elem_of_app. right. by apply list_elem_of_singleton.
Qed.

Lemma addInput_appends_witness :
  inputs_of (@addInput acceptAll "A" "X" moveWorld).2 "A" = ["X"; "X"].
Proof.
  destruct (@addInput_appends acceptAll "A" "X" (mkNode "RVFolderGroup" ["X"])
              moveWorld) as (_ & Hin & _); try done.
Defined.

(** X9: [removeInput(node, x)] on an existing node, when the host allows
    the proposal: it answers [True], the node's inputs are the old list
    without any occurrence of [x], in the old order, no other node changes,
    and [hasInput(node, x)] is [False] afterwards. *)
Theorem removeInput_removes_all `{HostPolicy} (n x : string) (r : NodeRec) (w : World) :
  n ≠ "" →
  nodes w !! n = Some r →
  testNodeInputs_policy (nodes w) n (filter (λ y, y ≠ x) (ninputs r)) = Ok None →
  (removeInput n x w).1 = Ok true ∧
  inputs_of (removeInput n x w).2 n = filter (λ y, y ≠ x) (ninputs r) ∧
  (∀ n', n' ≠ n → nodes (removeInput n x w).2 !! n' = nodes w !! n') ∧
  (hasInput (Some n) x (removeInput n x w).2).1 = Ok false.
Proof.
  intros Hne Hn Hacc.
  pose proof (setInputs_cases n (filter (λ y, y ≠ x) (ninputs r)) w) as Hc.
  rewrite Hacc, Hn in Hc. rewrite <- (removeInput_Some _ x _ _ Hne Hn) in Hc.
  rewrite Hc. cbn [fst snd]. split; [done|].
  split; [by rewrite inputs_of_after_commit, decide_True|].
  split.
  { intros n' Hn'. unfold after_commit. simpl. by rewrite lookup_insert_ne. }
  assert (Hn' : nodes (after_commit n r (filter (λ y, y ≠ x) (ninputs r)) w) !! n
                = Some (mkNode (ntype r) (filter (λ y, y ≠ x) (ninputs r)))).
  { unfold after_commit. simpl. apply lookup_insert_eq. }
  rewrite (hasInput_Some_node _ x _ _ Hne Hn'). simpl. unfold py_in.
  rewrite bool_decide_false; [done|]. apply filter_ne_not_in.
Qed.

Lemma removeInput_removes_all_witness :
  inputs_of (@removeInput acceptAll "A" "X" moveWorld).2 "A" = [].
Proof.
  destruct (@removeInput_removes_all acceptAll "A" "X"
              (mkNode "RVFolderGroup" ["X"]) moveWorld) as (_ & Hin & _); try done.
Defined.

(** ** Expansion state, read back *)

Lemma py_in_remove_other (ps : list string) (p p' : string) :
  p' ≠ p → py_in p' (remove ps p) = py_in p' ps.
Proof.
  intros Hne. unfold py_in, remove. apply bool_decide_ext.
  rewrite list_elem_of_filter. split; [by intros [_ ?]|by split].
Qed.

Lemma py_in_app_other (ps : list string) (p p' : string) :
  p' ≠ p → py_in p' (ps ++ [p]) = py_in p' ps.
Proof.
  intros Hne. unfold py_in. apply bool_decide_ext.
  rewrite elem_of_app, list_elem_of_singleton.
  split; [intros [?|?]; [done|by exfalso]|by left].
Qed.

(** X10: where a node's expansion property exists (as strings),
    [setExpandedInParent(node, parent, e)] followed by
    [isExpandedInParent(node, parent)] answers [e], and the answer for every
    other parent is what it was. *)
Theorem setExpandedInParent_read_back (node parent : string) (e : bool)
    (ps : list string) (w : World) :
  props w !! expandState_name node = Some (PString ps) →
  (isExpandedInParent node parent (setExpandedInParent node parent e w).2).1 = Ok e ∧
  (∀ p', p' ≠ parent →
     (isExpandedInParent node p' (setExpandedInParent node parent e w).2).1
     = (isExpandedInParent node p' w).1) ∧
  nodes (setExpandedInParent node parent e w).2 = nodes w.
Proof.
  intros HP. rewrite (setExpandedInParent_present _ _ _ _ _ HP). cbn [snd].
  assert (Hold : ∀ p', (isExpandedInParent node p' w).1 = Ok (py_in p' ps)).
  { intros p'. by rewrite (isExpandedInParent_read _ _ _ _ HP). }
  destruct (py_in parent ps) eqn:Hin, e; cbn [negb andb fst snd].
  - split; [by rewrite Hold, Hin|]. done.
  - split; [|split; [|done]].
    + erewrite isExpandedInParent_read by (simpl; apply lookup_insert_eq).
      unfold py_in. rewrite bool_decide_false; [done|apply remove_not_in].
    + intros p' Hp'. erewrite isExpandedInParent_read by (simpl; apply lookup_insert_eq).
      rewrite Hold. cbn [fst]. by rewrite py_in_remove_other.
  - split; [|split; [|done]].
    + erewrite isExpandedInParent_read by (simpl; apply lookup_insert_eq).
      unfold py_in. rewrite bool_decide_true; [done|].
      apply elem_of_app. right. by apply list_elem_of_singleton.
    + intros p' Hp'. erewrite isExpandedInParent_read by (simpl; apply lookup_insert_eq).
      rewrite Hold. cbn [fst]. by rewrite py_in_app_other.
  - split; [by rewrite Hold, Hin|]. done.
Qed.

Lemma setExpandedInParent_read_back_witness :
  (isExpandedInParent "n" "p"
     (setExpandedInParent "n" "p" false
        (setExpandedInParent "n" "p" true emptyWorld).2).2).1 = Ok false.
Proof.
  refine (proj1 (setExpandedInParent_read_back "n" "p" false ["p"]
                   (setExpandedInParent "n" "p" true emptyWorld).2 _)).
  reflexivity.
Defined.

Lemma isSubComponentExpanded_read node item w ps :
  props w !! expandedSubState_name node = Some (PString ps) →
  isSubComponentExpanded node item w
  = (Ok (py_in (hashedSubComponentFromItem item) ps), w).
Proof.
  unfold expandedSubState_name, isSubComponentExpanded, propertyExists,
    getStringProperty.
  munfold. intros HP. rewrite HP. simpl. rewrite HP. done.
Qed.

Lemma setSubComponentExpanded_present node item expanded w ps :
  props w !! expandedSubState_name node = Some (PString ps) →
  setSubComponentExpanded node item expanded w =
    (Ok tt,
     let key := hashedSubComponentFromItem item in
     if py_in key ps && negb expanded then
       set_props (<[expandedSubState_name node := PString (remove ps key)]>) w
     else if negb (py_in key ps) && expanded then
       set_props (<[expandedSubState_name node := PString (ps ++ [key])]>) w
     else w).
Proof.
  unfold expandedSubState_name, setSubComponentExpanded, propertyExists,
    getStringProperty, setStringProperty.
  munfold. intros HP. rewrite HP. simpl. rewrite HP. simpl.
  destruct (py_in _ ps), expanded; simpl; try done; by rewrite HP.
Qed.

(** X11: the same for sub-components, which are told apart by their hash:
    where the node's sub-component expansion property exists,
    [setSubComponentExpanded(node, item, e)] followed by
    [isSubComponentExpanded(node, item)] answers [e], also for every other
    item with the same hash, and the answer for an item with another hash is
    what it was. *)
Theorem setSubComponentExpanded_read_back (node : string) (item : Item) (e : bool)
    (ps : list string) (w : World) :
  props w !! expandedSubState_name node = Some (PString ps) →
  (∀ item',
     hashedSubComponentFromItem item' = hashedSubComponentFromItem item →
     (isSubComponentExpanded node item'
        (setSubComponentExpanded node item e w).2).1 = Ok e) ∧
  (∀ item',
     hashedSubComponentFromItem item' ≠ hashedSubComponentFromItem item →
     (isSubComponentExpanded node item'
        (setSubComponentExpanded node item e w).2).1
     = (isSubComponentExpanded node item' w).1).
Proof.
  intros HP. rewrite (setSubComponentExpanded_present _ _ _ _ _ HP).
  cbn [snd]. cbv zeta.
  set (key := hashedSubComponentFromItem item).
  assert (Hcases :
    ∃ ps', props (if py_in key ps && negb e
                  then set_props (<[expandedSubState_name node := PString (remove ps key)]>) w
                  else if negb (py_in key ps) && e
                       then set_props (<[expandedSubState_name node := PString (ps ++ [key])]>) w
                       else w) !! expandedSubState_name node = Some (PString ps') ∧
           py_in key ps' = e ∧ ∀ k, k ≠ key → py_in k ps' = py_in k ps).
  { destruct (py_in key ps) eqn:Hin, e; cbn [negb andb].
    - exists ps. by rewrite HP.
    - exists (remove ps key). split; [simpl; apply lookup_insert_eq|].
      split; [|intros; by apply py_in_remove_other].
      unfold py_in. rewrite bool_decide_false; [done|apply remove_not_in].
    - exists (ps ++ [key]). split; [simpl; apply lookup_insert_eq|].
      split; [|intros; by apply py_in_app_other].
      unfold py_in. rewrite bool_decide_true; [done|].
      apply elem_of_app. right. by apply list_elem_of_singleton.
    - exists ps. by rewrite HP. }
  destruct Hcases as (ps' & HP' & Hkey & Hother).
  split; intros item' Hh.
  - rewrite (isSubComponentExpanded_read _ _ _ _ HP'). cbn [fst]. by rewrite Hh, Hkey.
  - rewrite (isSubComponentExpanded_read _ _ _ _ HP'),
      (isSubComponentExpanded_read _ _ _ _ HP). cbn [fst]. by rewrite Hother.
Qed.

Lemma setSubComponentExpanded_read_back_witness :
  (isSubComponentExpanded "src" itemMissingMedia
     (setSubComponentExpanded "src" itemMissingMedia false
        (setSubComponentExpanded "src" itemMissingMedia true emptyWorld).2).2).1
  = Ok false.
Proof.
  refine (proj1 (setSubComponentExpanded_read_back "src" itemMissingMedia false
                   ["missing.exr!~!~"]
                   (setSubComponentExpanded "src" itemMissingMedia true emptyWorld).2 _)
            itemMissingMedia eq_refl).
  reflexivity.
Defined.

(** ** Sort keys whose two arrays have come apart *)

(** X12: when the two sort-key arrays of a node have different lengths,
    every parent reads the undefined key; [setSortKeyInParent(node, parent,
    k)] then repairs the pair by starting over: afterwards the arrays hold
    the one new entry, [parent] reads [k], and every other parent, whatever
    was stored for it, still reads the undefined key. *)
Theorem setSortKeyInParent_repairs_desync (node parent : string) (k : Z)
    (ps : list string) (ks : list Z) (w : World) :
  props w !! sortKeyParent_name node = Some (PString ps) →
  props w !! sortKey_name node = Some (PInt ks) →
  length ps ≠ length ks →
  (∀ p', (sortKeyInParent node p' w).1 = Ok undefinedKey) ∧
  props (setSortKeyInParent node parent k w).2
  = reset_props node parent k (props w) ∧
  (sortKeyInParent node parent (setSortKeyInParent node parent k w).2).1 = Ok k ∧
  (∀ p', p' ≠ parent →
     (sortKeyInParent node p' (setSortKeyInParent node parent k w).2).1
     = Ok undefinedKey).
Proof.
  intros HP HK Hlen.
  assert (Hwt : sortProps_well_typed w node).
  { split; intros v Hv; rewrite Hv in *; simplify_eq; eauto. }
  pose proof (setSortKeyInParent_props node parent k w Hwt) as Hprops.
  rewrite HP, HK, bool_decide_false in Hprops by done.
  split.
  { intros p'. apply sortKeyInParent_desync. intros ps' ks' HP' HK'.
    rewrite HP in HP'. rewrite HK in HK'. by simplify_eq. }
  split; [exact Hprops|].
  assert (Hread : ∀ p', (sortKeyInParent node p'
                           (setSortKeyInParent node parent k w).2).1
                        = Ok (lookup_key [parent] [k] p')).
  { intros p'. apply sortKeyInParent_read; rewrite Hprops; unfold reset_props.
    - rewrite lookup_insert_ne by (intros Heq; by apply (sort_names_differ node)).
      apply lookup_insert_eq.
    - apply lookup_insert_eq. }
  split.
  - rewrite Hread, lookup_key_reset. by rewrite bool_decide_true.
  - intros p' Hp'. rewrite Hread, lookup_key_reset. by rewrite bool_decide_false.
Qed.

Lemma setSortKeyInParent_repairs_desync_witness :
  (sortKeyInParent "n" "a" desyncWorld).1 = Ok undefinedKey ∧
  (sortKeyInParent "n" "c" (setSortKeyInParent "n" "c" 5 desyncWorld).2).1 = Ok 5 ∧
  (sortKeyInParent "n" "a" (setSortKeyInParent "n" "c" 5 desyncWorld).2).1
  = Ok undefinedKey.
Proof.
  destruct (setSortKeyInParent_repairs_desync "n" "c" 5 ["a"; "b"] [1] desyncWorld)
    as (Hbefore & _ & Hset & Hother); [done|done|done|].
  split; [apply Hbefore|]. split; [exact Hset|]. by apply Hother.
Defined.

(** ** The image request of a sub-component item *)

(** X13: the request [subComponentPropValue] builds for an item is empty or
    starts with the name of the item's own sub-component type (so that
    [componentMatch] of that name and the type holds) and ends with the
    item's own value.  For a view it is [view] and the value; for a layer
    [layer], the parent's value when the parent is a view (else the empty
    string) and the value; for a channel it depends on the length of the
    parent's request: [channel], two empty strings and the value for length
    0, the parent's second element filled in for length 2, its second and
    third for length 3, and nothing at all for any other length; for
    everything else it is empty. *)
Theorem subComponentPropValue_shape (item : Item) :
  let t := itemSubComponentType (Some item) in
  let v := subComponentPropValue item in
  let value := itemSubComponentValue (Some item) in
  let pv := parentRequest item in
  (v = [] ∨
   ∃ tag rest, v = tag :: rest ∧ componentMatch tag t = true ∧
               last v = Some value) ∧
  (t = ViewSubComponent → v = ["view"; value]) ∧
  (t = LayerSubComponent → v = ["layer"; parentViewValue item; value]) ∧
  (t = ChannelSubComponent →
   (length pv = 0%nat → v = ["channel"; ""; ""; value]) ∧
   (length pv = 2%nat → v = ["channel"; default "" (pv !! 1%nat); ""; value]) ∧
   (length pv = 3%nat →
    v = ["channel"; default "" (pv !! 1%nat); default "" (pv !! 2%nat); value]) ∧
   (length pv ≠ 0%nat → length pv ≠ 2%nat → length pv ≠ 3%nat → v = [])) ∧
  (t ≠ ViewSubComponent → t ≠ LayerSubComponent → t ≠ ChannelSubComponent →
   v = []).
Proof.
  intros t v value pv. subst v pv. unfold parentRequest, parentViewValue.
  destruct item as [txt col pn n st sv h m par].
  unfold subComponentPropValue; fold subComponentPropValue.
  cbn [item_parent]. fold t. fold value.
  destruct (t =? MediaSubComponent) eqn:H1.
  { apply Z.eqb_eq in H1. rewrite H1.
    split; [by left|]. repeat split; try done. }
  destruct (t =? ViewSubComponent) eqn:H2.
  { apply Z.eqb_eq in H2. rewrite H2. split.
    - right. eexists _, _. split; [done|]. by split.
    - repeat split; try done. }
  destruct (t =? LayerSubComponent) eqn:H3.
  { apply Z.eqb_eq in H3. rewrite H3. split.
    - right. eexists _, _. split; [done|]. by split.
    - split; [done|]. split; [intros _; by destruct par|]. split; done. }
  destruct (t =? ChannelSubComponent) eqn:H4.
  { apply Z.eqb_eq in H4. rewrite H4.
    set (pv := match par with Some p => subComponentPropValue p | None => [] end).
    destruct pv as [|? [|? [|? [|? ?]]]].
    - split; [right; eexists _, _; by repeat split|]. repeat split; try done.
    - split; [by left|]. repeat split; try done.
    - split; [right; eexists _, _; by repeat split|]. repeat split; try done.
    - split; [right; eexists _, _; by repeat split|]. repeat split; try done.
    - split; [by left|]. repeat split; try done. }
  apply Z.eqb_neq in H2, H3, H4.
  split; [by left|]. repeat split; try done.
Qed.

(** ** Tool tips *)

(** X14: a tool tip written with [setToolTipProp] is what [toolTipFromProp]
    reads back, provided the tool-tip property is missing or holds strings;
    [toolTipFromProp] answers [None] where the property is missing or empty
    and changes nothing; and where the property holds integers,
    [setToolTipProp], which has no handler, raises. *)
Theorem toolTip_round_trip (node toolTip : string) (w : World) :
  ((∀ v, props w !! toolTip_name node = Some v → ∃ ps, v = PString ps) →
   (setToolTipProp node toolTip w).1 = Ok tt ∧
   (toolTipFromProp node (setToolTipProp node toolTip w).2).1 = Ok (Some toolTip)) ∧
  (props w !! toolTip_name node = None ∨
   props w !! toolTip_name node = Some (PString []) →
   toolTipFromProp node w = (Ok None, w)) ∧
  (∀ ks, props w !! toolTip_name node = Some (PInt ks) →
         (setToolTipProp node toolTip w).1 = Raise).
Proof.
  unfold toolTip_name, setToolTipProp, toolTipFromProp, setStringProperty,
    propertyExists, getStringProperty, try_except.
  munfold. split; [|split].
  - intros Hwt. destruct (props w !! (node +:+ ".sm_state.toolTip")) as [v|] eqn:HP.
    + destruct (Hwt v eq_refl) as [ps ->]. simpl.
      rewrite lookup_insert_eq. simpl. rewrite lookup_insert_eq. done.
    + simpl. rewrite lookup_insert_eq. simpl. rewrite lookup_insert_eq. done.
  - intros [HP|HP]; rewrite HP; simpl; [done|]. by rewrite HP.
  - intros ks HP. by rewrite HP.
Qed.

Lemma toolTip_round_trip_witness :
  (toolTipFromProp "n" (setToolTipProp "n" "a clip" emptyWorld).2).1
  = Ok (Some "a clip") ∧
  toolTipFromProp "n" emptyWorld = (Ok None, emptyWorld).
Proof.
  destruct (toolTip_round_trip "n" "a clip" emptyWorld) as (Hset & Hget & _).
  split.
  - apply Hset. intros v Hv. vm_compute in Hv. discriminate.
  - apply Hget. by left.
Defined.

(** ** The tree model: finding items and numbering children *)

(** ** Walking the tree model *)

Lemma postorder_unfold (item : ModelItem) :
  postorder item = postorder_rows (mi_rows item) ++ [item].
Proof.
  by destruct item as [it rows].
Qed.

Lemma mapOverItem_unfold F (item : ModelItem) acc :
  mapOverItem F item acc
  = (if kept F item then mapModel_rows F (mi_rows item) acc ++ [item]
     else mapModel_rows F (mi_rows item) acc).
Proof.
  destruct item as [it rows]. unfold kept. simpl.
  assert (Hrows : ∀ acc,
    (fix rows (cs : list (option ModelItem)) (acc : list ModelItem) :=
       match cs with
       | [] => acc
       | Some child :: cs' => rows cs' (mapOverItem F child acc)
       | None :: cs' => rows cs' acc
       end) rows acc = mapModel_rows F rows acc).
  { induction rows as [|[c|] rows IH]; intros acc'; simpl; [done| |]; apply IH. }
  by rewrite Hrows.
Qed.

(** [mapModel] walks the model children-first and keeps what [kept] says. *)
Lemma mapOverItem_postorder F :
  ∀ item acc, mapOverItem F item acc
              = acc ++ filter (λ i, kept F i = true) (postorder item).
Proof.
  fix IH 1. intros [it rows] acc.
  rewrite mapOverItem_unfold, postorder_unfold. cbn [mi_rows].
  assert (Hrows : ∀ acc', mapModel_rows F rows acc'
                          = acc' ++ filter (λ i, kept F i = true) (postorder_rows rows)).
  { induction rows as [|[c|] rows IHrows]; intros acc'; simpl.
    - by rewrite app_nil_r.
    - rewrite IHrows, IH, filter_app. by rewrite <- app_assoc.
    - apply IHrows. }
  rewrite !Hrows, filter_app.
  destruct (kept F (mkModelItem it rows)) eqn:Hk.
  - rewrite filter_cons_True by done. by rewrite <- app_assoc.
  - rewrite filter_cons_False by (by rewrite Hk). by rewrite app_nil_r.
Qed.

Lemma mapModel_postorder (model : list (option ModelItem)) F :
  mapModel model F None = filter (λ i, kept F i = true) (postorder_rows model).
Proof.
  unfold mapModel.
  assert (Hrows : ∀ acc, mapModel_rows F model acc
                         = acc ++ filter (λ i, kept F i = true) (postorder_rows model)).
  { induction model as [|[c|] rows IH]; intros acc; simpl.
    - by rewrite app_nil_r.
    - rewrite IH, mapOverItem_postorder, filter_app. by rewrite <- app_assoc.
    - apply IH. }
  by rewrite Hrows.
Qed.

Lemma head_filter_split {A} (P : A → Prop) `{∀ x, Decision (P x)} (l : list A) :
  match head (filter P l) with
  | Some x => ∃ l1 l2, l = l1 ++ x :: l2 ∧ P x ∧ Forall (λ y, ¬ P y) l1
  | None => Forall (λ y, ¬ P y) l
  end.
Proof.
  induction l as [|a l IH]; [by constructor|].
  rewrite filter_cons. destruct (decide (P a)) as [Ha|Ha].
  - simpl. exists [], l. by repeat split.
  - destruct (head (filter P l)) as [x|].
    + destruct IH as (l1 & l2 & -> & Hx & Hl1).
      exists (a :: l1), l2. repeat split; [done|by constructor].
    + by constructor.
Qed.

(** X15: [itemOfNode(model, node)] walks the model children-first and
    returns the first item whose node is [node] and that is not a
    sub-component: the item returned has that node, the name is not empty,
    and no item before it in that order qualifies; it returns [None]
    exactly when no item qualifies, which is always so for the empty name. *)
Theorem itemOfNode_first_match (model : list (option ModelItem)) (node : string) :
  match itemOfNode model node with
  | Some item =>
      itemNode (Some (mi_item item)) = node ∧ node ≠ "" ∧
      itemIsSubComponent (Some (mi_item item)) = false ∧
      ∃ before after,
        postorder_rows model = before ++ item :: after ∧
        ∀ i, i ∈ before →
             itemNode (Some (mi_item i)) = node →
             itemIsSubComponent (Some (mi_item i)) = true
  | None =>
      node = "" ∨
      ∀ i, i ∈ postorder_rows model →
           itemNode (Some (mi_item i)) = node →
           itemIsSubComponent (Some (mi_item i)) = true
  end.
Proof.
  unfold itemOfNode. rewrite mapModel_postorder.
  set (F := λ i : Item, bool_decide (itemNode (Some i) = node)
                        && negb (itemIsSubComponent (Some i))).
  assert (Hkept : ∀ i, kept F i = true ↔
                       itemNode (Some (mi_item i)) = node ∧ node ≠ "" ∧
                       itemIsSubComponent (Some (mi_item i)) = false).
  { intros i. unfold kept, F.
    rewrite !andb_true_iff, !negb_true_iff, bool_decide_eq_false, bool_decide_eq_true.
    split; [intros (Hne & <- & Hs)|intros (<- & Hne & Hs)]; done. }
  pose proof (head_filter_split (λ i, kept F i = true) (postorder_rows model)) as Hh.
  destruct (head (filter _ (postorder_rows model))) as [item|].
  - destruct Hh as (l1 & l2 & Hl & Hitem & Hl1).
    apply Hkept in Hitem as (Hn & Hne & Hs). repeat split; try done.
    exists l1, l2. split; [done|]. intros i Hi Hin.
    rewrite Forall_forall in Hl1. specialize (Hl1 i Hi).
    destruct (itemIsSubComponent (Some (mi_item i))) eqn:Hsub; [done|].
    exfalso. apply Hl1, Hkept. done.
  - destruct (decide (node = "")) as [->|Hne]; [by left|]. right.
    intros i Hi Hin. rewrite Forall_forall in Hh. specialize (Hh i Hi).
    destruct (itemIsSubComponent (Some (mi_item i))) eqn:Hsub; [done|].
    exfalso. apply Hh, Hkept. done.
Qed.

(** ** Property paths of different nodes *)

Lemma list_ascii_of_string_app (a b : string) :
  String.list_ascii_of_string (a +:+ b)
  = (String.list_ascii_of_string a ++ String.list_ascii_of_string b)%list.
Proof. induction a as [|c a IH]; simpl; [done|]. by rewrite IH. Qed.

Lemma append_inj_r (a b s : string) : a +:+ s = b +:+ s → a = b.
Proof.
  intros Heq. apply (f_equal String.list_ascii_of_string) in Heq.
  rewrite !list_ascii_of_string_app in Heq. apply app_inv_tail in Heq.
  rewrite <- (String.string_of_list_ascii_of_string a), <- (String.string_of_list_ascii_of_string b).
  by rewrite Heq.
Qed.

(** Two paths that end differently differ, whatever the nodes are. *)
Lemma append_last_differs (a b s t : string) :
  head (rev (String.list_ascii_of_string s)) ≠ head (rev (String.list_ascii_of_string t)) →
  s ≠ "" → t ≠ "" →
  a +:+ s ≠ b +:+ t.
Proof.
  intros Hlast Hs Ht Heq. apply Hlast.
  apply (f_equal (λ x, head (rev (String.list_ascii_of_string x)))) in Heq.
  rewrite !list_ascii_of_string_app, !rev_app_distr in Heq.
  destruct (rev (String.list_ascii_of_string s)) as [|c l] eqn:Es.
  { exfalso. apply Hs. apply (f_equal (@rev Ascii.ascii)) in Es.
    rewrite rev_involutive in Es. simpl in Es.
    rewrite <- (String.string_of_list_ascii_of_string s). by rewrite Es. }
  destruct (rev (String.list_ascii_of_string t)) as [|c' l'] eqn:Et.
  { exfalso. apply Ht. apply (f_equal (@rev Ascii.ascii)) in Et.
    rewrite rev_involutive in Et. simpl in Et.
    rewrite <- (String.string_of_list_ascii_of_string t). by rewrite Et. }
  exact Heq.
Qed.

Lemma sortKeyParent_name_inj a b : sortKeyParent_name a = sortKeyParent_name b → a = b.
Proof. apply append_inj_r. Qed.

Lemma sortKey_name_inj a b : sortKey_name a = sortKey_name b → a = b.
Proof. apply append_inj_r. Qed.

Lemma sortKey_name_ne_parent a b : sortKey_name a ≠ sortKeyParent_name b.
Proof. apply append_last_differs; done. Qed.

(** ** Sort keys of different nodes *)

(** [setSortKeyInParent] writes the two sort-key properties of its node and
    nothing else. *)
Lemma setSortKeyInParent_frame node parent k w :
  (∀ name, name ≠ sortKeyParent_name node → name ≠ sortKey_name node →
           props (setSortKeyInParent node parent k w).2 !! name = props w !! name) ∧
  set_props (λ _, props w) (setSortKeyInParent node parent k w).2 = w.
Proof.
  unfold sortKeyParent_name, sortKey_name.
  unfold setSortKeyInParent, propertyExists, getStringProperty, getIntProperty,
    setStringProperty, setIntProperty, try_except.
  munfold. split.
  - intros name H1 H2.
    repeat (first [ progress simpl | case_match ]); simplify_eq/=;
      rewrite ?lookup_insert_ne by done; done.
  - destruct w.
    repeat (first [ progress simpl | case_match ]); simplify_eq/=; done.
Qed.

(** What [sortKeyInParent] answers depends on the node's two sort-key
    properties only. *)
Lemma sortKeyInParent_ext node p w w' :
  props w' !! sortKeyParent_name node = props w !! sortKeyParent_name node →
  props w' !! sortKey_name node = props w !! sortKey_name node →
  (sortKeyInParent node p w').1 = (sortKeyInParent node p w).1.
Proof.
  unfold sortKeyParent_name, sortKey_name.
  unfold sortKeyInParent, propertyExists, getStringProperty, getIntProperty,
    try_except.
  munfold. intros H1 H2.
  destruct (props w !! (node +:+ ".sm_state.sortKeyParent")) as [[?|?]|] eqn:EP;
    destruct (props w !! (node +:+ ".sm_state.sortKey")) as [[?|?]|] eqn:EK;
    repeat (progress (simpl; rewrite ?H1, ?H2, ?EP, ?EK)); try done.
  destruct (_ || _); simpl; [done|]. by destruct (py_getitem _ _).
Qed.

Lemma setSortKeyInParent_other node parent k w node' p' :
  node' ≠ node →
  (sortKeyInParent node' p' (setSortKeyInParent node parent k w).2).1
  = (sortKeyInParent node' p' w).1 ∧
  (sortProps_well_typed w node' →
   sortProps_well_typed (setSortKeyInParent node parent k w).2 node').
Proof.
  intros Hne.
  destruct (setSortKeyInParent_frame node parent k w) as [Hframe _].
  assert (HP : props (setSortKeyInParent node parent k w).2 !! sortKeyParent_name node'
               = props w !! sortKeyParent_name node').
  { apply Hframe.
    - intros Heq. by apply sortKeyParent_name_inj in Heq.
    - intros Heq. symmetry in Heq. by apply sortKey_name_ne_parent in Heq. }
  assert (HK : props (setSortKeyInParent node parent k w).2 !! sortKey_name node'
               = props w !! sortKey_name node').
  { apply Hframe.
    - apply sortKey_name_ne_parent.
    - intros Heq. by apply sortKey_name_inj in Heq. }
  split; [by apply sortKeyInParent_ext|].
  unfold sortProps_well_typed. by rewrite HP, HK.
Qed.

(** The loop of [assignSortOrder]: the rows with an item get consecutive
    keys from [k] on. *)
Lemma assignSortOrder_rows_spec (rootNode : string) (rows : list (option ModelItem)) :
  ∀ (k : Z) (w : World),
    let ns := map (λ c, itemNode (Some (mi_item c))) (omap id rows) in
    NoDup ns →
    (∀ n, n ∈ ns → sortProps_well_typed w n) →
    ∃ w', assignSortOrder_rows rootNode rows k w = (Ok tt, w') ∧
          (∀ (i : nat) n, ns !! i = Some n →
                          (sortKeyInParent n rootNode w').1 = Ok (k + Z.of_nat i)) ∧
          (∀ n p, n ∉ ns →
                  (sortKeyInParent n p w').1 = (sortKeyInParent n p w).1) ∧
          set_props (λ _, props w) w' = w.
Proof.
  induction rows as [|[c|] rows IH]; intros k w ns Hnd Hwt; subst ns.
  - exists w. split; [done|]. split; [by intros i n ?|]. split; [done|by destruct w].
  - cbn [omap map id assignSortOrder_rows] in *.
    apply NoDup_cons in Hnd as [Hc Hnd].
    set (n0 := itemNode (Some (mi_item c))) in *.
    set (w1 := (setSortKeyInParent n0 rootNode k w).2).
    assert (Hrun : setSortKeyInParent n0 rootNode k w = (Ok tt, w1)).
    { pose proof (setSortKeyInParent_returns n0 rootNode k w) as Hret.
      subst w1. by destruct (setSortKeyInParent n0 rootNode k w) as [[[]|] ?]. }
    destruct (IH (k + 1) w1) as (w' & Hloop & Hkeys & Hother & Hrest); [done| |].
    { intros n Hn. subst w1.
      assert (Hne : n ≠ n0) by (by intros ->).
      apply (proj2 (setSortKeyInParent_other n0 rootNode k w n rootNode Hne)).
      apply Hwt. by right. }
    exists w'. mbinds. mstep Hrun. split; [exact Hloop|].
    split; [|split].
    + intros [|i] n Hi; simpl in Hi.
      * injection Hi as <-. rewrite Hother by done. subst w1.
        rewrite Z.add_0_r.
        apply (sortKey_round_trip_aux n0 rootNode k w). apply Hwt. by left.
      * rewrite (Hkeys i n Hi). f_equal. lia.
    + intros n p Hn. rewrite Hother by (intros ?; apply Hn; by right).
      subst w1.
      assert (Hne : n ≠ n0) by (intros ->; apply Hn; by left).
      apply (proj1 (setSortKeyInParent_other n0 rootNode k w n p Hne)).
    + destruct (setSortKeyInParent_frame n0 rootNode k w) as [_ Hfr].
      fold w1 in Hfr.
      transitivity (set_props (λ _, props w) (set_props (λ _, props w1) w'));
        [by destruct w'|].
      rewrite Hrest. exact Hfr.
  - cbn [omap map id assignSortOrder_rows] in *. by apply IH.
Qed.

(** X16: [assignSortOrder(root)] numbers the children of [root]: when the
    items in column 0 of its rows are of pairwise different nodes (whose
    sort-key properties, where present, have the kinds the code writes), it
    returns, and afterwards [sortKeyInParent(child, root)] is the position of
    the child among those items, counted from 0; the sort keys of every
    other node are as they were, and only properties have changed. *)
Theorem assignSortOrder_numbers_children (root : ModelItem) (w : World) :
  NoDup (childNodes root) →
  (∀ n, n ∈ childNodes root → sortProps_well_typed w n) →
  (assignSortOrder (Some root) w).1 = Ok tt ∧
  (∀ (i : nat) n,
     childNodes root !! i = Some n →
     (sortKeyInParent n (itemNode (Some (mi_item root)))
        (assignSortOrder (Some root) w).2).1 = Ok (Z.of_nat i)) ∧
  (∀ n p, n ∉ childNodes root →
          (sortKeyInParent n p (assignSortOrder (Some root) w).2).1
          = (sortKeyInParent n p w).1) ∧
  set_props (λ _, props w) (assignSortOrder (Some root) w).2 = w.
Proof.
  intros Hnd Hwt. unfold assignSortOrder, try_except. cbv zeta.
  destruct (assignSortOrder_rows_spec (itemNode (Some (mi_item root)))
              (mi_rows root) 0 w Hnd Hwt) as (w' & Hrun & Hkeys & Hother & Hrest).
  rewrite Hrun. cbn [fst snd]. split; [done|]. split; [|by split].
  intros i n Hi. by rewrite (Hkeys i n Hi).
Qed.

Lemma assignSortOrder_numbers_children_witness :
  (sortKeyInParent "X" "A" (assignSortOrder (Some folderA_rows) emptyWorld).2).1 = Ok 0 ∧
  (sortKeyInParent "Y" "A" (assignSortOrder (Some folderA_rows) emptyWorld).2).1 = Ok 1.
Proof.
  destruct (assignSortOrder_numbers_children folderA_rows emptyWorld)
    as (_ & Hkeys & _).
  - apply NoDup_cons. split; [by intros ?%list_elem_of_singleton|apply NoDup_singleton].
  - intros n _. split; intros v Hv; vm_compute in Hv; discriminate.
  - split; [apply (Hkeys 0%nat "X")|apply (Hkeys 1%nat "Y")]; reflexivity.
Defined.

(** ** Emptying the sort queue *)

Lemma only_sort_keys_refl w : only_sort_keys w w.
Proof. by split. Qed.

Lemma setSortKeyInParent_only_sort_keys w0 node parent k :
  preserves (only_sort_keys w0) (setSortKeyInParent node parent k).
Proof.
  intros w [Hprops Hrest].
  destruct (setSortKeyInParent_frame node parent k w) as [Hframe Hfr].
  split.
  - intros name Hname. rewrite Hframe by apply Hname. by apply Hprops.
  - rewrite <- Hrest. rewrite <- Hfr at 2.
    by destruct (setSortKeyInParent node parent k w).2.
Qed.

Lemma assignSortOrder_rows_only_sort_keys w0 rootNode rows :
  ∀ k, preserves (only_sort_keys w0) (assignSortOrder_rows rootNode rows k).
Proof.
  induction rows as [|[c|] rows IH]; intros k; cbn [assignSortOrder_rows].
  - apply preserves_ret.
  - mbinds. apply preserves_bind; [apply setSortKeyInParent_only_sort_keys|].
    intros _. apply IH.
  - apply IH.
Qed.

Lemma assignSortOrder_only_sort_keys w0 root :
  preserves (only_sort_keys w0) (assignSortOrder root).
Proof.
  destruct root as [r|]; [|apply preserves_ret].
  apply preserves_try_except; [|apply preserves_ret].
  apply assignSortOrder_rows_only_sort_keys.
Qed.

(** X17: [_doSortFolders] returns whatever the queue holds, leaves the
    queue empty, and on the way writes nothing but sort-key properties: every
    other property, the graph and the flags are as they were. *)
Theorem doSortFolders_empties_queue (viewModel : list (option ModelItem)) (w : World) :
  (_doSortFolders viewModel w).1 = Ok tt ∧
  _sortFolders (_doSortFolders viewModel w).2 = [] ∧
  (∀ name, (∀ n, name ≠ sortKeyParent_name n ∧ name ≠ sortKey_name n) →
           props (_doSortFolders viewModel w).2 !! name = props w !! name) ∧
  set_props (λ _, props w) (_doSortFolders viewModel w).2 = set_sortFolders [] w.
Proof.
  unfold _doSortFolders. mbinds. mstep_refl.
  set (body := λ folder : string, try_except _ (ret tt)).
  assert (Hret : returns (for_each (_sortFolders w) body)).
  { apply returns_for_each. intros f. apply returns_try_except, returns_ret. }
  assert (Hkeep : preserves (only_sort_keys w) (for_each (_sortFolders w) body)).
  { apply preserves_for_each. intros f. apply preserves_try_except; [|apply preserves_ret].
    destruct (itemOfNode viewModel f);
      [apply assignSortOrder_only_sort_keys|apply preserves_ret]. }
  specialize (Hkeep w (only_sort_keys_refl w)).
  pose proof (returns_unit _ w Hret) as Hok.
  destruct (for_each (_sortFolders w) body w) as [r w1] eqn:Hrun.
  cbn [fst snd] in *. subst r. mstep Hrun. unfold modify. cbn [fst snd].
  destruct Hkeep as [Hprops Hrest].
  split; [done|]. split; [by destruct w1|]. split.
  - intros name Hname. rewrite <- (Hprops name Hname). by destruct w1.
  - destruct w, w1. simpl in *. by simplify_eq.
Qed.

(** ** The inputs list: deleting and moving rows *)

(** ** Deleting the selected inputs *)

(** The inputs list shows the inputs [l]: row [i] is the item of [l !! i]. *)
Lemma in_sync_row (model : list Item) (l : list string) (i : nat) (x : string) :
  map (λ it, itemNode (Some it)) model = l →
  l !! i = Some x →
  inputsModel_row model (Z.of_nat i) = Z.of_nat i ∧
  nodeFromIndex model (Z.of_nat i) = x.
Proof.
  intros Hsync Hi. pose proof (lookup_lt_Some _ _ _ Hi) as Hlt.
  assert (Hlen : length model = length l) by (by rewrite <- Hsync, length_map).
  unfold inputsModel_row, nodeFromIndex.
  assert (Hin : (0 <=? Z.of_nat i) && (Z.of_nat i <? Z.of_nat (length model)) = true).
  { apply andb_true_iff. split; [apply Z.leb_le|apply Z.ltb_lt]; lia. }
  rewrite Hin. split; [done|]. rewrite Nat2Z.id.
  rewrite <- Hsync, list_lookup_fmap in Hi.
  destruct (model !! i) as [it|]; by simplify_eq/=.
Qed.

Lemma omap_cons_unfold {A B} (f : A → option B) (x : A) (l : list A) :
  omap f (x :: l) = match f x with
                    | Some y => y :: omap f l
                    | None => omap f l
                    end.
Proof. done. Qed.

Lemma unselected_rows (indices : list Z) (model : list Item) (l : list string) :
  map (λ it, itemNode (Some it)) model = l →
  ∀ (l' : list string) (k : nat),
    drop k l = l' →
    omap (λ i : nat,
            if negb (includes indices (inputsModel_row model (Z.of_nat i)))
            then Some (nodeFromIndex model (Z.of_nat i))
            else None)
         (seq k (length l'))
    = rows_not_in_from (Z.of_nat k) indices l'.
Proof.
  intros Hsync. induction l' as [|x l' IH]; intros k Hdrop; [done|].
  assert (Hk : l !! k = Some x).
  { rewrite <- (Nat.add_0_r k), <- lookup_drop, Hdrop. done. }
  destruct (in_sync_row model l k x Hsync Hk) as [Hrow Hnode].
  cbn [length seq rows_not_in_from]. rewrite omap_cons_unfold, Hrow, Hnode.
  rewrite (IH (S k)).
  - replace (Z.of_nat (S k)) with (Z.of_nat k + 1) by lia.
    by destruct (includes indices (Z.of_nat k)).
  - apply (f_equal (drop 1)) in Hdrop. rewrite drop_drop in Hdrop.
    by rewrite Nat.add_1_r in Hdrop.
Qed.

Lemma rows_not_in_from_none (l : list string) (k : Z) :
  rows_not_in_from k [] l = l.
Proof. revert k. induction l as [|x l IH]; intros k; simpl; [done|]. by rewrite IH. Qed.

Lemma rows_not_in_from_sublist indices (l : list string) (k : Z) :
  rows_not_in_from k indices l `sublist_of` l.
Proof.
  revert k. induction l as [|x l IH]; intros k; simpl; [done|].
  destruct (includes indices k); simpl.
  - by apply sublist_cons.
  - by apply sublist_skip.
Qed.

(** X18: [inputsDeleteSlot], with the order lock open, a view node that
    exists and the inputs list showing that node's inputs: when the host
    allows the proposal, the view node's inputs become the old list without
    the selected rows.  Rows go by position, not by name (another row of the
    same node stays), the order of the rest is kept, the result is a sublist
    of the old list, and with nothing selected the list is proposed as it
    is. *)
Theorem inputsDeleteSlot_removes_selected_rows `{HostPolicy}
    (indices : list Z) (vnode : string) (r : NodeRec) (w : World) :
  _inputOrderLock w = false →
  currentView w = Some vnode →
  nodes w !! vnode = Some r →
  map (λ it, itemNode (Some it)) (_inputsModel w) = ninputs r →
  testNodeInputs_policy (nodes w) vnode (rows_not_in indices (ninputs r)) = Ok None →
  (inputsDeleteSlot indices w).1 = Ok tt ∧
  inputs_of (inputsDeleteSlot indices w).2 vnode = rows_not_in indices (ninputs r) ∧
  (∀ n, n ≠ vnode → nodes (inputsDeleteSlot indices w).2 !! n = nodes w !! n) ∧
  rows_not_in indices (ninputs r) `sublist_of` ninputs r ∧
  rows_not_in [] (ninputs r) = ninputs r.
Proof.
  intros Hlock Hview Hn Hsync Hacc.
  unfold inputsDeleteSlot. mbinds. mstep_refl. rewrite Hlock.
  unfold viewNode. mstep_refl. rewrite Hview.
  unfold nodeInputs_opt. mstep (nodeInputs_Some vnode w r Hn).
  rewrite (unselected_rows indices (_inputsModel w) (ninputs r) Hsync (ninputs r) 0)
    by done.
  change (rows_not_in_from (Z.of_nat 0) indices (ninputs r))
    with (rows_not_in indices (ninputs r)).
  pose proof (setInputs_cases vnode (rows_not_in indices (ninputs r)) w) as Hc.
  rewrite Hacc, Hn in Hc.
  unfold try_except, setInputs_opt. rewrite (bind_run _ _ _ _ _ Hc). unfold ret.
  cbn [fst snd]. split; [done|].
  split; [by rewrite inputs_of_after_commit, decide_True|].
  split.
  { intros n Hne. unfold after_commit. simpl. by rewrite lookup_insert_ne. }
  split; [apply rows_not_in_from_sublist|apply rows_not_in_from_none].
Qed.

Lemma inputsDeleteSlot_removes_selected_rows_witness :
  inputs_of (@inputsDeleteSlot acceptAll [1; 3] fiveWorld).2 "V" = ["a"; "c"; "e"].
Proof.
  destruct (@inputsDeleteSlot_removes_selected_rows acceptAll [1; 3] "V"
              (mkNode "RVSequenceGroup" fiveInputs) fiveWorld)
    as (_ & Hin & _); [done|done|done|done|done|].
  exact Hin.
Defined.

(** ** Moving the selected inputs up or down *)

Section reorder.
Context (up : bool) (indices : list Z) (minRow maxRow : Z) (model : list Item).

Let tgt := reorder_target up indices minRow maxRow model.
Let numRows := Z.of_nat (length model).
Let place (A : list string) (i : Z) : list string :=
  if (0 <=? tgt i) && (tgt i <? numRows)
  then <[Z.to_nat (tgt i) := nodeFromIndex model i]> A else A.

Lemma reorder_step_eq (A : list string) (L : list Z) (i : Z) :
  reorder_step up indices minRow maxRow model numRows (A, L) i
  = (place A i,
     if includes indices (inputsModel_row model i)
     then L ++ [inputsModel_row model i + (if up then -1 else 1)] else L).
Proof.
  unfold reorder_step, place, tgt, reorder_target. cbv zeta.
  destruct (includes indices (inputsModel_row model i)); [done|].
  by destruct (_ && _).
Qed.

Lemma reorder_fold (rows : list Z) :
  ∀ A L,
    foldl (reorder_step up indices minRow maxRow model numRows) (A, L) rows
    = (foldl place A rows,
       L ++ map (λ i, inputsModel_row model i + (if up then -1 else 1))
                (filter (λ i, includes indices (inputsModel_row model i) = true) rows)).
Proof.
  induction rows as [|i rows IH]; intros A L; cbn [foldl].
  { simpl. by rewrite app_nil_r. }
  rewrite reorder_step_eq, IH. f_equal. rewrite filter_cons.
  destruct (includes indices (inputsModel_row model i)) eqn:Hi.
  - rewrite decide_True by done. simpl. by rewrite <- app_assoc.
  - rewrite decide_False by done. done.
Qed.

Lemma place_length (rows : list Z) :
  ∀ A, length (foldl place A rows) = length A.
Proof.
  induction rows as [|i rows IH]; intros A; simpl; [done|].
  rewrite IH. unfold place. destruct (_ && _); [apply length_insert|done].
Qed.

Lemma place_other (rows : list Z) (j : nat) :
  ∀ A, (∀ i, i ∈ rows → tgt i ≠ Z.of_nat j) →
       foldl place A rows !! j = A !! j.
Proof.
  induction rows as [|i rows IH]; intros A Hne; simpl; [done|].
  rewrite IH by (intros i' Hi'; apply Hne; by right).
  unfold place. destruct (_ && _) eqn:Hin; [|done].
  apply andb_true_iff in Hin as [H0 _]. apply Z.leb_le in H0.
  apply list_lookup_insert_ne. intros Heq.
  apply (Hne i); [by left|]. lia.
Qed.

Lemma place_put (rows : list Z) (i : Z) :
  ∀ A, i ∈ rows →
       0 ≤ tgt i < Z.of_nat (length A) →
       length A = length model →
       (∀ i', i' ∈ rows → i' ≠ i → tgt i' ≠ tgt i) →
       foldl place A rows !! Z.to_nat (tgt i) = Some (nodeFromIndex model i).
Proof.
  induction rows as [|x rows IH]; intros A Hi Hrange Hlen Hinj.
  { by apply elem_of_nil in Hi. }
  simpl. destruct (decide (i ∈ rows)) as [Hin|Hnin].
  - apply IH; [done| | |].
    + unfold place. destruct (_ && _); [by rewrite length_insert|done].
    + unfold place. destruct (_ && _); [by rewrite length_insert|done].
    + intros i' Hi' Hne. apply Hinj; [by right|done].
  - apply elem_of_cons in Hi as [->|Hi]; [|done].
    rewrite place_other.
    + unfold place, numRows. rewrite <- Hlen.
      assert (Hr : (0 <=? tgt x) && (tgt x <? Z.of_nat (length A)) = true).
      { apply andb_true_iff. split; [apply Z.leb_le|apply Z.ltb_lt]; lia. }
      rewrite Hr. apply list_lookup_insert_eq. lia.
    + intros i' Hi' Heq. apply (Hinj i'); [by right|by intros ->|]. lia.
Qed.

End reorder.

(** *** A selection that is a block of rows *)

Lemma includes_spec (indices : list Z) (z : Z) :
  includes indices z = true ↔ z ∈ indices.
Proof.
  unfold includes. rewrite existsb_exists. split.
  - intros (x & Hx & Heq). apply Z.eqb_eq in Heq as ->. by apply list_elem_of_In.
  - intros Hz. exists z. split; [by apply list_elem_of_In|apply Z.eqb_refl].
Qed.

Lemma foldl_min_spec (rest : list Z) :
  ∀ x, foldl Z.min x rest ∈ x :: rest ∧
       ∀ y, y ∈ x :: rest → foldl Z.min x rest ≤ y.
Proof.
  induction rest as [|z rest IH]; intros x; simpl.
  { split; [by left|]. intros y ->%list_elem_of_singleton. lia. }
  destruct (IH (Z.min x z)) as [Hin Hle]. split.
  - apply elem_of_cons in Hin as [Heq|Hin]; [|right; by right].
    rewrite Heq. destruct (Z.min_spec x z) as [[_ ->]|[_ ->]]; [by left|right; by left].
  - intros y Hy. pose proof (Hle (Z.min x z) ltac:(by left)) as H0.
    apply elem_of_cons in Hy as [->|Hy]; [lia|].
    apply elem_of_cons in Hy as [->|Hy]; [lia|].
    apply Hle. by right.
Qed.

Lemma foldl_max_spec (rest : list Z) :
  ∀ x, foldl Z.max x rest ∈ x :: rest ∧
       ∀ y, y ∈ x :: rest → y ≤ foldl Z.max x rest.
Proof.
  induction rest as [|z rest IH]; intros x; simpl.
  { split; [by left|]. intros y ->%list_elem_of_singleton. lia. }
  destruct (IH (Z.max x z)) as [Hin Hle]. split.
  - apply elem_of_cons in Hin as [Heq|Hin]; [|right; by right].
    rewrite Heq. destruct (Z.max_spec x z) as [[_ ->]|[_ ->]]; [right; by left|by left].
  - intros y Hy. pose proof (Hle (Z.max x z) ltac:(by left)) as H0.
    apply elem_of_cons in Hy as [->|Hy]; [lia|].
    apply elem_of_cons in Hy as [->|Hy]; [lia|].
    apply Hle. by right.
Qed.

Lemma block_min_max (indices : list Z) (a b : Z) :
  (∀ z, z ∈ indices ↔ a ≤ z ≤ b) → a ≤ b →
  indices ≠ [] ∧ rows_min indices = a ∧ rows_max indices = b.
Proof.
  intros Hblock Hab.
  assert (Ha : a ∈ indices) by (apply Hblock; lia).
  assert (Hb : b ∈ indices) by (apply Hblock; lia).
  destruct indices as [|x rest]; [by apply elem_of_nil in Ha|].
  split; [done|]. unfold rows_min, rows_max.
  destruct (foldl_min_spec rest x) as [Hmin Hle].
  destruct (foldl_max_spec rest x) as [Hmax Hge].
  apply Hblock in Hmin. apply Hblock in Hmax.
  specialize (Hle a Ha). specialize (Hge b Hb). lia.
Qed.

Lemma block_size (indices : list Z) (a b : Z) :
  NoDup indices → (∀ z, z ∈ indices ↔ a ≤ z ≤ b) → a ≤ b →
  Z.of_nat (length (filter (λ r, a ≤ r ∧ r ≤ b) indices)) = b - a + 1.
Proof.
  intros Hnd Hblock Hab.
  assert (Hall : filter (λ r, a ≤ r ∧ r ≤ b) indices = indices).
  { clear Hnd. assert (Hf : Forall (λ r, a ≤ r ∧ r ≤ b) indices).
    { apply Forall_forall. intros z Hz. by apply Hblock. }
    clear Hblock. induction Hf as [|z l Hz _ IH]; [done|].
    by rewrite filter_cons_True, IH. }
  rewrite Hall.
  assert (Hperm : indices ≡ₚ seqZ a (b - a + 1)).
  { apply NoDup_Permutation; [done|apply NoDup_seqZ|].
    intros z. rewrite Hblock, elem_of_seqZ. lia. }
  rewrite Hperm, length_seqZ. lia.
Qed.

Lemma inputsModel_row_in_range (model : list Item) (i : Z) :
  0 ≤ i < Z.of_nat (length model) → inputsModel_row model i = i.
Proof.
  intros Hi. unfold inputsModel_row.
  assert (Hr : (0 <=? i) && (i <? Z.of_nat (length model)) = true).
  { apply andb_true_iff. split; [apply Z.leb_le|apply Z.ltb_lt]; lia. }
  by rewrite Hr.
Qed.

Lemma includes_block (indices : list Z) (a b z : Z) :
  (∀ z, z ∈ indices ↔ a ≤ z ≤ b) →
  includes indices z = (a <=? z) && (z <=? b).
Proof.
  intros Hblock. apply eq_true_iff_eq.
  rewrite includes_spec, Hblock, andb_true_iff, !Z.leb_le. done.
Qed.

(** Where the rows go when a block [a..b] moves: the block shifts by one and
    the row it passes jumps to its other end. *)
Lemma reorder_target_block (up : bool) (indices : list Z) (model : list Item)
    (a b i : Z) :
  NoDup indices → (∀ z, z ∈ indices ↔ a ≤ z ≤ b) → a ≤ b →
  0 ≤ i < Z.of_nat (length model) →
  reorder_target up indices (rows_min indices) (rows_max indices) model i
  = if (a <=? i) && (i <=? b) then (if up then i - 1 else i + 1)
    else if up then (if i =? a - 1 then b else i)
         else (if i =? b + 1 then a else i).
Proof.
  intros Hnd Hblock Hab Hi. unfold reorder_target. cbv zeta.
  destruct (block_min_max indices a b Hblock Hab) as (_ & -> & ->).
  rewrite (block_size indices a b Hnd Hblock Hab).
  rewrite (inputsModel_row_in_range model i Hi).
  rewrite (includes_block indices a b i Hblock).
  destruct ((a <=? i) && (i <=? b)) eqn:Hin; [by destruct up|].
  apply andb_false_iff in Hin.
  destruct up.
  - destruct (Z.eqb_spec i (a - 1)) as [->|Hne].
    + assert (Hr : (a + -1 <=? a - 1) && (a - 1 <=? b + -1) = true).
      { apply andb_true_iff. split; apply Z.leb_le; lia. }
      rewrite Hr. lia.
    + assert (Hr : (a + -1 <=? i) && (i <=? b + -1) = false).
      { apply andb_false_iff.
        destruct Hin as [Hin|Hin]; [apply Z.leb_gt in Hin|apply Z.leb_gt in Hin].
        - destruct (Z.leb_spec (a + -1) i); [right; apply Z.leb_gt; lia|by left].
        - right. apply Z.leb_gt. lia. }
      by rewrite Hr.
  - destruct (Z.eqb_spec i (b + 1)) as [->|Hne].
    + assert (Hr : (a + 1 <=? b + 1) && (b + 1 <=? b + 1) = true).
      { apply andb_true_iff. split; apply Z.leb_le; lia. }
      rewrite Hr. lia.
    + assert (Hr : (a + 1 <=? i) && (i <=? b + 1) = false).
      { apply andb_false_iff.
        destruct Hin as [Hin|Hin]; [apply Z.leb_gt in Hin|apply Z.leb_gt in Hin].
        - left. apply Z.leb_gt. lia.
        - destruct (Z.leb_spec i (b + 1)); [left; apply Z.leb_gt; lia|by right]. }
      by rewrite Hr.
Qed.

Lemma lookup_app4 {A} (l1 l2 l3 l4 : list A) (j : nat) :
  (l1 ++ l2 ++ l3 ++ l4) !! j
  = if (j <? length l1)%nat then l1 !! j
    else if (j <? length l1 + length l2)%nat then l2 !! (j - length l1)%nat
    else if (j <? length l1 + length l2 + length l3)%nat
         then l3 !! (j - length l1 - length l2)%nat
         else l4 !! (j - length l1 - length l2 - length l3)%nat.
Proof.
  destruct (Nat.ltb_spec j (length l1)); [by apply lookup_app_l|].
  rewrite lookup_app_r by lia.
  destruct (Nat.ltb_spec j (length l1 + length l2)); [apply lookup_app_l; lia|].
  rewrite lookup_app_r by lia.
  destruct (Nat.ltb_spec j (length l1 + length l2 + length l3)).
  - by rewrite lookup_app_l by lia.
  - by rewrite lookup_app_r by lia.
Qed.

Lemma block_moved_up_lookup (l : list string) (a b j : nat) :
  (0 < a)%nat → (a ≤ b)%nat → (b < length l)%nat →
  block_moved_up l a b !! j
  = l !! (if (j <? a - 1)%nat then j
          else if (j <? b)%nat then (j + 1)%nat
          else if (j =? b)%nat then (a - 1)%nat else j).
Proof.
  intros Ha Hab Hb. unfold block_moved_up. rewrite lookup_app4.
  rewrite !length_take, !length_drop.
  replace ((a - 1) `min` length l)%nat with (a - 1)%nat by lia.
  replace ((b - a + 1) `min` (length l - a))%nat with (b - a + 1)%nat by lia.
  replace (1 `min` (length l - (a - 1)))%nat with 1%nat by lia.
  destruct (Nat.ltb_spec j (a - 1)); [by apply lookup_take_lt|].
  replace (a - 1 + (b - a + 1))%nat with b by lia.
  destruct (Nat.ltb_spec j b).
  { rewrite lookup_take_lt by lia. rewrite lookup_drop. f_equal. lia. }
  destruct (Nat.ltb_spec j (b + 1)).
  { assert (j = b) as -> by lia. rewrite Nat.eqb_refl.
    rewrite lookup_take_lt by lia. rewrite lookup_drop. f_equal. lia. }
  destruct (Nat.eqb_spec j b); [lia|].
  rewrite lookup_drop. f_equal. lia.
Qed.

Lemma block_moved_down_lookup (l : list string) (a b j : nat) :
  (a ≤ b)%nat → (b + 1 < length l)%nat →
  block_moved_down l a b !! j
  = l !! (if (j <? a)%nat then j
          else if (j =? a)%nat then (b + 1)%nat
          else if (j <? b + 2)%nat then (j - 1)%nat else j).
Proof.
  intros Hab Hb. unfold block_moved_down. rewrite lookup_app4.
  rewrite !length_take, !length_drop.
  replace (a `min` length l)%nat with a by lia.
  replace (1 `min` (length l - (b + 1)))%nat with 1%nat by lia.
  replace ((b - a + 1) `min` (length l - a))%nat with (b - a + 1)%nat by lia.
  destruct (Nat.ltb_spec j a); [by apply lookup_take_lt|].
  destruct (Nat.ltb_spec j (a + 1)).
  { assert (j = a) as -> by lia. rewrite Nat.eqb_refl.
    rewrite lookup_take_lt by lia. rewrite lookup_drop. f_equal. lia. }
  destruct (Nat.eqb_spec j a); [lia|].
  replace (a + 1 + (b - a + 1))%nat with (b + 2)%nat by lia.
  destruct (Nat.ltb_spec j (b + 2)).
  { rewrite lookup_take_lt by lia. rewrite lookup_drop. f_equal. lia. }
  rewrite lookup_drop. f_equal. lia.
Qed.

Lemma block_moved_up_perm (l : list string) (a b : nat) :
  (0 < a)%nat → (a ≤ b)%nat → block_moved_up l a b ≡ₚ l.
Proof.
  intros Ha Hab. unfold block_moved_up.
  rewrite <- (take_drop (a - 1) l) at 5.
  apply Permutation_app_head.
  rewrite <- (take_drop 1 (drop (a - 1) l)) at 2.
  rewrite drop_drop. replace (a - 1 + 1)%nat with a by lia.
  rewrite <- (take_drop (b - a + 1) (drop a l)) at 2.
  rewrite drop_drop. replace (a + (b - a + 1))%nat with (b + 1)%nat by lia.
  rewrite !(assoc (++)). apply Permutation_app_tail. apply Permutation_app_comm.
Qed.

Lemma block_moved_down_perm (l : list string) (a b : nat) :
  (a ≤ b)%nat → block_moved_down l a b ≡ₚ l.
Proof.
  intros Hab. unfold block_moved_down.
  rewrite <- (take_drop a l) at 5.
  apply Permutation_app_head.
  rewrite <- (take_drop (b - a + 1) (drop a l)) at 2.
  rewrite drop_drop. replace (a + (b - a + 1))%nat with (b + 1)%nat by lia.
  rewrite <- (take_drop 1 (drop (b + 1) l)) at 2.
  rewrite drop_drop. replace (b + 1 + 1)%nat with (b + 2)%nat by lia.
  rewrite !(assoc (++)). apply Permutation_app_tail. apply Permutation_app_comm.
Qed.

Ltac cmp_cases :=
  repeat (match goal with
          | |- context [Z.leb ?x ?y] => destruct (Z.leb_spec x y)
          | |- context [Z.eqb ?x ?y] => destruct (Z.eqb_spec x y)
          | |- context [Nat.ltb ?x ?y] => destruct (Nat.ltb_spec x y)
          | |- context [Nat.eqb ?x ?y] => destruct (Nat.eqb_spec x y)
          | H : context [Z.leb ?x ?y] |- _ => destruct (Z.leb_spec x y)
          | H : context [Z.eqb ?x ?y] |- _ => destruct (Z.eqb_spec x y)
          end; cbn [andb] in *);
  try lia.

(** What the loop of [reorderSelected] leaves in [newNodes] for a block. *)
Lemma reorder_array_block (up : bool) (indices : list Z) (model : list Item)
    (l : list string) (a b : nat) :
  map (λ it, itemNode (Some it)) model = l →
  NoDup indices →
  (∀ z, z ∈ indices ↔ Z.of_nat a ≤ z ≤ Z.of_nat b) →
  (a ≤ b)%nat →
  (if up then (0 < a)%nat ∧ (b < length l)%nat else (b + 1 < length l)%nat) →
  (foldl (reorder_step up indices (rows_min indices) (rows_max indices) model
            (Z.of_nat (length model)))
         (replicate (length model) "", [])
         (seqZ 0 (Z.of_nat (length model)))).1
  = if up then block_moved_up l a b else block_moved_down l a b.
Proof.
  intros Hsync Hnd Hblock Hab Hbounds.
  assert (Hlen : length model = length l) by (by rewrite <- Hsync, length_map).
  rewrite reorder_fold. cbn [fst].
  set (F := foldl _ _ _).
  assert (HlenF : length F = length l).
  { subst F. by rewrite place_length, length_replicate. }
  assert (Htgt : ∀ i, 0 ≤ i < Z.of_nat (length model) →
            reorder_target up indices (rows_min indices) (rows_max indices) model i
            = if (Z.of_nat a <=? i) && (i <=? Z.of_nat b)
              then (if up then i - 1 else i + 1)
              else if up then (if i =? Z.of_nat a - 1 then Z.of_nat b else i)
                   else (if i =? Z.of_nat b + 1 then Z.of_nat a else i)).
  { intros i Hi. apply reorder_target_block; [done|done|lia|done]. }
  assert (Hput : ∀ i : nat, (i < length l)%nat →
            ∃ x, l !! i = Some x ∧
                 F !! Z.to_nat (reorder_target up indices (rows_min indices)
                                  (rows_max indices) model (Z.of_nat i)) = Some x).
  { intros i Hi. destruct (lookup_lt_is_Some_2 l i Hi) as [x Hx].
    exists x. split; [done|].
    rewrite <- (proj2 (in_sync_row model l i x Hsync Hx)).
    subst F. apply place_put.
    - apply elem_of_seqZ. lia.
    - rewrite length_replicate, Htgt by lia.
      destruct up; [destruct Hbounds|]; cmp_cases.
    - by rewrite length_replicate.
    - intros i' Hi' Hne. apply elem_of_seqZ in Hi'.
      rewrite !Htgt by lia.
      destruct up; [destruct Hbounds|]; cmp_cases. }
  apply list_eq. intros j.
  destruct (decide (j < length l)%nat) as [Hj|Hj].
  - destruct up.
    + destruct Hbounds as [Ha Hb]. rewrite block_moved_up_lookup by done.
      assert (Hsrc : ∃ i : nat,
        (if (j <? a - 1)%nat then j
         else if (j <? b)%nat then (j + 1)%nat
         else if (j =? b)%nat then (a - 1)%nat else j) = i ∧
        (i < length l)%nat ∧
        (if (Z.of_nat a <=? Z.of_nat i) && (Z.of_nat i <=? Z.of_nat b)
         then Z.of_nat i - 1
         else if Z.of_nat i =? Z.of_nat a - 1 then Z.of_nat b else Z.of_nat i)
        = Z.of_nat j).
      { destruct (Nat.ltb_spec j (a - 1)); [|destruct (Nat.ltb_spec j b);
          [|destruct (Nat.eqb_spec j b)]];
          (eexists; split; [reflexivity|]; split; [lia|]; cmp_cases). }
      destruct Hsrc as (i & -> & Hi & Hij).
      destruct (Hput i Hi) as (x & Hx & HF). rewrite Hx, <- HF. f_equal.
      rewrite Htgt by lia. rewrite Hij. by rewrite Nat2Z.id.
    + rewrite block_moved_down_lookup by done.
      assert (Hsrc : ∃ i : nat,
        (if (j <? a)%nat then j
         else if (j =? a)%nat then (b + 1)%nat
         else if (j <? b + 2)%nat then (j - 1)%nat else j) = i ∧
        (i < length l)%nat ∧
        (if (Z.of_nat a <=? Z.of_nat i) && (Z.of_nat i <=? Z.of_nat b)
         then Z.of_nat i + 1
         else if Z.of_nat i =? Z.of_nat b + 1 then Z.of_nat a else Z.of_nat i)
        = Z.of_nat j).
      { destruct (Nat.ltb_spec j a); [|destruct (Nat.eqb_spec j a);
          [|destruct (Nat.ltb_spec j (b + 2))]];
          (eexists; split; [reflexivity|]; split; [lia|]; cmp_cases). }
      destruct Hsrc as (i & -> & Hi & Hij).
      destruct (Hput i Hi) as (x & Hx & HF). rewrite Hx, <- HF. f_equal.
      rewrite Htgt by lia. rewrite Hij. by rewrite Nat2Z.id.
  - rewrite (lookup_ge_None_2 F) by lia. symmetry. apply lookup_ge_None_2.
    destruct up.
    + destruct Hbounds. by rewrite (Permutation_length (block_moved_up_perm l a b
                                      ltac:(done) ltac:(done))); lia.
    + rewrite (Permutation_length (block_moved_down_perm l a b ltac:(done))). lia.
Qed.

Lemma filter_all {A} (P : A → Prop) `{∀ x, Decision (P x)} (l : list A) :
  Forall P l → filter P l = l.
Proof. induction 1 as [|x l Hx _ IH]; [done|]. by rewrite filter_cons_True, IH. Qed.

Lemma filter_none {A} (P : A → Prop) `{∀ x, Decision (P x)} (l : list A) :
  Forall (λ x, ¬ P x) l → filter P l = [].
Proof. induction 1 as [|x l Hx _ IH]; [done|]. by rewrite filter_cons_False. Qed.

(** The rows [reorderSelected] selects after moving a block [a..b]. *)
Lemma reorder_selection_block (up : bool) (indices : list Z) (model : list Item)
    (a b : nat) :
  (∀ z, z ∈ indices ↔ Z.of_nat a ≤ z ≤ Z.of_nat b) →
  (a ≤ b)%nat → (b < length model)%nat →
  map (λ i, inputsModel_row model i + (if up then -1 else 1))
      (filter (λ i, includes indices (inputsModel_row model i) = true)
              (seqZ 0 (Z.of_nat (length model))))
  = seqZ (Z.of_nat a + (if up then -1 else 1)) (Z.of_nat b - Z.of_nat a + 1).
Proof.
  intros Hblock Hab Hb.
  assert (Hsel : ∀ i, 0 ≤ i < Z.of_nat (length model) →
            (includes indices (inputsModel_row model i) = true
             ↔ Z.of_nat a ≤ i ≤ Z.of_nat b)).
  { intros i Hi. rewrite inputsModel_row_in_range by lia.
    by rewrite includes_spec, Hblock. }
  assert (Hsplit : seqZ 0 (Z.of_nat (length model))
            = seqZ 0 (Z.of_nat a)
              ++ seqZ (Z.of_nat a) (Z.of_nat b - Z.of_nat a + 1)
              ++ seqZ (Z.of_nat b + 1) (Z.of_nat (length model) - Z.of_nat b - 1)).
  { replace (Z.of_nat b + 1)
      with (Z.of_nat a + (Z.of_nat b - Z.of_nat a + 1)) at 1 by lia.
    rewrite <- seqZ_app by lia.
    replace (Z.of_nat a) with (0 + Z.of_nat a) at 2 by lia.
    rewrite <- seqZ_app by lia. f_equal. lia. }
  rewrite Hsplit, !filter_app.
  rewrite (filter_none _ (seqZ 0 (Z.of_nat a))); cycle 1.
  { apply Forall_forall. intros i Hi%elem_of_seqZ. rewrite Hsel; lia. }
  rewrite (filter_all _ (seqZ (Z.of_nat a) _)); cycle 1.
  { apply Forall_forall. intros i Hi%elem_of_seqZ. rewrite Hsel; lia. }
  rewrite (filter_none _ (seqZ (Z.of_nat b + 1) _)); cycle 1.
  { apply Forall_forall. intros i Hi%elem_of_seqZ. rewrite Hsel; lia. }
  rewrite app_nil_l, app_nil_r.
  rewrite (Z.add_comm (Z.of_nat a)), <- (fmap_add_seqZ (if up then -1 else 1)).
  change (map ?f ?l) with (f <$> l).
  apply list_fmap_ext. intros k i Hi.
  apply list_elem_of_lookup_2, elem_of_seqZ in Hi.
  rewrite inputsModel_row_in_range by lia. lia.
Qed.

(** X19: [reorderSelected], for a view node that exists with the inputs list
    showing its inputs, and a selection that is the block of rows [a..b]
    with room to move (a row before it when moving up, a row after it when
    moving down): when the host allows the proposal, the block moves by one
    place and the row it passes goes to its other side; no input is lost or
    repeated, the other nodes keep theirs, and the rows handed to
    [selectInputsRange] are the block's new rows. *)
Theorem reorderSelected_moves_block `{HostPolicy} (up : bool) (indices : list Z)
    (vnode : string) (r : NodeRec) (a b : nat) (w : World) :
  currentView w = Some vnode →
  nodes w !! vnode = Some r →
  map (λ it, itemNode (Some it)) (_inputsModel w) = ninputs r →
  "" ∉ ninputs r →
  NoDup indices →
  (∀ z, z ∈ indices ↔ Z.of_nat a ≤ z ≤ Z.of_nat b) →
  (a ≤ b)%nat →
  (if up then (0 < a)%nat ∧ (b < length (ninputs r))%nat
   else (b + 1 < length (ninputs r))%nat) →
  testNodeInputs_policy (nodes w) vnode
    (if up then block_moved_up (ninputs r) a b
     else block_moved_down (ninputs r) a b) = Ok None →
  (reorderSelected up indices w).1
  = Ok (Some (seqZ (Z.of_nat a + (if up then -1 else 1))
                   (Z.of_nat b - Z.of_nat a + 1))) ∧
  inputs_of (reorderSelected up indices w).2 vnode
  = (if up then block_moved_up (ninputs r) a b
     else block_moved_down (ninputs r) a b) ∧
  (if up then block_moved_up (ninputs r) a b
   else block_moved_down (ninputs r) a b) ≡ₚ ninputs r ∧
  (∀ n, n ≠ vnode → nodes (reorderSelected up indices w).2 !! n = nodes w !! n).
Proof.
  intros Hview Hn Hsync Hne Hnd Hblock Hab Hbounds Hacc.
  set (moved := if up then block_moved_up (ninputs r) a b
                else block_moved_down (ninputs r) a b) in *.
  assert (Hlen : length (_inputsModel w) = length (ninputs r))
    by (by rewrite <- Hsync, length_map).
  assert (Hperm : moved ≡ₚ ninputs r).
  { subst moved. destruct up.
    - destruct Hbounds. by apply block_moved_up_perm.
    - by apply block_moved_down_perm. }
  assert (Hb : (b < length (_inputsModel w))%nat).
  { rewrite Hlen. destruct up; [by destruct Hbounds|lia]. }
  pose proof (reorder_array_block up indices (_inputsModel w) (ninputs r) a b
                Hsync Hnd Hblock Hab Hbounds) as Harr.
  fold moved in Harr. rewrite reorder_fold in Harr. cbn [fst] in Harr.
  destruct (block_min_max indices (Z.of_nat a) (Z.of_nat b) Hblock ltac:(lia))
    as (Hnil & Hmin & Hmax).
  assert (Hedge : (up && (rows_min indices =? 0))
                  || (negb up && (rows_max indices =? Z.of_nat (length (ninputs r)) - 1))
                  = false).
  { rewrite Hmin, Hmax. destruct up; simpl.
    - destruct Hbounds. rewrite orb_false_r. apply Z.eqb_neq. lia.
    - apply Z.eqb_neq. lia. }
  assert (Hrun : reorderSelected up indices w
            = (Ok (Some (seqZ (Z.of_nat a + (if up then -1 else 1))
                              (Z.of_nat b - Z.of_nat a + 1))),
               after_commit vnode r moved w)).
  { unfold reorderSelected. rewrite bool_decide_false by done. mbinds.
    unfold viewNode. mstep_refl. rewrite Hview.
    unfold nodeInputs_opt. mstep (nodeInputs_Some vnode w r Hn).
    rewrite Hedge. mstep_refl.
    rewrite reorder_fold, Harr, app_nil_l.
    rewrite (reorder_selection_block up indices (_inputsModel w) a b Hblock Hab Hb).
    mstep_refl. rewrite Hview.
    rewrite filter_all; cycle 1.
    { apply Forall_forall. intros x Hx ->. apply Hne. by rewrite <- Hperm. }
    pose proof (setInputs_cases vnode moved w) as Hc.
    rewrite Hacc, Hn in Hc.
    unfold try_except, setInputs_opt. by rewrite (bind_run _ _ _ _ _ Hc). }
  rewrite Hrun. cbn [fst snd]. split; [done|].
  split; [by rewrite inputs_of_after_commit, decide_True|].
  split; [done|].
  intros n Hn'. unfold after_commit. simpl. by rewrite lookup_insert_ne.
Qed.

Lemma reorderSelected_moves_block_witness :
  (@reorderSelected acceptAll true [1; 2] fiveWorld).1 = Ok (Some [0; 1]) ∧
  inputs_of (@reorderSelected acceptAll true [1; 2] fiveWorld).2 "V"
  = ["b"; "c"; "a"; "d"; "e"] ∧
  (@reorderSelected acceptAll false [1; 2] fiveWorld).1 = Ok (Some [2; 3]) ∧
  inputs_of (@reorderSelected acceptAll false [1; 2] fiveWorld).2 "V"
  = ["a"; "d"; "b"; "c"; "e"].
Proof.
  assert (Hne : "" ∉ fiveInputs).
  { unfold fiveInputs. rewrite !not_elem_of_cons. repeat split; try done.
    apply not_elem_of_nil. }
  assert (Hnd : NoDup [1; 2]).
  { apply NoDup_cons. split; [|apply NoDup_singleton].
    rewrite list_elem_of_singleton. lia. }
  assert (Hblock : ∀ z, z ∈ [1; 2] ↔ Z.of_nat 1 ≤ z ≤ Z.of_nat 2).
  { intros z. rewrite !elem_of_cons, elem_of_nil. lia. }
  destruct (@reorderSelected_moves_block acceptAll true [1; 2] "V"
              (mkNode "RVSequenceGroup" fiveInputs) 1 2 fiveWorld)
    as (Hr & Hin & _); [done|done|done|done|done|done|lia|simpl; lia|done|].
  destruct (@reorderSelected_moves_block acceptAll false [1; 2] "V"
              (mkNode "RVSequenceGroup" fiveInputs) 1 2 fiveWorld)
    as (Hr' & Hin' & _); [done|done|done|done|done|done|lia|simpl; lia|done|].
  exact (conj Hr (conj Hin (conj Hr' Hin'))).
Defined.

(** A selection with a gap is another matter: rows 1 and 3 moved up leave
    three of the five inputs. *)
Example reorderSelected_gap_drops_inputs :
  inputs_of (@reorderSelected acceptAll true [1; 3] fiveWorld).2 "V"
  = ["b"; "d"; "e"].
Proof. by vm_compute. Qed.

Lemma nodeInputs_opt_run (w : World) :
  nodeInputs_opt (currentView w) w = (Ok (viewInputs w), w).
Proof.
  unfold nodeInputs_opt, viewInputs, inputs_of.
  destruct (currentView w) as [v|]; [|done].
  unfold nodeInputs, try_except. munfold.
  destruct (nodes w !! v) as [r|] eqn:Hv.
  - by rewrite (nodeConnections_Some _ _ _ Hv).
  - by rewrite (nodeConnections_None _ _ Hv).
Qed.

(** X20: [reorderSelected] at the edge of the list.  When the selected rows
    are rows of the view node's inputs and the first row is among them,
    moving up proposes nothing, selects nothing and leaves the session as it
    is; so does moving down when the last row is among them. *)
Theorem reorderSelected_stops_at_the_edge `{HostPolicy} (up : bool)
    (indices : list Z) (w : World) :
  (∀ z, z ∈ indices → 0 ≤ z ≤ Z.of_nat (length (viewInputs w)) - 1) →
  (if up then 0 else Z.of_nat (length (viewInputs w)) - 1) ∈ indices →
  reorderSelected up indices w = (Ok None, w).
Proof.
  intros Hrows Hedge. unfold reorderSelected.
  destruct indices as [|x rest] eqn:Hi; [by apply elem_of_nil in Hedge|].
  rewrite bool_decide_false by done. rewrite <- Hi in *. mbinds.
  unfold viewNode. mstep_refl. mstep (nodeInputs_opt_run w).
  assert (Hc : (up && (rows_min indices =? 0))
               || (negb up && (rows_max indices =? Z.of_nat (length (viewInputs w)) - 1))
               = true).
  { rewrite Hi. unfold rows_min, rows_max.
    destruct (foldl_min_spec rest x) as [Hmin Hle].
    destruct (foldl_max_spec rest x) as [Hmax Hge].
    rewrite <- Hi in *. destruct up; simpl.
    - rewrite orb_false_r. apply Z.eqb_eq.
      specialize (Hle 0 Hedge). specialize (Hrows _ Hmin). lia.
    - apply Z.eqb_eq. specialize (Hge _ Hedge). specialize (Hrows _ Hmax). lia. }
  by rewrite Hc.
Qed.

Lemma reorderSelected_stops_at_the_edge_witness :
  @reorderSelected acceptAll true [0; 1] fiveWorld = (Ok None, fiveWorld) ∧
  @reorderSelected acceptAll false [3; 4] fiveWorld = (Ok None, fiveWorld).
Proof.
  split.
  - apply (@reorderSelected_stops_at_the_edge acceptAll true [0; 1] fiveWorld).
    + intros z. rewrite !elem_of_cons, elem_of_nil.
      change (Z.of_nat (length (viewInputs fiveWorld)) - 1) with 4. lia.
    + by left.
  - apply (@reorderSelected_stops_at_the_edge acceptAll false [3; 4] fiveWorld).
    + intros z. rewrite !elem_of_cons, elem_of_nil.
      change (Z.of_nat (length (viewInputs fiveWorld)) - 1) with 4. lia.
    + right. by left.
Defined.

(** ** Naming a node after its type and its inputs *)

Lemma uiName_run (n : string) (w : World) :
  is_Some (nodes w !! n) → uiName n w = (Ok (shownName w n), w).
Proof. intros [r Hr]. unfold uiName. munfold. by rewrite Hr. Qed.

Lemma uiName_missing (n : string) (w : World) :
  nodes w !! n = None → uiName n w = (Raise, w).
Proof. intros Hr. unfold uiName. munfold. by rewrite Hr. Qed.

Lemma string_app_assoc (a b c : string) : (a +:+ b) +:+ c = a +:+ (b +:+ c).
Proof.
  induction a as [|x a IH]; [done|].
  change (String x ((a +:+ b) +:+ c) = String x (a +:+ (b +:+ c))). by f_equal.
Qed.

(** X21: [renameByType(node, inputs)] for a node that exists (and, with one
    or two inputs, inputs that exist): it returns normally, asks the host
    once to rename [node], and the node's display name becomes
    [Empty <base>] with no inputs, [<base> of <x>] with one,
    [<base> of <x> and <y>] with two (display names of the inputs, no
    comma), and [<base> of <n> views] with three or more; nothing else
    changes. *)
Theorem renameByType_names (node : string) (inputs : list string) (r : NodeRec)
    (w : World) :
  nodes w !! node = Some r →
  ((length inputs < 3)%nat → Forall (λ x, is_Some (nodes w !! x)) inputs) →
  renameByType node inputs w
  = (Ok tt,
     set_uiNames (<[node := nameByType w (ntype r) inputs]>)
       (log_call (CSetUIName node (nameByType w (ntype r) inputs)) w)).
Proof.
  intros Hn Hin.
  assert (Hset : ∀ name, setUIName node name w
            = (Ok tt, set_uiNames (<[node := name]>) (log_call (CSetUIName node name) w))).
  { intros name. unfold setUIName. munfold. simpl. by rewrite Hn. }
  unfold renameByType. mbinds. mstep (nodeType_Some node w r Hn).
  destruct inputs as [|x [|y [|z rest]]].
  - simpl. mstep_refl. apply Hset.
  - apply Forall_cons in Hin as [Hx _]; [|simpl; lia].
    cbn [length Nat.eqb Nat.ltb Nat.leb renameByType_loop Nat.sub andb]. mbinds.
    unfold bind. rewrite (uiName_run x w Hx). unfold ret. unfold nameByType.
    rewrite !string_app_assoc. apply Hset.
  - apply Forall_cons in Hin as [Hx Hin]; [|simpl; lia].
    apply Forall_cons in Hin as [Hy _].
    cbn [length Nat.eqb Nat.ltb Nat.leb renameByType_loop Nat.sub andb]. mbinds.
    unfold bind. rewrite (uiName_run x w Hx), (uiName_run y w Hy).
    unfold ret. unfold nameByType.
    rewrite !string_app_assoc. apply Hset.
  - cbn [length Nat.eqb Nat.ltb Nat.leb]. mstep_refl. apply Hset.
Qed.

Lemma renameByType_names_witness :
  uiNames (renameByType "V" ["a"; "b"] fiveWorld).2 !! "V"
  = Some "SequenceGroup of a and b".
Proof.
  rewrite (renameByType_names "V" ["a"; "b"] (mkNode "RVSequenceGroup" fiveInputs)
             fiveWorld).
  - done.
  - done.
  - intros _. repeat (apply Forall_cons; split; [by eexists|]). apply Forall_nil_2.
Defined.

Lemma substring_all (s : string) : String.substring 0 (String.length s) s = s.
Proof. induction s as [|c s IH]; [done|]. simpl. by rewrite IH. Qed.

Lemma string_length_app (a b : string) :
  String.length (a +:+ b) = (String.length a + String.length b)%nat.
Proof.
  induction a as [|x a IH]; [done|].
  change (S (String.length (a +:+ b)) = S (String.length a + String.length b)).
  by rewrite IH.
Qed.

Lemma str_from_RV (s : string) : str_from 2 ("RV" +:+ s) = s.
Proof.
  unfold str_from.
  change (String.substring 0 (String.length s - 0) s = s).
  rewrite Nat.sub_0_r. apply substring_all.
Qed.

(** X22: the base name [renameByType] takes from a node type.  The leading
    [RV] goes; the trailing [Group] goes only when nothing else is left:
    the type [RV<p>Group] with a non-empty [<p>] gives [<p>Group], with the
    suffix still on it. *)
Theorem typeBasename_keeps_Group_suffix (p : string) :
  p ≠ "" →
  typeBasename ("RV" +:+ p +:+ "Group") = p +:+ "Group" ∧
  typeBasename ("RV" +:+ "Group") = "".
Proof.
  intros Hp. split; [|done].
  unfold typeBasename.
  assert (HRV : re_match_RV ("RV" +:+ p +:+ "Group") = true)
    by (by destruct p).
  rewrite HRV, str_from_RV.
  assert (HG : re_match_Group_end (p +:+ "Group") = false).
  { unfold re_match_Group_end. apply bool_decide_eq_false. intros [Heq|Heq].
    - apply (f_equal String.length) in Heq. rewrite string_length_app in Heq.
      simpl in Heq. destruct p; [done|]. simpl in Heq. lia.
    - pose proof (f_equal String.length Heq) as Hlen.
      rewrite string_length_app in Hlen. simpl in Hlen.
      destruct p as [|c [|c' p]]; [done| |simpl in Hlen; lia].
      by injection Heq. }
  by rewrite HG.
Qed.

Lemma typeBasename_keeps_Group_suffix_witness :
  typeBasename "RVFolderGroup" = "FolderGroup".
Proof.
  destruct (typeBasename_keeps_Group_suffix "Folder") as [H _]; [done|].
  exact H.
Defined.

Lemma renameByType_loop_missing (n : nat) (inputs : list string) (w : World) :
  ∀ i name,
    Exists (λ x, nodes w !! x = None) inputs →
    renameByType_loop n i inputs name w = (Raise, w).
Proof.
  induction inputs as [|x rest IH]; intros i name Hex.
  { by apply Exists_nil in Hex. }
  cbn [renameByType_loop]. mbinds. unfold bind.
  destruct (nodes w !! x) as [rx|] eqn:Hx.
  - rewrite (uiName_run x w) by (by eexists).
    apply IH. apply Exists_cons in Hex as [Hex|Hex]; [congruence|done].
  - by rewrite (uiName_missing x w Hx).
Qed.

(** X23: [renameByType] has no handler of its own.  For a node that does
    not exist, or with one or two inputs one of which does not exist, it
    raises, and it does so before the host is asked to rename anything: the
    session is as it was. *)
Theorem renameByType_raises_before_renaming (node : string) (inputs : list string)
    (w : World) :
  nodes w !! node = None ∨
  ((0 < length inputs < 3)%nat ∧ Exists (λ x, nodes w !! x = None) inputs) →
  renameByType node inputs w = (Raise, w).
Proof.
  intros Hcase. unfold renameByType. mbinds.
  destruct (nodes w !! node) as [r|] eqn:Hn.
  - destruct Hcase as [?|[Hlen Hex]]; [done|].
    mstep (nodeType_Some node w r Hn).
    destruct (Nat.eqb_spec (length inputs) 0) as [?|_]; [lia|].
    destruct (Nat.ltb_spec (length inputs) 3) as [_|?]; [|lia].
    unfold bind. by rewrite (renameByType_loop_missing _ inputs w 0%nat _ Hex).
  - unfold bind, nodeType. munfold. by rewrite Hn.
Qed.

Lemma renameByType_raises_before_renaming_witness :
  renameByType "V" ["a"; "zz"] fiveWorld = (Raise, fiveWorld).
Proof.
  apply renameByType_raises_before_renaming. right. split; [simpl; lia|].
  apply Exists_cons. right. apply Exists_cons. by left.
Defined.

(** ** A new folder *)

Lemma newNode_run (t hint : string) (w : World) :
  newNode t hint w
  = (Ok (fresh_string hint (nodes w)),
     set_nodes (<[fresh_string hint (nodes w) := mkNode t []]>) w).
Proof. done. Qed.

Lemma newFolderName_fresh (w : World) : nodes w !! newFolderName w = None.
Proof. apply fresh_string_fresh. Qed.

Lemma deleteNode_run (n : string) (r : NodeRec) (w : World) :
  nodes w !! n = Some r →
  deleteNode n w
  = (Ok tt,
     set_nodes (λ g, (λ r, mkNode (ntype r) (filter (λ x, x ≠ n) (ninputs r)))
                     <$> delete n g)
       (log_call (CDeleteNode n) w)).
Proof. intros Hn. unfold deleteNode. munfold. simpl. by rewrite Hn. Qed.

(** Deleting a node no input list names undoes its creation. *)
Lemma delete_new_node (g : gmap string NodeRec) (f : string) (r0 : NodeRec) :
  g !! f = None →
  (∀ n r, g !! n = Some r → f ∉ ninputs r) →
  (λ r, mkNode (ntype r) (filter (λ x, x ≠ f) (ninputs r)))
    <$> delete f (<[f := r0]> g) = g.
Proof.
  intros Hf Hno. rewrite delete_insert_eq, delete_id by done.
  apply map_eq. intros n. rewrite lookup_fmap.
  destruct (g !! n) as [r|] eqn:Hn; [|done]. simpl. f_equal.
  rewrite filter_all.
  - by destruct r.
  - apply Forall_forall. intros x Hx ->. by apply (Hno n r).
Qed.

(** X24: [newFolderSlot(2)] and [newFolderSlot(3)] when the host does not
    allow the selected nodes as the new folder's inputs (it has an
    objection, or the test raises): the folder is deleted again.  In a graph
    whose inputs are all nodes the graph is then what it was, and so are the
    properties, the display names, the view node and the two flags. *)
Theorem newFolderSlot_rejected_leaves_no_folder `{HostPolicy} (which : Z)
    (paths : list (list string)) (w : World) :
  which ≠ 1 →
  omap head paths ≠ [] →
  inputs_closed w →
  testNodeInputs_policy
    (<[newFolderName w := mkNode "RVFolderGroup" []]> (nodes w))
    (newFolderName w) (omap head paths) ≠ Ok None →
  (newFolderSlot which paths w).1 = Ok tt ∧
  nodes (newFolderSlot which paths w).2 = nodes w ∧
  props (newFolderSlot which paths w).2 = props w ∧
  outline (newFolderSlot which paths w).2 = outline w.
Proof.
  intros Hwhich Hsel Hclosed Hrej.
  set (f := newFolderName w) in *.
  set (w1 := set_nodes (<[f := mkNode "RVFolderGroup" []]>) w).
  assert (Hf : nodes w !! f = None) by apply newFolderName_fresh.
  assert (Hback : (λ r, mkNode (ntype r) (filter (λ x, x ≠ f) (ninputs r)))
                    <$> delete f (<[f := mkNode "RVFolderGroup" []]> (nodes w))
                  = nodes w).
  { apply delete_new_node; [done|]. intros n r Hn Hin.
    pose proof (Hclosed n r Hn) as Hall. rewrite Forall_forall in Hall.
    destruct (Hall f Hin) as [? Hsome]. congruence. }
  assert (Hrun : ∃ w2, setInputs f (omap head paths) w1 = (Ok false, w2) ∧
                       nodes w2 = nodes w1 ∧ props w2 = props w ∧
                       uiNames w2 = uiNames w ∧ currentView w2 = currentView w ∧
                       flags w2 = flags w).
  { pose proof (setInputs_cases f (omap head paths) w1) as Hc.
    change (nodes w1) with (<[f := mkNode "RVFolderGroup" []]> (nodes w)) in Hc.
    destruct (testNodeInputs_policy _ f (omap head paths)) as [[msg|]|]; [|done|];
      eexists; (split; [exact Hc|]); by destruct w. }
  destruct Hrun as (w2 & Hset & Hn2 & Hp2 & Hu2 & Hv2 & Hfl2).
  assert (Hfinal : newFolderSlot which paths w
            = (Ok tt,
               set_nodes (λ g, (λ r, mkNode (ntype r) (filter (λ x, x ≠ f) (ninputs r)))
                               <$> delete f g)
                 (log_call (CDeleteNode f) w2))).
  { unfold newFolderSlot. mbinds. mstep (newNode_run "RVFolderGroup" "Folder" w).
    fold f. fold w1.
    destruct paths as [|first rest]; [done|].
    assert (Hc : negb (which =? 1) && negb (bool_decide (omap head (first :: rest) = []))
                 = true).
    { apply andb_true_iff. split; apply negb_true_iff.
      - by apply Z.eqb_neq.
      - by apply bool_decide_eq_false. }
    rewrite Hc. mstep Hset.
    apply (deleteNode_run f (mkNode "RVFolderGroup" [])).
    rewrite Hn2. apply lookup_insert_eq. }
  rewrite Hfinal. cbn [fst snd]. split; [done|].
  assert (Hnodes : nodes (set_nodes
             (λ g, (λ r, mkNode (ntype r) (filter (λ x, x ≠ f) (ninputs r)))
                   <$> delete f g) (log_call (CDeleteNode f) w2)) = nodes w).
  { transitivity ((λ r, mkNode (ntype r) (filter (λ x, x ≠ f) (ninputs r)))
                    <$> delete f (nodes w2)); [by destruct w2|].
    by rewrite Hn2. }
  split; [done|]. split; [by destruct w2|].
  unfold outline. rewrite Hnodes. unfold flags in *.
  destruct w2; simpl in *. by simplify_eq.
Qed.

Lemma fiveWorld_closed : inputs_closed fiveWorld.
Proof.
  change (map_Forall (λ _ r, Forall (λ x, is_Some (nodes fiveWorld !! x)) (ninputs r))
            (nodes fiveWorld)).
  by apply (bool_decide_unpack _).
Qed.

Lemma newFolderSlot_rejected_leaves_no_folder_witness :
  (@newFolderSlot nodesOnly 3 [["ghost"]] fiveWorld).1 = Ok tt ∧
  nodes (@newFolderSlot nodesOnly 3 [["ghost"]] fiveWorld).2 = nodes fiveWorld.
Proof.
  destruct (@newFolderSlot_rejected_leaves_no_folder nodesOnly 3 [["ghost"]]
              fiveWorld) as (Hr & Hn & _).
  - done.
  - done.
  - apply fiveWorld_closed.
  - by vm_compute.
  - by split.
Defined.

Lemma renameByType_empty (node : string) (r : NodeRec) (w : World) :
  nodes w !! node = Some r →
  renameByType node [] w
  = (Ok tt,
     set_uiNames (<[node := "Empty " +:+ typeBasename (ntype r)]>)
       (log_call (CSetUIName node ("Empty " +:+ typeBasename (ntype r))) w)).
Proof.
  intros Hn. unfold renameByType. mbinds. mstep (nodeType_Some node w r Hn).
  simpl. mstep_refl. unfold setUIName. munfold. simpl. by rewrite Hn.
Qed.

Lemma setInputs_outline `{HostPolicy} (n : string) (l : list string) (w : World) :
  outline (setInputs n l w).2 = outline w.
Proof.
  pose proof (setInputs_cases n l w) as Hc.
  destruct (testNodeInputs_policy _ _ _) as [[msg|]|];
    [|destruct (nodes w !! n) as [r|] eqn:Hn|]; rewrite Hc; cbn [snd];
    try (by destruct w).
  unfold outline, after_commit, flags. destruct w; simpl in *.
  rewrite fmap_insert. rewrite insert_id; [done|].
  by rewrite lookup_fmap, Hn.
Qed.

Lemma addInput_outline `{HostPolicy} (n x : string) (w : World) :
  outline (addInput n x w).2 = outline w.
Proof.
  destruct (nodes w !! n) as [r|] eqn:Hn.
  - rewrite (addInput_Some n x w r Hn). apply setInputs_outline.
  - by rewrite (addInput_None n x w Hn).
Qed.

Lemma setSortKeyInParent_outline (n p : string) (k : Z) (w : World) :
  outline (setSortKeyInParent n p k w).2 = outline w.
Proof.
  destruct (setSortKeyInParent_frame n p k w) as [_ Hfr].
  rewrite <- Hfr at 2. by destruct (setSortKeyInParent n p k w).2.
Qed.

Lemma sortKeyInParent_returns (n p : string) (w : World) :
  ∃ k, sortKeyInParent n p w = (Ok k, w).
Proof.
  rewrite sortKeyInParent_run.
  assert (Hk : ∃ k, (sortKeyInParent n p w).1 = Ok k).
  { unfold sortKeyInParent, propertyExists, getStringProperty, getIntProperty.
    munfold. mcase; by eexists. }
  destruct Hk as [k ->]. by exists k.
Qed.

Lemma newFolder_place_run `{HostPolicy} (first : list string) (f : string)
    (w : World) :
  ∃ w', newFolder_place first f w = (Ok tt, w') ∧ outline w' = outline w.
Proof.
  unfold newFolder_place.
  destruct first as [|x [|p tl]]; [by eexists|by eexists|].
  mbinds. mstep (nodeExists_run p w).
  destruct (bool_decide (is_Some (nodes w !! p))); [|by eexists].
  destruct (addInput_returns p f w) as [b Hb].
  destruct (addInput p f w) as [ra wa] eqn:Ha. simpl in Hb. subst ra.
  mstep Ha.
  destruct (sortKeyInParent_returns x p wa) as [k Hk]. mstep Hk.
  exists (setSortKeyInParent f p k wa).2. split.
  - pose proof (setSortKeyInParent_returns f p k wa) as Hr.
    by destruct (setSortKeyInParent f p k wa) as [[[]|] ?].
  - rewrite setSortKeyInParent_outline.
    pose proof (addInput_outline p f w) as Ho. by rewrite Ha in Ho.
Qed.

Lemma newFolder_finish_empty (paths : list (list string)) (f : string)
    (sel : list string) (w : World) :
  (ntype <$> nodes w) !! f = Some "RVFolderGroup" →
  (newFolder_finish 1 paths f sel w).1 = Ok tt ∧
  outline (newFolder_finish 1 paths f sel w).2
  = (ntype <$> nodes w, <[f := "Empty FolderGroup"]> (uiNames w),
     if bool_decide (paths = []) then currentView w else Some f,
     (false, _inputOrderLock w)) ∧
  nodes (newFolder_finish 1 paths f sel w).2 = nodes w ∧
  props (newFolder_finish 1 paths f sel w).2 = props w.
Proof.
  intros Hf. rewrite lookup_fmap in Hf.
  destruct (nodes w !! f) as [r|] eqn:Hn; [|done]. simpl in Hf.
  assert (Hname : "Empty " +:+ typeBasename (ntype r) = "Empty FolderGroup")
    by (injection Hf as ->; reflexivity).
  unfold newFolder_finish. mbinds. mstep_refl.
  change (if 1 =? 1 then [] else sel) with (@nil string).
  rewrite (bind_run _ _ _ _ _
             (renameByType_empty f r (set_disableUpdates true w) Hn)).
  mred. mstep_refl. rewrite Hname.
  destruct (bool_decide (paths = [])).
  - by destruct w.
  - unfold setViewNode. munfold. simpl. rewrite Hn. by destruct w.
Qed.

Lemma outline_eq (w : World) a b c d :
  outline w = (a, b, c, d) ↔
  ntype <$> nodes w = a ∧ uiNames w = b ∧ currentView w = c ∧ flags w = d.
Proof.
  unfold outline. split.
  - intros Heq. by simplify_eq.
  - by intros (-> & -> & -> & ->).
Qed.

(** X25: [newFolderSlot(1)], the empty folder, whatever is selected and
    whatever the host thinks of proposals: it returns normally; the graph
    gains one node, an [RVFolderGroup] under the name the host picked, and
    no other node disappears or changes type; the folder is displayed as
    [Empty FolderGroup] and no other display name changes; updates are
    enabled again at the end and the input-order lock is as it was; the
    folder becomes the view node exactly when something was selected. *)
Theorem newFolderSlot_empty_folder `{HostPolicy} (paths : list (list string))
    (w : World) :
  (newFolderSlot 1 paths w).1 = Ok tt ∧
  (∀ n, type_of (newFolderSlot 1 paths w).2 n
        = if decide (n = newFolderName w) then Some "RVFolderGroup"
          else type_of w n) ∧
  uiNames (newFolderSlot 1 paths w).2
  = <[newFolderName w := "Empty FolderGroup"]> (uiNames w) ∧
  currentView (newFolderSlot 1 paths w).2
  = (if bool_decide (paths = []) then currentView w else Some (newFolderName w)) ∧
  flags (newFolderSlot 1 paths w).2 = (false, _inputOrderLock w).
Proof.
  set (f := newFolderName w).
  set (w1 := set_nodes (<[f := mkNode "RVFolderGroup" []]>) w).
  assert (Ho1 : outline w1
            = (<[f := "RVFolderGroup"]> (ntype <$> nodes w), uiNames w,
               currentView w, flags w)).
  { unfold outline, w1. destruct w; simpl. by rewrite fmap_insert. }
  assert (Hgoal : ∃ w', newFolderSlot 1 paths w = (Ok tt, w') ∧
            outline w'
            = (<[f := "RVFolderGroup"]> (ntype <$> nodes w),
               <[f := "Empty FolderGroup"]> (uiNames w),
               (if bool_decide (paths = []) then currentView w else Some f),
               (false, _inputOrderLock w))).
  { unfold newFolderSlot. mbinds. mstep (newNode_run "RVFolderGroup" "Folder" w).
    change (fresh_string "Folder" (nodes w)) with f. fold w1.
    destruct paths as [|first rest].
    - apply outline_eq in Ho1 as (Ht1 & Hu1 & Hv1 & Hfl1).
      destruct (newFolder_finish_empty [] f (omap head []) w1) as (Hr & Ho & _).
      { rewrite Ht1. apply lookup_insert_eq. }
      exists (newFolder_finish 1 [] f (omap head []) w1).2. split.
      + by destruct (newFolder_finish 1 [] f (omap head []) w1) as [[[]|] ?].
      + rewrite Ho, Ht1, Hu1, Hv1. done.
    - change (negb (1 =? 1)) with false. cbn [andb]. mstep_refl. mstep_refl.
      change (1 =? 2) with false. mstep_refl.
      destruct (newFolder_place_run first f (set_disableUpdates true w1))
        as (w3 & Hplace & Ho3).
      mstep Hplace. mstep_refl.
      set (w4 := set_disableUpdates false w3).
      assert (Ho4 : outline w4
                = (<[f := "RVFolderGroup"]> (ntype <$> nodes w), uiNames w,
                   currentView w, (false, _inputOrderLock w))).
      { assert (Ho2 : outline (set_disableUpdates true w1)
                  = (<[f := "RVFolderGroup"]> (ntype <$> nodes w), uiNames w,
                     currentView w, (true, _inputOrderLock w))).
        { apply outline_eq in Ho1 as (Ht1 & Hu1 & Hv1 & Hfl1).
          apply outline_eq. by rewrite <- Ht1, <- Hu1, <- Hv1. }
        rewrite Ho2 in Ho3. apply outline_eq in Ho3 as (Ht3 & Hu3 & Hv3 & Hfl3).
        apply outline_eq. unfold w4. rewrite <- Ht3, <- Hu3, <- Hv3.
        unfold flags in *. destruct w3; simpl in *. by simplify_eq. }
      apply outline_eq in Ho4 as (Ht4 & Hu4 & Hv4 & Hfl4).
      destruct (newFolder_finish_empty (first :: rest) f
                  (omap head (first :: rest)) w4) as (Hr & Ho & _).
      { rewrite Ht4. apply lookup_insert_eq. }
      exists (newFolder_finish 1 (first :: rest) f (omap head (first :: rest)) w4).2.
      split.
      + by destruct (newFolder_finish 1 (first :: rest) f _ w4) as [[[]|] ?].
      + rewrite Ho, Ht4, Hu4. rewrite bool_decide_false by done.
        unfold flags in Hfl4. injection Hfl4 as Hlk. by rewrite <- Hlk. }
  destruct Hgoal as (w' & Hrun & Ho). rewrite Hrun. cbn [fst snd].
  apply outline_eq in Ho as (Ht & Hu & Hv & Hfl).
  split; [done|]. split.
  { intros n. unfold type_of. rewrite <- lookup_fmap, Ht.
    destruct (decide (n = f)) as [->|Hne].
    - apply lookup_insert_eq.
    - rewrite lookup_insert_ne by done. by rewrite lookup_fmap. }
  done.
Qed.

(** X26: where the empty folder goes.  When the first selected path has a
    parent that exists and the host allows the folder as one more input of
    that parent, [newFolderSlot(1)] appends the folder to the parent's
    inputs and gives it, under that parent, the sort key of the first
    selected node; the folder itself has no inputs. *)
Theorem newFolderSlot_takes_the_place_of_first `{HostPolicy} (x p : string)
    (tl : list string) (rest : list (list string)) (rp : NodeRec) (w : World) :
  nodes w !! p = Some rp →
  sortProps_well_typed w (newFolderName w) →
  testNodeInputs_policy
    (<[newFolderName w := mkNode "RVFolderGroup" []]> (nodes w))
    p (ninputs rp ++ [newFolderName w]) = Ok None →
  inputs_of (newFolderSlot 1 ((x :: p :: tl) :: rest) w).2 p
  = ninputs rp ++ [newFolderName w] ∧
  (sortKeyInParent (newFolderName w) p
     (newFolderSlot 1 ((x :: p :: tl) :: rest) w).2).1
  = (sortKeyInParent x p w).1 ∧
  inputs_of (newFolderSlot 1 ((x :: p :: tl) :: rest) w).2 (newFolderName w) = [].
Proof.
  intros Hp Hwt Hacc.
  set (f := newFolderName w) in *.
  set (paths := (x :: p :: tl) :: rest).
  assert (Hf : nodes w !! f = None) by apply newFolderName_fresh.
  assert (Hpf : p ≠ f) by (intros ->; congruence).
  set (w2 := set_disableUpdates true
               (set_nodes (<[f := mkNode "RVFolderGroup" []]>) w)).
  assert (Hp2 : nodes w2 !! p = Some rp).
  { unfold w2. destruct w; simpl in *. by rewrite lookup_insert_ne. }
  set (wa := after_commit p rp (ninputs rp ++ [f]) w2).
  assert (Hadd : addInput p f w2 = (Ok true, wa)).
  { rewrite (addInput_Some p f w2 rp Hp2).
    pose proof (setInputs_cases p (ninputs rp ++ [f]) w2) as Hc.
    change (testNodeInputs_policy (nodes w2) p (ninputs rp ++ [f]))
      with (testNodeInputs_policy (<[f := mkNode "RVFolderGroup" []]> (nodes w))
              p (ninputs rp ++ [f])) in Hc.
    rewrite Hacc, Hp2 in Hc. exact Hc. }
  assert (Hpa : props wa = props w) by (by destruct w).
  destruct (sortKeyInParent_returns x p wa) as [k Hk].
  assert (Hkw : (sortKeyInParent x p w).1 = Ok k).
  { rewrite (sortKeyInParent_ext x p wa w) by (by rewrite Hpa).
    by rewrite Hk. }
  set (ws := (setSortKeyInParent f p k wa).2).
  assert (Hset : setSortKeyInParent f p k wa = (Ok tt, ws)).
  { pose proof (setSortKeyInParent_returns f p k wa) as Hr. unfold ws.
    by destruct (setSortKeyInParent f p k wa) as [[[]|] ?]. }
  assert (Hns : nodes ws = nodes wa).
  { destruct (setSortKeyInParent_frame f p k wa) as [_ Hfr].
    fold ws in Hfr.
    transitivity (nodes (set_props (λ _, props wa) ws)); [by destruct ws|].
    by rewrite Hfr. }
  assert (Hread : (sortKeyInParent f p ws).1 = Ok k).
  { apply (sortKey_round_trip_aux f p k wa).
    unfold sortProps_well_typed. rewrite Hpa. exact Hwt. }
  set (w4 := set_disableUpdates false ws).
  assert (Hrun : newFolderSlot 1 paths w
            = newFolder_finish 1 paths f (omap head paths) w4).
  { unfold newFolderSlot. mbinds. mstep (newNode_run "RVFolderGroup" "Folder" w).
    change (fresh_string "Folder" (nodes w)) with f. unfold paths at 1.
    change (negb (1 =? 1)) with false. cbn [andb]. mstep_refl. mstep_refl.
    change (1 =? 2) with false. mstep_refl.
    fold w2.
    assert (Hplace : newFolder_place (x :: p :: tl) f w2 = (Ok tt, ws)).
    { unfold newFolder_place. mbinds. mstep (nodeExists_run p w2).
      rewrite bool_decide_true by (by rewrite Hp2).
      mstep Hadd. mstep Hk. exact Hset. }
    mstep Hplace. by mstep_refl. }
  destruct (newFolder_finish_empty paths f (omap head paths) w4)
    as (_ & _ & Hnodes & Hprops).
  { rewrite lookup_fmap.
    assert (Hf4 : nodes w4 !! f = Some (mkNode "RVFolderGroup" [])).
    { change (nodes w4) with (nodes ws). rewrite Hns. unfold wa, after_commit.
      simpl. rewrite lookup_insert_ne by done. apply lookup_insert_eq. }
    by rewrite Hf4. }
  rewrite Hrun. unfold inputs_of. rewrite Hnodes.
  change (nodes w4) with (nodes ws). rewrite Hns.
  split; [|split].
  - unfold wa, after_commit. simpl. by rewrite lookup_insert_eq.
  - rewrite Hkw, <- Hread. apply sortKeyInParent_ext; by rewrite Hprops.
  - unfold wa, after_commit. simpl. rewrite lookup_insert_ne by done.
    by rewrite lookup_insert_eq.
Qed.

Lemma newFolderSlot_takes_the_place_of_first_witness :
  inputs_of (@newFolderSlot acceptAll 1 [["a"; "V"]] fiveWorld).2 "V"
  = ["a"; "b"; "c"; "d"; "e"; "Folder"] ∧
  (sortKeyInParent "Folder" "V"
     (@newFolderSlot acceptAll 1 [["a"; "V"]] fiveWorld).2).1
  = Ok undefinedKey.
Proof.
  destruct (@newFolderSlot_takes_the_place_of_first acceptAll "a" "V" [] []
              (mkNode "RVSequenceGroup" fiveInputs) fiveWorld)
    as (Hin & Hkey & _).
  - done.
  - by split.
  - done.
  - split; [exact Hin|exact Hkey].
Defined.

(** ** The transform manipulator: edit nodes, tags and the hit test *)

(** ** The manipulator's tags *)

Lemma setStringTagProperty_run (name value : string) (w : World) :
  setStringTagProperty name value w = (Ok tt, set_props (tag_write name value) w).
Proof.
  unfold setStringTagProperty, try_except, propertyExists, newProperty,
    setStringProperty, tag_write, when.
  munfold. simpl.
  destruct (props w !! name) as [[vs|ks]|] eqn:Hp; simpl; rewrite ?Hp; simpl;
    rewrite ?lookup_insert_eq; unfold set_props; simpl;
    rewrite ?Hp, ?insert_insert_eq; by destruct w.
Qed.

Lemma findEditingNodes_loop_run (setStates : bool) (ins : list string)
    (infos : list string) :
  ∀ (i : nat) (w : World),
    (i + length infos ≤ length ins)%nat →
    findEditingNodes_loop setStates ins (Z.of_nat i) infos w
    = (Ok tt,
       set_props (λ m, foldl (tag_step setStates) m infos)
         (set_editNodes
            (_editNodes w ++ zip_with mkEditNodePair infos (drop i ins)) w)).
Proof.
  induction infos as [|node rest IH]; intros i w Hlen.
  { simpl. rewrite app_nil_r. by destruct w. }
  simpl in Hlen.
  destruct (lookup_lt_is_Some_2 ins i ltac:(lia)) as [inp Hinp].
  cbn [findEditingNodes_loop]. mbinds.
  assert (Hget : lift_result (py_getitem ins (Z.of_nat i)) w = (Ok inp, w)).
  { unfold lift_result. by rewrite py_getitem_nat, Hinp. }
  mstep Hget. mstep_refl. mstep_refl.
  set (w1 := set_editNodes (_editNodes w ++ [mkEditNodePair node inp]) w).
  assert (He : (if setStates then ret false
                else propertyExists (node +:+ ".tag.tmanip")) w1
               = (Ok (if setStates then false
                      else bool_decide (is_Some (props w !! tmanip_name node))), w1)).
  { by destruct setStates. }
  mstep He.
  set (c := setStates || negb (if setStates then false
                               else bool_decide (is_Some (props w !! tmanip_name node)))).
  assert (Hc : c = setStates || negb (bool_decide (is_Some (props w !! tmanip_name node))))
    by (unfold c; by destruct setStates).
  assert (Hwhen : when c (bind (setStringTagProperty (node +:+ ".tag.tmanip") node)
                            (λ _, setStringTagProperty (node +:+ ".tag.tmanip_state") ""))
                    w1
                  = (Ok tt, set_props (λ m, tag_step setStates m node) w1)).
  { clearbody c. subst w1. destruct c; unfold when.
    - rewrite (bind_run _ _ _ _ _
                 (setStringTagProperty_run (node +:+ ".tag.tmanip") node _)).
      rewrite setStringTagProperty_run.
      destruct w; unfold set_props, set_editNodes, tag_step; simpl in *.
      by rewrite <- Hc.
    - destruct w; unfold set_props, set_editNodes, tag_step, ret; simpl in *.
      by rewrite <- Hc. }
  mstep Hwhen.
  replace (Z.of_nat i + 1) with (Z.of_nat (S i)) by lia.
  rewrite IH by lia. f_equal.
  rewrite (drop_S _ _ _ Hinp). destruct w; simpl. by rewrite <- app_assoc.
Qed.

Lemma tmanip_name_inj a b : tmanip_name a = tmanip_name b → a = b.
Proof. apply append_inj_r. Qed.

Lemma tmanip_state_name_inj a b : tmanip_state_name a = tmanip_state_name b → a = b.
Proof. apply append_inj_r. Qed.

Lemma tmanip_name_ne_state a b : tmanip_name a ≠ tmanip_state_name b.
Proof. apply append_last_differs; done. Qed.

Lemma tag_write_other (name value : string) (m : gmap string PropVal) (name' : string) :
  name' ≠ name → tag_write name value m !! name' = m !! name'.
Proof.
  intros Hne. unfold tag_write.
  destruct (m !! name) as [[?|?]|]; by rewrite ?lookup_insert_ne.
Qed.

Lemma tag_write_typed (name value : string) (m : gmap string PropVal) :
  (∀ v, m !! name = Some v → ∃ vs, v = PString vs) →
  tag_write name value m !! name = Some (PString [value]).
Proof.
  intros Hwt. unfold tag_write.
  destruct (m !! name) as [[?|?]|] eqn:Hm; rewrite ?lookup_insert_eq; try done.
  destruct (Hwt _ eq_refl) as [? ?]. done.
Qed.

(** [tag_write] keeps the kind of every property that holds strings. *)
Lemma tag_write_kind (name value : string) (m : gmap string PropVal) (name' : string) :
  (∀ v, m !! name' = Some v → ∃ vs, v = PString vs) →
  (∀ v, tag_write name value m !! name' = Some v → ∃ vs, v = PString vs).
Proof.
  intros Hwt v. destruct (decide (name' = name)) as [->|Hne].
  - rewrite (tag_write_typed _ _ _ Hwt). intros [= <-]. by eexists.
  - rewrite tag_write_other by done. apply Hwt.
Qed.

Lemma tag_step_other (s : bool) (m : gmap string PropVal) (node name : string) :
  name ≠ tmanip_name node → name ≠ tmanip_state_name node →
  tag_step s m node !! name = m !! name.
Proof.
  intros H1 H2. unfold tag_step. destruct (_ || _); [|done].
  by rewrite !tag_write_other.
Qed.

Lemma tag_step_kind (s : bool) (m : gmap string PropVal) (node name : string) :
  (∀ v, m !! name = Some v → ∃ vs, v = PString vs) →
  (∀ v, tag_step s m node !! name = Some v → ∃ vs, v = PString vs).
Proof.
  intros Hwt. unfold tag_step. destruct (_ || _); [|done].
  by apply tag_write_kind, tag_write_kind.
Qed.

Lemma tag_step_written (m : gmap string PropVal) (node : string) :
  tags_well_typed m node →
  tag_step true m node !! tmanip_name node = Some (PString [node]) ∧
  tag_step true m node !! tmanip_state_name node = Some (PString [""]).
Proof.
  intros [Hp Hs]. unfold tag_step. cbn [orb]. split.
  - rewrite tag_write_other by apply tmanip_name_ne_state.
    by apply tag_write_typed.
  - apply tag_write_typed. by apply tag_write_kind.
Qed.

Lemma elem_of_tagNames (name : string) (tforms : list string) :
  name ∈ tagNames tforms ↔
  ∃ n, n ∈ tforms ∧ (name = tmanip_name n ∨ name = tmanip_state_name n).
Proof.
  unfold tagNames. rewrite list_elem_of_In, in_flat_map. split.
  - intros (n & Hn & Hin). exists n. split; [by apply list_elem_of_In|].
    apply list_elem_of_In in Hin.
    rewrite !elem_of_cons, elem_of_nil in Hin. tauto.
  - intros (n & Hn & Hname). exists n. split; [by apply list_elem_of_In|].
    apply list_elem_of_In. rewrite !elem_of_cons, elem_of_nil. tauto.
Qed.

Lemma tag_fold_other (s : bool) (infos : list string) (name : string) :
  name ∉ tagNames infos →
  ∀ m, foldl (tag_step s) m infos !! name = m !! name.
Proof.
  intros Hname. induction infos as [|n rest IH]; intros m; [done|].
  cbn [foldl]. rewrite IH.
  - apply tag_step_other; intros ->; apply Hname, elem_of_tagNames;
      exists n; (split; [by left|tauto]).
  - intros Hin. apply Hname. apply elem_of_tagNames.
    apply elem_of_tagNames in Hin as (n' & Hn' & Hc). exists n'.
    split; [by right|done].
Qed.

Lemma tag_fold_kind (s : bool) (infos : list string) (name : string) :
  ∀ m, (∀ v, m !! name = Some v → ∃ vs, v = PString vs) →
       (∀ v, foldl (tag_step s) m infos !! name = Some v → ∃ vs, v = PString vs).
Proof.
  induction infos as [|n rest IH]; intros m Hwt; [done|].
  cbn [foldl]. apply IH. by apply tag_step_kind.
Qed.

Lemma tag_fold_written (infos : list string) (n : string) :
  n ∈ infos →
  ∀ m, tags_well_typed m n →
       foldl (tag_step true) m infos !! tmanip_name n = Some (PString [n]) ∧
       foldl (tag_step true) m infos !! tmanip_state_name n = Some (PString [""]).
Proof.
  induction infos as [|x rest IH] using rev_ind; intros Hin m Hwt.
  { by apply elem_of_nil in Hin. }
  rewrite foldl_snoc.
  destruct (decide (n = x)) as [->|Hne].
  - apply tag_step_written. destruct Hwt as [Hp Hs].
    split; by apply tag_fold_kind.
  - apply elem_of_app in Hin as [Hin|Hin]; [|by apply list_elem_of_singleton in Hin].
    destruct (IH Hin m Hwt) as [Hp Hs].
    rewrite !tag_step_other; [done|..];
      intros Heq;
      first [ by apply tmanip_name_inj in Heq
            | by apply tmanip_state_name_inj in Heq
            | by apply tmanip_name_ne_state in Heq
            | symmetry in Heq; by apply tmanip_name_ne_state in Heq ].
Qed.

Lemma findEditingNodes_run (setStates : bool) (w : World) (vnode : string)
    (rec : NodeRec) (infos : list string) :
  currentView w = Some vnode →
  nodes w !! vnode = Some rec →
  transformInfos w = Ok infos →
  length infos = length (ninputs rec) →
  findEditingNodes setStates w
  = (Ok tt,
     set_props (λ m, foldl (tag_step setStates) m infos)
       (set_editNodes (zip_with mkEditNodePair infos (ninputs rec)) w)).
Proof.
  intros Hv Hn Hi Hlen.
  unfold findEditingNodes, viewNode, metaEvaluateClosestByType, nodeConnections.
  munfold. rewrite Hv. simpl. rewrite Hi. simpl. rewrite Hn. simpl.
  rewrite bool_decide_true by done. simpl.
  rewrite (findEditingNodes_loop_run setStates (ninputs rec) infos 0) by (simpl; lia).
  by destruct w.
Qed.

(** X27: [findEditingNodes] when the host reports as many transforms as the
    view node has inputs: it returns normally; the edit-node list is
    rebuilt (stale pairs gone) as the transforms paired with the inputs, in
    order, so [editNode] finds a pair for each transform; only tag
    properties of those transforms are written; and with [setStates] each
    transform whose tags, where present, hold strings is tagged with its own
    name and an empty manipulation state. *)
Theorem findEditingNodes_pairs_and_tags (setStates : bool) (w : World)
    (vnode : string) (rec : NodeRec) (infos : list string) :
  currentView w = Some vnode →
  nodes w !! vnode = Some rec →
  transformInfos w = Ok infos →
  length infos = length (ninputs rec) →
  (findEditingNodes setStates w).1 = Ok tt ∧
  _editNodes (findEditingNodes setStates w).2
  = zip_with mkEditNodePair infos (ninputs rec) ∧
  (∀ n, n ∈ infos →
        ∃ e, editNode (findEditingNodes setStates w).2 n = Some e ∧ tformNode e = n) ∧
  (∀ name, name ∉ tagNames infos →
           props (findEditingNodes setStates w).2 !! name = props w !! name) ∧
  (setStates = true →
   ∀ n, n ∈ infos → tags_well_typed (props w) n →
        props (findEditingNodes setStates w).2 !! tmanip_name n = Some (PString [n]) ∧
        props (findEditingNodes setStates w).2 !! tmanip_state_name n
        = Some (PString [""])).
Proof.
  intros Hv Hn Hi Hlen.
  rewrite (findEditingNodes_run setStates w vnode rec infos Hv Hn Hi Hlen).
  cbn [fst snd]. split; [done|]. split; [by destruct w|]. split; [|split].
  - intros n Hin. unfold editNode.
    change (_editNodes _) with (zip_with mkEditNodePair infos (ninputs rec)).
    apply list_elem_of_lookup in Hin as [i Hi'].
    destruct (lookup_lt_is_Some_2 (ninputs rec) i) as [inp Hinp].
    { rewrite <- Hlen. by eapply lookup_lt_Some. }
    assert (Hpair : mkEditNodePair n inp
                    ∈ filter (λ enode, tformNode enode = n)
                        (zip_with mkEditNodePair infos (ninputs rec))).
    { apply list_elem_of_filter. split; [done|].
      apply list_elem_of_lookup. exists i.
      by rewrite lookup_zip_with, Hi', Hinp. }
    destruct (filter _ _) as [|e es] eqn:Hf; [by apply elem_of_nil in Hpair|].
    exists e. split; [done|].
    assert (He : e ∈ filter (λ enode, tformNode enode = n)
                       (zip_with mkEditNodePair infos (ninputs rec)))
      by (rewrite Hf; by left).
    by apply list_elem_of_filter in He as [He _].
  - intros name Hname.
    transitivity (foldl (tag_step setStates) (props w) infos !! name);
      [by destruct w|].
    by apply tag_fold_other.
  - intros -> n Hin Hwt.
    destruct (tag_fold_written infos n Hin (props w) Hwt) as [Hp Hs].
    split; [rewrite <- Hp|rewrite <- Hs]; by destruct w.
Qed.

Lemma findEditingNodes_pairs_and_tags_witness :
  _editNodes (findEditingNodes true layoutWorld).2
  = [mkEditNodePair "V_t_A" "A"; mkEditNodePair "V_t_B" "B"] ∧
  props (findEditingNodes true layoutWorld).2 !! "V_t_B.tag.tmanip"
  = Some (PString ["V_t_B"]) ∧
  props (findEditingNodes true layoutWorld).2 !! "A.sm_state.sortKey"
  = Some (PInt [0]).
Proof.
  destruct (findEditingNodes_pairs_and_tags true layoutWorld "V"
              (mkNode "RVLayoutGroup" ["A"; "B"]) ["V_t_A"; "V_t_B"])
    as (_ & Hpairs & _ & Hother & Htags); [done|done|done|done|].
  split; [exact Hpairs|]. split.
  - apply (Htags eq_refl "V_t_B").
    + right. by left.
    + by split.
  - rewrite Hother; [done|].
    unfold tagNames. simpl. rewrite !not_elem_of_cons.
    repeat split; try done. apply not_elem_of_nil.
Defined.

Lemma delete_if_exists (p : string) (w : World) :
  bind (propertyExists p) (λ e, when e (deleteProperty p)) w
  = (Ok tt, set_props (delete p) w).
Proof.
  unfold propertyExists, deleteProperty, when. munfold. simpl.
  destruct (props w !! p) as [v|] eqn:Hp; simpl.
  - by rewrite Hp.
  - destruct w; unfold set_props; simpl in *. by rewrite delete_id.
Qed.

Lemma removeTags_loop_run (es : list EditNodePair) :
  ∀ w,
    for_each es (λ x,
      for_each [tformNode x +:+ ".tag.tmanip"; tformNode x +:+ ".tag.tmanip_state"]
        (λ p, bind (propertyExists p) (λ e, when e (deleteProperty p)))) w
    = (Ok tt,
       set_props (λ m, foldl (λ m p, delete p m) m (tagNames (tformNode <$> es))) w).
Proof.
  induction es as [|x es IH]; intros w; [by destruct w|].
  assert (Hinner : ∀ p1 p2 : string,
            for_each [p1; p2]
              (λ p, bind (propertyExists p) (λ e, when e (deleteProperty p))) w
            = (Ok tt, set_props (delete p2) (set_props (delete p1) w))).
  { intros p1 p2. cbn [for_each]. mbinds.
    mstep (delete_if_exists p1 w). by mstep (delete_if_exists p2 (set_props (delete p1) w)). }
  cbn [for_each]. mbinds. mstep (Hinner (tformNode x +:+ ".tag.tmanip")
                                   (tformNode x +:+ ".tag.tmanip_state")).
  rewrite IH. by destruct w.
Qed.

Lemma foldl_delete_lookup (names : list string) (name : string) :
  ∀ m : gmap string PropVal,
    foldl (λ m p, delete p m) m names !! name
    = if bool_decide (name ∈ names) then None else m !! name.
Proof.
  induction names as [|p names IH]; intros m; [done|].
  cbn [foldl]. rewrite IH.
  destruct (decide (name = p)) as [->|Hne].
  - rewrite lookup_delete_eq, (bool_decide_true (p ∈ p :: names)) by (by left).
    by destruct (bool_decide _).
  - rewrite lookup_delete_ne by done.
    destruct (decide (name ∈ names)) as [Hin|Hnin].
    + rewrite !bool_decide_true; [done|by right|done].
    + rewrite !bool_decide_false; [done| |done].
      intros [?|?]%elem_of_cons; done.
Qed.

(** X28: [removeTags] returns normally whatever the property store holds;
    afterwards neither tag property of any edit node exists, every other
    property is what it was, and nothing but properties has changed (the
    edit-node list included). *)
Theorem removeTags_deletes_exactly_the_tags (w : World) :
  (removeTags w).1 = Ok tt ∧
  (∀ name,
     props (removeTags w).2 !! name
     = if bool_decide (name ∈ tagNames (tformNode <$> _editNodes w)) then None
       else props w !! name) ∧
  set_props (λ _, props w) (removeTags w).2 = w.
Proof.
  unfold removeTags. mbinds. mstep_refl. rewrite removeTags_loop_run.
  cbn [fst snd]. split; [done|]. split.
  - intros name. rewrite <- foldl_delete_lookup. by destruct w.
  - by destruct w.
Qed.

(** X29: tagging and untagging undo each other.  When none of the reported
    transforms carries a tag property yet, [findEditingNodes()] followed by
    [removeTags()] (what entering and leaving a view do) returns normally
    and leaves the property store exactly as it was; the edit-node list is
    the one [findEditingNodes] built. *)
Theorem findEditingNodes_then_removeTags (w : World) (vnode : string)
    (rec : NodeRec) (infos : list string) :
  currentView w = Some vnode →
  nodes w !! vnode = Some rec →
  transformInfos w = Ok infos →
  length infos = length (ninputs rec) →
  (∀ name, name ∈ tagNames infos → props w !! name = None) →
  (bind (findEditingNodes true) (λ _, removeTags) w).1 = Ok tt ∧
  props (bind (findEditingNodes true) (λ _, removeTags) w).2 = props w ∧
  _editNodes (bind (findEditingNodes true) (λ _, removeTags) w).2
  = zip_with mkEditNodePair infos (ninputs rec).
Proof.
  intros Hv Hn Hi Hlen Hfresh.
  rewrite (bind_run _ _ _ _ _
             (findEditingNodes_run true w vnode rec infos Hv Hn Hi Hlen)).
  set (w1 := set_props _ _).
  assert (He : tformNode <$> _editNodes w1 = infos).
  { change (_editNodes w1) with (zip_with mkEditNodePair infos (ninputs rec)).
    clear -Hlen. revert Hlen. generalize (ninputs rec).
    induction infos as [|n infos IH]; intros [|i ins] Hlen; simplify_eq/=; [done|].
    by rewrite IH. }
  unfold removeTags. mbinds. mstep_refl. rewrite removeTags_loop_run.
  cbn [fst snd]. rewrite He. split; [done|]. split; [|by destruct w].
  apply map_eq. intros name.
  transitivity (foldl (λ m p, delete p m) (props w1) (tagNames infos) !! name);
    [by destruct w1|].
  rewrite foldl_delete_lookup.
  destruct (decide (name ∈ tagNames infos)) as [Hin|Hnin].
  - rewrite bool_decide_true by done. symmetry. by apply Hfresh.
  - rewrite bool_decide_false by done.
    transitivity (foldl (tag_step true) (props w) infos !! name);
      [by destruct w|].
    by apply tag_fold_other.
Qed.

Lemma findEditingNodes_then_removeTags_witness :
  props (bind (findEditingNodes true) (λ _, removeTags) layoutWorld).2
  = props layoutWorld.
Proof.
  destruct (findEditingNodes_then_removeTags layoutWorld "V"
              (mkNode "RVLayoutGroup" ["A"; "B"]) ["V_t_A"; "V_t_B"])
    as (_ & Hprops & _); [done|done|done|done| |exact Hprops].
  intros name Hin. unfold tagNames in Hin. simpl in Hin.
  rewrite !elem_of_cons, elem_of_nil in Hin.
  destruct Hin as [->|[->|[->|[->|[]]]]]; done.
Defined.

(** ** The control under the pointer *)

Lemma control_loop_spec (p gc : vec2) (corners : list vec2) :
  ∃ con c, control_loop p gc corners = (con, gc, c) ∧
    ((con = FreeTranslation ∧ c = gc ∧ Forall (λ c', near p c' = false) corners) ∨
     (∃ before after,
        corners = before ++ c :: after ∧
        Forall (λ c', near p c' = false) before ∧
        near p c = true ∧ con = cornerControl gc c)).
Proof.
  induction corners as [|c0 rest IH]; cbn [control_loop].
  { exists FreeTranslation, gc. split; [done|]. left.
    split; [done|]. split; [done|]. apply Forall_nil_2. }
  destruct (near p c0) eqn:Hnear.
  - exists (cornerControl gc c0), c0. split; [done|]. right.
    exists [], rest. split; [done|]. split; [apply Forall_nil_2|]. by split.
  - destruct IH as (con & c & Hrun & [(-> & -> & Hall)|(before & after & -> & Hb & Hc & ->)]).
    + exists FreeTranslation, gc. split; [done|]. left.
      split; [done|]. split; [done|]. by apply Forall_cons.
    + exists (cornerControl gc c), c. split; [done|]. right.
      exists (c0 :: before), after. split; [done|].
      split; [by apply Forall_cons|]. by split.
Qed.

Lemma cornerControl_is_corner (gc c : vec2) :
  cornerControl gc c = TopLeftCorner ∨ cornerControl gc c = TopRightCorner ∨
  cornerControl gc c = BotLeftCorner ∨ cornerControl gc c = BotRightCorner.
Proof. unfold cornerControl. repeat case_match; tauto. Qed.

(** X30: the hit test of the manipulator.  For no corners [control] raises
    (the centre is a division by their number); otherwise it answers the
    centre and either the first corner, in the order given, that lies
    within 25 pixels of the pointer on both axes, with the corner control of
    the side of the centre it is on, or, when no corner is that near, free
    translation with the centre as its corner.  It never answers
    [NoControl], so the cursor [move] sets is never the question mark. *)
Theorem control_hit_test (corners : list vec2) (p : vec2) :
  match control corners p with
  | Raise => corners = []
  | Ok (con, gc, c) =>
      corners ≠ [] ∧ computeGC corners = Ok gc ∧
      con ≠ NoControl ∧ moveCursor con ≠ WhatsThisCursor ∧
      ((con = FreeTranslation ∧ c = gc ∧
        Forall (λ c', near p c' = false) corners) ∨
       (∃ before after,
          corners = before ++ c :: after ∧
          Forall (λ c', near p c' = false) before ∧
          near p c = true ∧ con = cornerControl gc c ∧
          (con = TopLeftCorner ∨ con = TopRightCorner ∨
           con = BotLeftCorner ∨ con = BotRightCorner)))
  end.
Proof.
  unfold control. destruct (computeGC corners) as [gc|] eqn:Hgc.
  - assert (Hne : corners ≠ []).
    { intros ->. unfold computeGC in Hgc. by rewrite bool_decide_true in Hgc. }
    destruct (control_loop_spec p gc corners) as (con & c & -> & Hcase).
    split; [done|]. split; [done|].
    destruct Hcase as [(-> & -> & Hall)|(before & after & Hsplit & Hb & Hc & Hcon)].
    + split; [done|]. split; [done|]. left. by split.
    + pose proof (cornerControl_is_corner gc c) as Hcorner. rewrite <- Hcon in Hcorner.
      split; [|split].
      * intros ->. destruct Hcorner as [?|[?|[?|?]]]; done.
      * destruct Hcorner as [Hc'|[Hc'|[Hc'|Hc']]]; by rewrite Hc'.
      * right. exists before, after. split; [done|]. split; [done|].
        split; [done|]. by split.
  - unfold computeGC in Hgc. by case_bool_decide.
Qed.
